(** * Chess2: the authoritative game-state engine

    A shallow embedding of the server (server.js) and of the rule library
    (class ChessGame, public/js/game.js) of the Chess2 repository, with the
    properties of the engine stated and proved over it.

    Modelling conventions.
    - Coordinates are JavaScript numbers holding integers: finite doubles.
      They are modelled by the integer they hold, in [Z], and the sums and
      differences the code computes on coordinates it receives are rounded
      as doubles are (module [Number]): exact up to [2 ^ 53], and no longer
      beyond.  The board is a JavaScript [Map] keyed by the template string
      [`${x},${y}`]; that string is injective on pairs of numbers, so the
      key is modelled by the pair [(x, y)] and the board by a
      [gmap (Z * Z) Piece].
    - An event handler returns, or throws (the uncaught exception ends the
      process), or never returns; [move-piece] and [get-board-section] sent
      without payload are commands of their own.
    - A player id is the string returned by [uuidv4()].  It is never empty,
      so the truthiness test [piece.playerId && ...] only separates
      [null]/[undefined] from an id: the field is an [option PlayerId] and
      the test is [is_Some].
    - The values [uuidv4()] and [Date.now()] are inputs of the command that
      reads them.
    - [socket.emit], [socket.broadcast.emit] and [io.emit] are modelled by
      the list of messages a handler returns, each with its audience.
    - [findSpawnPosition] walks a spiral whose points come from [Math.cos],
      [Math.sin] and [Math.round].  The loop and its acceptance test are
      modelled as written; the rounded point of each iteration after the
      first, and the result of the fallback scan, are parameters.  These
      points are a few thousand from the origin at most, so that the sums
      [spawnPlayerPieces] computes on them are exact. *)

From stdpp Require Import gmap strings list fin_maps pretty.
From Stdlib Require Import ZArith Lia.

Local Open Scope Z_scope.

(** ** Data model *)

Definition PlayerId := string.
Definition SocketId := string.
Abbreviation Coord := (Z * Z)%type.

Inductive PieceType := pawn | rook | knight | bishop | queen | king.

#[global] Instance PieceType_eq_dec : EqDecision PieceType.
Proof. solve_decision. Defined.

(** A piece object as [spawnPlayerPieces] builds it:
    [{ type, x, y, color, playerId }]. *)
Record Piece := mkPiece {
  ptype : PieceType;
  px : Z;
  py : Z;
  pcolor : string;
  playerId : option PlayerId
}.

#[global] Instance Piece_eq_dec : EqDecision Piece.
Proof. solve_decision. Defined.

Abbreviation Board := (gmap (Z * Z) Piece).

(** [piece.x = toX; piece.y = toY] *)
Definition setXY (p : Piece) (x y : Z) : Piece :=
  {| ptype := ptype p; px := x; py := y; pcolor := pcolor p;
     playerId := playerId p |}.

(** ** JavaScript numbers

    A coordinate is a JavaScript number that holds an integer: a finite
    IEEE 754 double.  It is modelled by the integer it holds, and [+] and
    [-] by the exact sum or difference rounded to the nearest double, ties
    to the even significand.  Up to [2 ^ 53] in magnitude every integer is a
    double and the operations are exact; from there on [x + 1] can be [x].
    A difference at or beyond [2 ^ 1024 - 2 ^ 970] in magnitude is infinite;
    the infinities are modelled by [infinity] and its opposite. *)

Module Number.

Definition infinity : Z := 2 ^ 1024.

Definition round (z : Z) : Z :=
  if Z.abs z <=? 2 ^ 53 then z
  else if 2 ^ 1024 - 2 ^ 970 <=? Z.abs z then Z.sgn z * infinity
  else
    let u := 2 ^ (Z.log2 (Z.abs z) - 52) in
    let q := z / u in
    let r := z mod u in
    if 2 * r <? u then q * u
    else if u <? 2 * r then (q + 1) * u
    else if Z.even q then q * u else (q + 1) * u.

(** [x + y] and [x - y] *)
Definition add (x y : Z) : Z := round (x + y).
Definition sub (x y : Z) : Z := round (x - y).

(** The coordinates on which all the arithmetic of the rule library is
    exact: differences of two of them stay within [2 ^ 53]. *)
Definition safe (z : Z) : Prop := Z.abs z <= 2 ^ 52.

End Number.

(** Outcome of a JavaScript call that may throw or loop. *)
Inductive result (A : Type) : Type :=
  | Ok (a : A)
  | TypeError
  | OutOfFuel.
Arguments Ok {A} a.
Arguments TypeError {A}.
Arguments OutOfFuel {A}.

#[global] Instance result_bind : MBind result := fun A B k r =>
  match r with
  | Ok a => k a
  | TypeError => TypeError
  | OutOfFuel => OutOfFuel
  end.

(** ** The rule library: class ChessGame *)

Module ChessGame.

(** The [while (currentX !== toX || currentY !== toY)] loop of
    [validateLinearMove]: [Ok false] is the [return false] inside the loop
    (path blocked), [Ok true] is the normal exit. *)
Fixpoint pathLoop (fuel : nat) (stepX stepY currentX currentY toX toY : Z)
    (boardState : Board) : result bool :=
  match fuel with
  | O => OutOfFuel
  | S fuel' =>
      if negb (currentX =? toX) || negb (currentY =? toY) then
        if decide (is_Some (boardState !! (currentX, currentY))) then Ok false
        else pathLoop fuel' stepX stepY (Number.add currentX stepX)
               (Number.add currentY stepY) toX toY boardState
      else Ok true
  end.

(** [!targetPiece || targetPiece.playerId !== movingPiece.playerId]; reading
    [.playerId] of an undefined [movingPiece] throws. *)
Definition destinationFree (targetPiece movingPiece : option Piece) : result bool :=
  match targetPiece with
  | None => Ok true
  | Some t =>
      match movingPiece with
      | None => TypeError
      | Some m => Ok (negb (bool_decide (playerId t = playerId m)))
      end
  end.

(** [d === 0 ? 0 : d / Math.abs(d)].  The quotient of a finite non-zero
    double by its magnitude is 1 or -1; that of an infinity is NaN, here
    [None]. *)
Definition stepOf (d : Z) : option Z :=
  if Z.abs d =? Number.infinity then None else Some (Z.sgn d).

(** With a NaN step the loop condition [currentX !== toX || ...] holds for
    ever and no key of the board contains NaN: the call does not return. *)
Definition validateLinearMove (fuel : nat) (dx dy : Z) (boardState : Board)
    (fromX fromY toX toY : Z) : result bool :=
  match stepOf dx, stepOf dy with
  | Some stepX, Some stepY =>
      clear ← pathLoop fuel stepX stepY (Number.add fromX stepX)
                (Number.add fromY stepY) toX toY boardState;
      if clear : bool then
        destinationFree (boardState !! (toX, toY)) (boardState !! (fromX, fromY))
      else Ok false
  | _, _ => OutOfFuel
  end.

Definition validatePawnMove (piece : Piece) (dx dy : Z) (boardState : Board)
    (fromX fromY : Z) : bool :=
  let adx := Z.abs dx in
  let ady := Z.abs dy in
  if ((adx =? 1) && (ady =? 0)) || ((adx =? 0) && (ady =? 1)) then
    match boardState !! (Number.add fromX dx, Number.add fromY dy) with
    | None => true
    | Some targetPiece => negb (bool_decide (playerId targetPiece = playerId piece))
    end
  else false.

Definition validateRookMove (fuel : nat) (dx dy : Z) (boardState : Board)
    (fromX fromY toX toY : Z) : result bool :=
  if negb (dx =? 0) && negb (dy =? 0) then Ok false
  else validateLinearMove fuel dx dy boardState fromX fromY toX toY.

Definition validateKnightMove (adx ady : Z) : bool :=
  ((adx =? 2) && (ady =? 1)) || ((adx =? 1) && (ady =? 2)).

Definition validateBishopMove (fuel : nat) (dx dy : Z) (boardState : Board)
    (fromX fromY toX toY : Z) : result bool :=
  if negb (Z.abs dx =? Z.abs dy) then Ok false
  else validateLinearMove fuel dx dy boardState fromX fromY toX toY.

Definition validateQueenMove (fuel : nat) (dx dy : Z) (boardState : Board)
    (fromX fromY toX toY : Z) : result bool :=
  let adx := Z.abs dx in
  let ady := Z.abs dy in
  if negb (dx =? 0) && negb (dy =? 0) && negb (adx =? ady) then Ok false
  else validateLinearMove fuel dx dy boardState fromX fromY toX toY.

Definition validateKingMove (adx ady : Z) : bool :=
  (adx <=? 1) && (ady <=? 1) && (0 <? Number.add adx ady).

(** The [type] of a piece is one of the six strings [spawnPlayerPieces]
    writes, so the [default] branch of the [switch] is not reachable. *)
Definition validateMove (fuel : nat) (piece : option Piece)
    (fromX fromY toX toY : Z) (boardState : Board) : result bool :=
  match piece with
  | None => Ok false
  | Some piece =>
      let dx := Number.sub toX fromX in
      let dy := Number.sub toY fromY in
      let adx := Z.abs dx in
      let ady := Z.abs dy in
      match ptype piece with
      | pawn => Ok (validatePawnMove piece dx dy boardState fromX fromY)
      | rook => validateRookMove fuel dx dy boardState fromX fromY toX toY
      | knight => Ok (validateKnightMove adx ady)
      | bishop => validateBishopMove fuel dx dy boardState fromX fromY toX toY
      | queen => validateQueenMove fuel dx dy boardState fromX fromY toX toY
      | king => Ok (validateKingMove adx ady)
      end
  end.

(** [{ fromX, fromY, toX, toY, playerId }] *)
Record Move := mkMove {
  fromX : Z; fromY : Z; toX : Z; toY : Z; movePlayerId : PlayerId
}.

(** [{ valid, reason }] *)
Record Verdict := mkVerdict { valid : bool; reason : option string }.

Definition wouldExposeKing (move : Move) (boardState : Board)
    (pid : PlayerId) : bool := false.

(** [Number.isInteger(x) && Number.isInteger(y)]: the coordinates of the
    model are integers. *)
Definition isValidPosition (x y : Z) : bool := true.

(** [isMoveLegal(move, gameState)]; only [gameState.board] is read. *)
Definition isMoveLegal (fuel : nat) (move : Move) (board : Board) : result Verdict :=
  match board !! (fromX move, fromY move) with
  | None => Ok (mkVerdict false (Some "No piece at source position"%string))
  | Some piece =>
      if negb (bool_decide (playerId piece = Some (movePlayerId move))) then
        Ok (mkVerdict false (Some "Not your piece"%string))
      else if negb (isValidPosition (toX move) (toY move)) then
        Ok (mkVerdict false (Some "Invalid target position"%string))
      else
        ok ← validateMove fuel (Some piece) (fromX move) (fromY move)
                (toX move) (toY move) board;
        if negb ok then
          Ok (mkVerdict false (Some "Invalid move for this piece"%string))
        else if wouldExposeKing move board (movePlayerId move) then
          Ok (mkVerdict false (Some "Move would expose king"%string))
        else Ok (mkVerdict true None)
  end.

End ChessGame.

(** ** The server: server.js *)

Module Server.

Definition MAX_PLAYERS : nat := 100.

(** The player object built by the [join-game] handler. *)
Record Player := mkPlayer {
  id : PlayerId;
  socketId : SocketId;
  name : string;
  color : string;
  colorIndex : nat;
  isActive : bool;
  joinedAt : Z
}.

(** [gameState] ([playerColors] is never read or written), together with
    the [playerId] property the handlers store on each socket object. *)
Record State := mkState {
  players : gmap PlayerId Player;
  board : Board;
  nextPlayerIndex : nat;
  socketPlayerId : gmap SocketId PlayerId
}.

Definition initialState : State :=
  {| players := ∅; board := ∅; nextPlayerIndex := 0; socketPlayerId := ∅ |}.

(** *** The palette *)

Definition curatedColors : list string :=
  [ "#FF0000"; "#00FF00"; "#0000FF"; "#FFFF00"; "#FF00FF"; "#00FFFF";
    "#800000"; "#008000"; "#000080"; "#808000"; "#800080"; "#008080";
    "#FFA500"; "#FFC0CB"; "#A52A2A"; "#D2691E"; "#FF1493"; "#00CED1";
    "#32CD32"; "#FFD700"; "#DC143C"; "#00FA9A"; "#1E90FF"; "#FF69B4" ]%string.

(** [Math.floor((i * 137.508) % 360)].  The exact product has a fractional
    part that is a multiple of 0.004 and is not an integer for 0 < i < 250,
    so the rounding of the floating-point product cannot move the floor. *)
Definition hueOf (i : nat) : N := (((N.of_nat i * 137508) `mod` 360000) `div` 1000)%N.

Definition hslColor (i : nat) : string :=
  ("hsl(" +:+ pretty (hueOf i) +:+ ", 70%, 50%)")%string.

(** [PLAYER_COLORS] after the loop that extends it to 100 entries. *)
Definition PLAYER_COLORS : list string :=
  curatedColors ++ (hslColor <$> seq 24 76).

(** [PLAYER_COLORS[i % PLAYER_COLORS.length]] *)
Definition colorAt (i : nat) : string :=
  default EmptyString (PLAYER_COLORS !! (i `mod` length PLAYER_COLORS)%nat).

(** *** Spawn placement *)

(** [Math.sqrt(Math.pow(x - pos.x, 2) + Math.pow(y - pos.y, 2)) >= minDistance].
    The radicand is an exactly represented integer and the square root is
    correctly rounded, hence monotone and exact on perfect squares: for an
    integer [minDistance >= 0] the comparison holds exactly when the
    radicand is at least [minDistance * minDistance]. *)
Definition sqDist (a b : Z * Z) : Z :=
  (a.1 - b.1) * (a.1 - b.1) + (a.2 - b.2) * (a.2 - b.2).

Definition farEnough (minDistance : Z) (a b : Z * Z) : bool :=
  minDistance * minDistance <=? sqDist a b.

(** The keys of the board entries whose piece has a [playerId]. *)
Definition existingPositions (b : Board) : list (Z * Z) :=
  (filter (λ kp, is_Some (playerId kp.2)) (map_to_list b)).*1.

Definition validPosition (minDistance : Z) (existing : list (Z * Z))
    (c : Z * Z) : bool :=
  forallb (farEnough minDistance c) existing.

Definition maxAttempts : nat := Z.to_nat 10000.

Section Spiral.

(** The point [(Math.round(radius * Math.cos(angle)),
    Math.round(radius * Math.sin(angle)))] the spiral loop of
    [findSpawnPosition(minDistance)] computes in its iteration number
    [attempts].  The loop updates [angle] and [radius] without looking
    at the board, so the point is a function of [minDistance] and the
    iteration number alone; its value comes from floating-point
    trigonometry and is left abstract, except in iteration 0, where
    [angle] is 0, [radius] is [minDistance], and [Math.cos(0)] is 1 and
    [Math.sin(0)] is 0 exactly. *)
Variable spiralPoint : Z -> nat -> Z * Z.

(** The position the fallback scan of [findSpawnPosition] returns when
    the spiral is exhausted (two nested floating-point loops). *)
Variable fallbackPosition : Z -> list (Z * Z) -> Z * Z.

Definition candidate (minDistance : Z) (attempts : nat) : Z * Z :=
  match attempts with
  | O => (minDistance, 0)
  | S _ => spiralPoint minDistance attempts
  end.

(** [while (attempts < maxAttempts)], with [remaining] iterations left. *)
Fixpoint spiralLoop (remaining : nat) (minDistance : Z)
    (existing : list (Z * Z)) (attempts : nat) : option (Z * Z) :=
  match remaining with
  | O => None
  | S remaining' =>
      let c := candidate minDistance attempts in
      if validPosition minDistance existing c then Some c
      else spiralLoop remaining' minDistance existing (S attempts)
  end.

Definition findSpawnPosition (minDistance : Z) (b : Board) : Z * Z :=
  let existing := existingPositions b in
  match existing with
  | [] => (0, 0)
  | _ =>
      match spiralLoop maxAttempts minDistance existing 0 with
      | Some c => c
      | None => fallbackPosition minDistance existing
      end
  end.

(** The sixteen piece objects of [spawnPlayerPieces], in source order. *)
Definition startingPieces (x y : Z) (playerColor : string)
    (pid : PlayerId) : list Piece :=
  let mk t px py := mkPiece t px py playerColor (Some pid) in
  [ mk rook (x - 3) y; mk knight (x - 2) y; mk bishop (x - 1) y;
    mk queen x y; mk king (x + 1) y; mk bishop (x + 2) y;
    mk knight (x + 3) y; mk rook (x + 4) y;
    mk pawn (x - 3) (y + 1); mk pawn (x - 2) (y + 1);
    mk pawn (x - 1) (y + 1); mk pawn x (y + 1);
    mk pawn (x + 1) (y + 1); mk pawn (x + 2) (y + 1);
    mk pawn (x + 3) (y + 1); mk pawn (x + 4) (y + 1) ].

(** [pieces.forEach(piece => gameState.board.set(key, piece))] *)
Definition placePieces (pieces : list Piece) (b : Board) : Board :=
  foldl (λ acc piece, <[(px piece, py piece) := piece]> acc) b pieces.

(** [spawnPlayerPieces(playerId, playerColor)]: the new board and the
    returned piece list. *)
Definition spawnPlayerPieces (b : Board) (pid : PlayerId)
    (playerColor : string) : Board * list Piece :=
  let '(x, y) := findSpawnPosition 25 b in
  let pieces := startingPieces x y playerColor pid in
  (placePieces pieces b, pieces).

(** *** Messages *)

Inductive Audience :=
  | ToSocket (s : SocketId)     (* socket.emit *)
  | ToOthers (s : SocketId)     (* socket.broadcast.emit *)
  | ToAll.                      (* io.emit *)

Record Bounds := mkBounds { minX : Z; maxX : Z; minY : Z; maxY : Z }.

Inductive Message :=
  | game_full
  | game_joined (pid : PlayerId) (player : Player) (pieces : list Piece)
      (everyone : list Player)
  | player_joined (player : Player)
  | invalid_move (why : string)
  | piece_moved (pid : PlayerId) (fromX fromY toX toY : Z) (piece : Piece)
  | board_section (bounds : Bounds) (pieces : list Piece)
  | player_left (pid : PlayerId).

Definition Emitted := list (Audience * Message).

(** [piece.playerId && activePlayerIds.includes(piece.playerId)] *)
Definition ownedByActive (ps : gmap PlayerId Player) (piece : Piece) : bool :=
  match playerId piece with
  | Some pid => bool_decide (is_Some (ps !! pid))
  | None => false
  end.

(** The [board] field of the [game-joined] payload.  A JavaScript [Map]
    lists its entries in insertion order; the list here holds the same
    entries in the order of [map_to_list]. *)
Definition activePieces (ps : gmap PlayerId Player) (b : Board) : list Piece :=
  (λ kp, setXY kp.2 kp.1.1 kp.1.2) <$>
    filter (λ kp, ownedByActive ps kp.2) (map_to_list b).

(** *** Handlers *)

(** [socket.on('join-game', (playerName) => ...)] *)
Definition on_join_game (st : State) (sock : SocketId) (playerName : string)
    (uuid : PlayerId) (now : Z) : State * Emitted :=
  if decide (MAX_PLAYERS ≤ size (players st))%nat then
    (st, [(ToSocket sock, game_full)])
  else
    let playerColor := colorAt (nextPlayerIndex st) in
    let player :=
      {| id := uuid; socketId := sock;
         name := if decide (playerName = EmptyString)
                 then ("Player" +:+ pretty (size (players st) + 1)%nat)%string
                 else playerName;
         color := playerColor; colorIndex := nextPlayerIndex st;
         isActive := true; joinedAt := now |} in
    let players' := <[uuid := player]> (players st) in
    let '(board', newPieces) := spawnPlayerPieces (board st) uuid playerColor in
    let st' :=
      {| players := players'; board := board';
         nextPlayerIndex := S (nextPlayerIndex st);
         socketPlayerId := <[sock := uuid]> (socketPlayerId st) |} in
    (st', [ (ToSocket sock,
              game_joined uuid player (activePieces players' board')
                (map_to_list players').*2);
            (ToOthers sock, player_joined player) ]).

(** [gameState.players.get(socket.playerId)] *)
Definition playerOf (st : State) (sock : SocketId) : option Player :=
  pid ← socketPlayerId st !! sock; players st !! pid.

(** [socket.on('move-piece', (moveData) => ...)] *)
Definition on_move_piece (st : State) (sock : SocketId)
    (fromX fromY toX toY : Z) : State * Emitted :=
  match playerOf st sock with
  | None => (st, [])
  | Some player =>
      match board st !! (fromX, fromY) with
      | Some piece =>
          if bool_decide (playerId piece = Some (id player)) then
            let piece' := setXY piece toX toY in
            ({| players := players st;
                board := <[(toX, toY) := piece']> (delete (fromX, fromY) (board st));
                nextPlayerIndex := nextPlayerIndex st;
                socketPlayerId := socketPlayerId st |},
             [(ToAll, piece_moved (id player) fromX fromY toX toY piece')])
          else (st, [(ToSocket sock, invalid_move "Not your piece")])
      | None => (st, [(ToSocket sock, invalid_move "Not your piece")])
      end
  end.

(** [for (let v = lo; v <= hi; v++) body(v)]: the pieces the body pushes,
    in order, or [None] when the loop never ends.  [v++] is [v + 1] on
    doubles; when it leaves [v] where it is the loop never ends, and
    otherwise [v] grows by at least one, so that [hi - lo + 1] iterations
    are always enough for [fuel]. *)
Fixpoint forUpTo (fuel : nat) (v hi : Z) (body : Z → option (list Piece))
    : option (list Piece) :=
  if hi <? v then Some []
  else
    let v' := Number.add v 1 in
    if v' <=? v then None
    else
      match fuel with
      | O => None
      | S fuel' =>
          here ← body v; rest ← forUpTo fuel' v' hi body; Some (here ++ rest)
      end.

(** [if (piece && piece.playerId && activePlayerIds.includes(piece.playerId))
    pieces.push({ ...piece, x, y })] *)
Definition pushed (ps : gmap PlayerId Player) (b : Board) (x y : Z) : list Piece :=
  match b !! (x, y) with
  | Some piece => if ownedByActive ps piece then [setXY piece x y] else []
  | None => []
  end.

(** The two nested [for] loops of the [get-board-section] handler. *)
Definition sectionPieces (ps : gmap PlayerId Player) (b : Board)
    (bounds : Bounds) : option (list Piece) :=
  forUpTo (Z.to_nat (maxX bounds - minX bounds + 1)) (minX bounds) (maxX bounds)
    (λ x, forUpTo (Z.to_nat (maxY bounds - minY bounds + 1)) (minY bounds)
            (maxY bounds) (λ y, Some (pushed ps b x y))).

(** What becomes of the process when a handler runs: it returns, having
    changed the state and emitted messages; or it throws, and the uncaught
    exception ends the process; or it never returns, and the process handles
    no further event. *)
Inductive Outcome :=
  | returns (st : State) (out : Emitted)
  | throws
  | hangs.

Definition returned (r : State * Emitted) : Outcome := returns r.1 r.2.

(** [socket.on('get-board-section', (bounds) => ...)] *)
Definition on_get_board_section (st : State) (sock : SocketId)
    (bounds : Bounds) : Outcome :=
  match sectionPieces (players st) (board st) bounds with
  | Some sectionData => returns st [(ToSocket sock, board_section bounds sectionData)]
  | None => hangs
  end.

(** A [move-piece] without payload: [const { fromX, fromY, toX, toY } =
    moveData] throws a TypeError on [undefined], after the test
    [if (!player) return]. *)
Definition on_move_piece_undefined (st : State) (sock : SocketId) : Outcome :=
  match playerOf st sock with
  | None => returns st []
  | Some _ => throws
  end.

(** [socket.on('disconnect', () => ...)].  The handler first sets
    [isActive] and [disconnectedAt] on the player object and then deletes
    it from the map; the object is not reachable from the state
    afterwards. *)
Definition on_disconnect (st : State) (sock : SocketId) (now : Z)
    : State * Emitted :=
  match socketPlayerId st !! sock with
  | Some pid =>
      match players st !! pid with
      | Some player =>
          ({| players := delete pid (players st); board := board st;
              nextPlayerIndex := nextPlayerIndex st;
              socketPlayerId := socketPlayerId st |},
           [(ToOthers sock, player_left pid)])
      | None => (st, [])
      end
  | None => (st, [])
  end.

(** *** Commands and runs *)

(** An event with its payload; [move_piece_undefined] and
    [get_board_section_undefined] are the events sent without payload. *)
Inductive Command :=
  | join_game (sock : SocketId) (playerName : string) (uuid : PlayerId) (now : Z)
  | move_piece (sock : SocketId) (fromX fromY toX toY : Z)
  | move_piece_undefined (sock : SocketId)
  | get_board_section (sock : SocketId) (bounds : Bounds)
  | get_board_section_undefined (sock : SocketId)
  | disconnect (sock : SocketId) (now : Z).

(** [const { minX, maxX, minY, maxY } = bounds] throws on [undefined]. *)
Definition handle (st : State) (c : Command) : Outcome :=
  match c with
  | join_game sock playerName uuid now =>
      returned (on_join_game st sock playerName uuid now)
  | move_piece sock fromX fromY toX toY =>
      returned (on_move_piece st sock fromX fromY toX toY)
  | move_piece_undefined sock => on_move_piece_undefined st sock
  | get_board_section sock bounds => on_get_board_section st sock bounds
  | get_board_section_undefined sock => throws
  | disconnect sock now => returned (on_disconnect st sock now)
  end.

(** State and messages when the handler is done with [st]: a handler that
    throws or hangs does so before it has changed or emitted anything. *)
Definition effect (st : State) (o : Outcome) : State * Emitted :=
  match o with
  | returns st' out => (st', out)
  | throws | hangs => (st, [])
  end.

(** The server handles one command to completion before the next; the run
    ends with the last command, or with the first one whose handler throws
    or hangs. *)
Fixpoint run (st : State) (cs : list Command) : State :=
  match cs with
  | [] => st
  | c :: cs' =>
      match handle st c with
      | returns st' _ => run st' cs'
      | throws | hangs => st
      end
  end.

Inductive reachable : State -> Prop :=
  | reachable_init : reachable initialState
  | reachable_step st c st' out :
      reachable st -> handle st c = returns st' out -> reachable st'.

End Spiral.

End Server.

(** * Exactness of the arithmetic *)

Module NumberFacts.

Lemma round_exact (z : Z) : Z.abs z <= 2 ^ 53 → Number.round z = z.
Proof. intros H. unfold Number.round. by rewrite (proj2 (Z.leb_le _ _) H). Qed.

Lemma add_exact (x y : Z) : Z.abs (x + y) <= 2 ^ 53 → Number.add x y = x + y.
Proof. apply round_exact. Qed.

Lemma sub_exact (x y : Z) : Z.abs (x - y) <= 2 ^ 53 → Number.sub x y = x - y.
Proof. apply round_exact. Qed.

Lemma infinity_large : 2 ^ 53 < Number.infinity.
Proof. vm_compute. reflexivity. Qed.

(** Beyond [2 ^ 53] the rounded value stays beyond it. *)
Lemma round_lower (z : Z) : 2 ^ 53 <= z → 2 ^ 53 <= Number.round z.
Proof.
  intros Hz. unfold Number.round.
  destruct (Z.abs z <=? 2 ^ 53) eqn:H1; [done|].
  destruct (2 ^ 1024 - 2 ^ 970 <=? Z.abs z) eqn:H2.
  { pose proof infinity_large. rewrite Z.sgn_pos by lia. lia. }
  rewrite Z.abs_eq by lia.
  assert (Hk : 53 <= Z.log2 z) by (apply Z.log2_le_pow2; lia).
  set (k := Z.log2 z) in *.
  assert (Hlog : 2 ^ k <= z) by (apply Z.log2_spec; lia).
  set (u := 2 ^ (k - 52)).
  assert (Hu : 2 <= u).
  { unfold u. change 2 with (2 ^ 1) at 1. apply Z.pow_le_mono_r; lia. }
  assert (Hku : 2 ^ k = 2 ^ 52 * u).
  { unfold u. rewrite <- Z.pow_add_r by lia. f_equal. lia. }
  assert (Hq : 2 ^ 52 <= z / u) by (apply Z.div_le_lower_bound; lia).
  cbv zeta.
  assert (2 ^ 53 <= z / u * u) by nia.
  assert (2 ^ 53 <= (z / u + 1) * u) by nia.
  repeat case_match; lia.
Qed.

Lemma round_upper (z : Z) : z <= - 2 ^ 53 → Number.round z <= - 2 ^ 53.
Proof.
  intros Hz. unfold Number.round.
  destruct (Z.abs z <=? 2 ^ 53) eqn:H1; [done|].
  destruct (2 ^ 1024 - 2 ^ 970 <=? Z.abs z) eqn:H2.
  { pose proof infinity_large. rewrite Z.sgn_neg by lia. lia. }
  rewrite Z.abs_neq by lia.
  assert (Hk : 53 <= Z.log2 (- z)) by (apply Z.log2_le_pow2; lia).
  set (k := Z.log2 (- z)) in *.
  assert (Hlog : 2 ^ k <= - z) by (apply Z.log2_spec; lia).
  set (u := 2 ^ (k - 52)).
  assert (Hu : 2 <= u).
  { unfold u. change 2 with (2 ^ 1) at 1. apply Z.pow_le_mono_r; lia. }
  assert (Hku : 2 ^ k = 2 ^ 52 * u).
  { unfold u. rewrite <- Z.pow_add_r by lia. f_equal. lia. }
  pose proof (Z.div_mod z u ltac:(lia)) as Hdm.
  pose proof (Z.mod_pos_bound z u ltac:(lia)) as Hr.
  cbv zeta.
  set (q := z / u) in *. set (r := z mod u) in *.
  assert (Hq : q <= - 2 ^ 52) by nia.
  assert (q * u <= - 2 ^ 53) by nia.
  destruct (2 * r <? u) eqn:H3; [lia|].
  assert (0 < r) by lia.
  assert (q < - 2 ^ 52) by nia.
  assert ((q + 1) * u <= - 2 ^ 53) by nia.
  repeat case_match; lia.
Qed.

(** A finite delta has a step. *)
Lemma stepOf_finite (d : Z) :
  Z.abs d <= 2 ^ 53 → ChessGame.stepOf d = Some (Z.sgn d).
Proof.
  intros Hd. unfold ChessGame.stepOf. pose proof infinity_large.
  by rewrite (proj2 (Z.eqb_neq _ _)) by lia.
Qed.

End NumberFacts.

(** Rewrites the sums and differences that stay within [2 ^ 53] into the
    exact ones. *)
Ltac exact_arith :=
  unfold Number.safe in *;
  repeat first
    [ rewrite NumberFacts.add_exact by lia
    | rewrite NumberFacts.sub_exact by lia
    | rewrite NumberFacts.stepOf_finite by lia ].

(** * Properties of the rule library *)

Module Rules.
Import ChessGame.

(** The movement pattern of each piece type, on the deltas
    [dx = toX - fromX] and [dy = toY - fromY]. *)
Definition patternRule (t : PieceType) (dx dy : Z) : Prop :=
  match t with
  | pawn => Z.abs dx + Z.abs dy = 1
  | knight => (Z.abs dx = 2 ∧ Z.abs dy = 1) ∨ (Z.abs dx = 1 ∧ Z.abs dy = 2)
  | king => Z.max (Z.abs dx) (Z.abs dy) = 1
  | rook => (dx = 0 ∧ dy ≠ 0) ∨ (dx ≠ 0 ∧ dy = 0)
  | bishop => Z.abs dx = Z.abs dy ∧ dx ≠ 0
  | queen => ((dx = 0 ∧ dy ≠ 0) ∨ (dx ≠ 0 ∧ dy = 0)) ∨ (Z.abs dx = Z.abs dy ∧ dx ≠ 0)
  end.

(** The types that move along a line. *)
Definition slides (t : PieceType) : Prop := t = rook ∨ t = bishop ∨ t = queen.

(** The types whose validation inspects the destination cell. *)
Definition checksDestination (t : PieceType) : Prop := t = pawn ∨ slides t.

(** The cell [k] steps from the source along the unit vector
    [(sign dx, sign dy)]. *)
Definition cellAt (fromX fromY toX toY k : Z) : Z * Z :=
  (fromX + k * Z.sgn (toX - fromX), fromY + k * Z.sgn (toY - fromY)).

(** Number of steps from the source to the destination of an aligned move. *)
Definition span (fromX fromY toX toY : Z) : Z :=
  Z.max (Z.abs (toX - fromX)) (Z.abs (toY - fromY)).

(** Every cell strictly between source and destination is empty. *)
Definition pathClear (b : Board) (fromX fromY toX toY : Z) : Prop :=
  ∀ k, 0 < k < span fromX fromY toX toY → b !! cellAt fromX fromY toX toY k = None.

(** The destination is empty or holds a piece of another owner. *)
Definition captureOk (b : Board) (mover : Piece) (toX toY : Z) : Prop :=
  match b !! (toX, toY) with
  | None => True
  | Some t => playerId t ≠ playerId mover
  end.

Definition aligned (dx dy : Z) : Prop := dx = 0 ∨ dy = 0 ∨ Z.abs dx = Z.abs dy.

(** The source and destination coordinates between which every sum and
    difference the validator computes is exact. *)
Definition within (a b : Z) : Prop :=
  Z.abs a <= 2 ^ 53 ∧ Z.abs b <= 2 ^ 53 ∧ Z.abs (b - a) <= 2 ^ 53.

Lemma safe_within (a b : Z) : Number.safe a → Number.safe b → within a b.
Proof. unfold Number.safe, within. lia. Qed.

Lemma pathLoop_spec (b : Board) (sx sy toX toY : Z) :
  sx ≠ 0 ∨ sy ≠ 0 →
  ∀ (j : nat) (fuel : nat), (j < fuel)%nat →
  (∀ i : Z, 0 <= i <= Z.of_nat j →
            Z.abs (toX - i * sx) <= 2 ^ 53 ∧ Z.abs (toY - i * sy) <= 2 ^ 53) →
  ∃ r, pathLoop fuel sx sy (toX - Z.of_nat j * sx) (toY - Z.of_nat j * sy) toX toY b = Ok r
       ∧ (r = true ↔ ∀ i : Z, 0 < i <= Z.of_nat j → b !! (toX - i * sx, toY - i * sy) = None).
Proof.
  intros Hs j. induction j as [|j IH]; intros fuel Hf Hin.
  - destruct fuel as [|fuel]; [lia|]. simpl.
    replace (toX - Z.of_nat 0 * sx) with toX by lia.
    replace (toY - Z.of_nat 0 * sy) with toY by lia.
    rewrite !Z.eqb_refl. simpl. exists true. split; [done|].
    split; [intros _ i Hi; lia | done].
  - destruct fuel as [|fuel]; [lia|]. simpl pathLoop.
    assert (Hne : negb (toX - Z.of_nat (S j) * sx =? toX) || negb (toY - Z.of_nat (S j) * sy =? toY) = true).
    { apply orb_true_iff. destruct Hs as [Hx|Hy]; [left|right];
        apply negb_true_iff, Z.eqb_neq; nia. }
    rewrite Hne.
    destruct (decide (is_Some (b !! (toX - Z.of_nat (S j) * sx, toY - Z.of_nat (S j) * sy)))) as [Hocc|Hfree].
    + exists false. split; [done|]. split; [done|].
      intros Hall. specialize (Hall (Z.of_nat (S j)) ltac:(lia)).
      rewrite Hall in Hocc. by destruct Hocc.
    + destruct (Hin (Z.of_nat j) ltac:(lia)) as [HjX HjY].
      replace (toX - Z.of_nat (S j) * sx + sx) with (toX - Z.of_nat j * sx) in * by lia.
      replace (toY - Z.of_nat (S j) * sy + sy) with (toY - Z.of_nat j * sy) in * by lia.
      unfold Number.add.
      replace (toX - Z.of_nat (S j) * sx + sx) with (toX - Z.of_nat j * sx) by lia.
      replace (toY - Z.of_nat (S j) * sy + sy) with (toY - Z.of_nat j * sy) by lia.
      rewrite !NumberFacts.round_exact by done.
      destruct (IH fuel ltac:(lia) ltac:(intros i Hi; apply Hin; lia)) as (r & Hr & Hiff).
      exists r. split; [done|]. rewrite Hiff. split.
      * intros Hall i Hi. destruct (decide (i = Z.of_nat (S j))) as [->|Hni].
        -- by apply eq_None_not_Some.
        -- apply Hall. lia.
      * intros Hall i Hi. apply Hall. lia.
Qed.

Lemma aligned_destination (fromX fromY toX toY : Z) :
  aligned (toX - fromX) (toY - fromY) →
  cellAt fromX fromY toX toY (span fromX fromY toX toY) = (toX, toY).
Proof.
  unfold aligned, cellAt, span. intros H. f_equal; lia.
Qed.

(** The loop of an aligned, non-zero move returns, and reports whether the
    cells strictly between source and destination are all empty. *)
Lemma pathLoop_aligned (b : Board) (fuel : nat) (fromX fromY toX toY : Z) :
  let dx := toX - fromX in
  let dy := toY - fromY in
  within fromX toX → within fromY toY →
  aligned dx dy → (dx ≠ 0 ∨ dy ≠ 0) →
  (Z.to_nat (span fromX fromY toX toY) <= fuel)%nat →
  ∃ r, pathLoop fuel (Z.sgn dx) (Z.sgn dy) (Number.add fromX (Z.sgn dx))
         (Number.add fromY (Z.sgn dy)) toX toY b = Ok r
       ∧ (r = true ↔ pathClear b fromX fromY toX toY).
Proof.
  intros dx dy HwX HwY Hal Hnz Hfuel.
  set (n := span fromX fromY toX toY) in *.
  assert (Hn : 1 <= n) by (unfold n, span; lia).
  assert (Hdst := aligned_destination fromX fromY toX toY Hal).
  unfold cellAt in Hdst. fold n dx dy in Hdst. injection Hdst as HdX HdY.
  unfold within in *.
  assert (Hin : ∀ i : Z, 0 <= i <= Z.of_nat (Z.to_nat (n - 1)) →
            Z.abs (toX - i * Z.sgn dx) <= 2 ^ 53
            ∧ Z.abs (toY - i * Z.sgn dy) <= 2 ^ 53).
  { intros i Hi. unfold aligned in Hal. subst dx dy n. unfold span in *. split.
    - destruct (Z.sgn_spec (toX - fromX)) as [[? ->]|[[? ->]|[? ->]]]; lia.
    - destruct (Z.sgn_spec (toY - fromY)) as [[? ->]|[[? ->]|[? ->]]]; lia. }
  destruct (pathLoop_spec b (Z.sgn dx) (Z.sgn dy) toX toY ltac:(lia)
              (Z.to_nat (n - 1)) fuel ltac:(lia) Hin) as (r & Hr & Hiff).
  exists r. split.
  - rewrite <- Hr. rewrite !NumberFacts.add_exact by lia. f_equal; lia.
  - rewrite Hiff. unfold pathClear, cellAt. fold n dx dy. split.
    + intros Hall k Hk. specialize (Hall (n - k) ltac:(lia)).
      rewrite <- Hall. f_equal. f_equal; lia.
    + intros Hall i Hi. specialize (Hall (n - i) ltac:(lia)).
      rewrite <- Hall. f_equal. f_equal; lia.
Qed.

(** Closes a goal whose premise equates two distinct piece types. *)
Ltac no_such_type :=
  let H := fresh in
  intros H; repeat (destruct H as [H|H]; [discriminate H|]); discriminate H.

Lemma destinationFree_spec (b : Board) (m : Piece) (toX toY : Z) :
  ∃ r, destinationFree (b !! (toX, toY)) (Some m) = Ok r
       ∧ (r = true ↔ captureOk b m toX toY).
Proof.
  unfold destinationFree, captureOk. destruct (b !! (toX, toY)) as [t|].
  - eexists. split; [done|]. rewrite negb_true_iff, bool_decide_eq_false. done.
  - by exists true.
Qed.

(** [validateLinearMove] on an aligned move of the piece standing on the
    source cell.  The zero move is refused by the destination test: the
    destination then holds the moving piece itself. *)
Lemma validateLinearMove_spec (b : Board) (fuel : nat) (m : Piece)
    (fromX fromY toX toY : Z) :
  let dx := toX - fromX in
  let dy := toY - fromY in
  within fromX toX → within fromY toY →
  aligned dx dy →
  b !! (fromX, fromY) = Some m →
  (Z.to_nat (span fromX fromY toX toY) < fuel)%nat →
  ∃ r, validateLinearMove fuel dx dy b fromX fromY toX toY = Ok r
       ∧ (r = true ↔ (dx ≠ 0 ∨ dy ≠ 0) ∧ pathClear b fromX fromY toX toY
                      ∧ captureOk b m toX toY).
Proof.
  intros dx dy HwX HwY Hal Hm Hfuel. unfold validateLinearMove.
  rewrite !NumberFacts.stepOf_finite by (unfold within in *; lia).
  destruct (decide (dx = 0 ∧ dy = 0)) as [[Hx Hy]|Hnz].
  - assert (toX = fromX) as -> by lia. assert (toY = fromY) as -> by lia.
    rewrite Hx, Hy. simpl Z.sgn.
    rewrite !NumberFacts.add_exact by (unfold within in *; lia).
    rewrite !Z.add_0_r.
    destruct fuel as [|fuel]; [lia|]. simpl. rewrite !Z.eqb_refl. simpl.
    rewrite Hm. simpl. rewrite bool_decide_eq_true_2 by done. simpl.
    exists false. split; [done|]. split; [done|]. intros [[?|?] _]; lia.
  - assert (Hnz' : dx ≠ 0 ∨ dy ≠ 0) by lia.
    destruct (pathLoop_aligned b fuel fromX fromY toX toY HwX HwY Hal Hnz'
                ltac:(lia)) as (r & Hr & Hiff).
    fold dx dy in Hr. rewrite Hr. simpl. destruct r.
    + rewrite Hm. destruct (destinationFree_spec b m toX toY) as (r' & Hr' & Hiff').
      exists r'. split; [done|]. rewrite Hiff'. split.
      * intros ?. split; [done|]. split; [by apply Hiff | done].
      * by intros (_ & _ & ?).
    + exists false. split; [done|]. split; [done|].
      intros (_ & Hclear & _). by apply Hiff in Hclear.
Qed.

(** What [validateMove] computes for the piece standing on the source
    cell: the pattern of its type, a clear path for the sliding types, and
    the destination test for the pawn and the sliding types.  The knight and
    king branches do not look at the destination. *)
Lemma validateMove_within (b : Board) (fuel : nat) (m : Piece)
    (fromX fromY toX toY : Z) :
  let dx := toX - fromX in
  let dy := toY - fromY in
  within fromX toX → within fromY toY →
  b !! (fromX, fromY) = Some m →
  (Z.to_nat (span fromX fromY toX toY) < fuel)%nat →
  ∃ r, validateMove fuel (Some m) fromX fromY toX toY b = Ok r
       ∧ (r = true ↔ patternRule (ptype m) dx dy
                      ∧ (slides (ptype m) → pathClear b fromX fromY toX toY)
                      ∧ (checksDestination (ptype m) → captureOk b m toX toY)).
Proof.
  intros dx dy HwX HwY Hm Hfuel. unfold validateMove.
  rewrite !NumberFacts.sub_exact by (unfold within in *; lia). fold dx dy.
  unfold slides, checksDestination, slides.
  destruct (ptype m) eqn:Ht; simpl patternRule.
  - (* pawn *)
    eexists. split; [done|]. unfold validatePawnMove.
    rewrite !NumberFacts.add_exact by (unfold within in *; lia).
    replace (fromX + dx) with toX by (unfold dx; lia).
    replace (fromY + dy) with toY by (unfold dy; lia).
    destruct (((Z.abs dx =? 1) && (Z.abs dy =? 0))
              || ((Z.abs dx =? 0) && (Z.abs dy =? 1))) eqn:Hpat.
    + assert (Z.abs dx + Z.abs dy = 1) by lia.
      unfold captureOk. destruct (b !! (toX, toY)) as [t|].
      * rewrite negb_true_iff, bool_decide_eq_false. split.
        -- intros Hc. split; [done|]. split; [no_such_type | done].
        -- intros (_ & _ & Hc). apply Hc. by left.
      * split; [|done]. intros _. split; [done|]. split; [no_such_type | done].
    + split; [done|]. intros (Hp & _). lia.
  - (* rook *)
    unfold validateRookMove.
    destruct (negb (dx =? 0) && negb (dy =? 0)) eqn:Hg.
    + exists false. split; [done|]. split; [done|]. intros (Hp & _). lia.
    + destruct (validateLinearMove_spec b fuel m fromX fromY toX toY
                  HwX HwY ltac:(unfold aligned; lia) Hm Hfuel)
        as (r & Hr & Hiff).
      fold dx dy in Hr, Hiff. exists r. split; [done|]. rewrite Hiff.
      split; [intros (? & ? & ?) | intros (? & Hc & Hd)].
      * split; [lia|]. done.
      * split; [lia|]. split; [apply Hc | apply Hd]; auto.
  - (* knight *)
    eexists. split; [done|]. unfold validateKnightMove.
    split; [intros ?; split; [lia|]|intros (? & _); lia].
    split; no_such_type.
  - (* bishop *)
    unfold validateBishopMove.
    destruct (negb (Z.abs dx =? Z.abs dy)) eqn:Hg.
    + exists false. split; [done|]. split; [done|]. intros (Hp & _). lia.
    + destruct (validateLinearMove_spec b fuel m fromX fromY toX toY
                  HwX HwY ltac:(unfold aligned; lia) Hm Hfuel)
        as (r & Hr & Hiff).
      fold dx dy in Hr, Hiff. exists r. split; [done|]. rewrite Hiff.
      split; [intros (? & ? & ?) | intros (? & Hc & Hd)].
      * split; [lia|]. done.
      * split; [lia|]. split; [apply Hc | apply Hd]; auto.
  - (* queen *)
    unfold validateQueenMove.
    destruct (negb (dx =? 0) && negb (dy =? 0) && negb (Z.abs dx =? Z.abs dy)) eqn:Hg.
    + exists false. split; [done|]. split; [done|]. intros (Hp & _). lia.
    + destruct (validateLinearMove_spec b fuel m fromX fromY toX toY
                  HwX HwY ltac:(unfold aligned; lia) Hm Hfuel)
        as (r & Hr & Hiff).
      fold dx dy in Hr, Hiff. exists r. split; [done|]. rewrite Hiff.
      split; [intros (? & ? & ?) | intros (? & Hc & Hd)].
      * split; [lia|]. done.
      * split; [lia|]. split; [apply Hc | apply Hd]; auto.
  - (* king *)
    eexists. split; [done|]. unfold validateKingMove.
    destruct (Z.abs dx <=? 1) eqn:Hax; [|split; [done|intros (? & _); lia]].
    destruct (Z.abs dy <=? 1) eqn:Hay; [|split; [done|intros (? & _); lia]].
    rewrite NumberFacts.add_exact by lia.
    split; [intros ?; split; [lia|]|intros (? & _); lia].
    split; no_such_type.
Qed.

(** The same for a move between safe coordinates. *)
Lemma validateMove_spec (b : Board) (fuel : nat) (m : Piece)
    (fromX fromY toX toY : Z) :
  let dx := toX - fromX in
  let dy := toY - fromY in
  Number.safe fromX → Number.safe fromY → Number.safe toX → Number.safe toY →
  b !! (fromX, fromY) = Some m →
  (Z.to_nat (span fromX fromY toX toY) < fuel)%nat →
  ∃ r, validateMove fuel (Some m) fromX fromY toX toY b = Ok r
       ∧ (r = true ↔ patternRule (ptype m) dx dy
                      ∧ (slides (ptype m) → pathClear b fromX fromY toX toY)
                      ∧ (checksDestination (ptype m) → captureOk b m toX toY)).
Proof.
  intros dx dy HfX HfY HtX HtY. apply validateMove_within; by apply safe_within.
Qed.

(** The legality of a move as [isMoveLegal] decides it. *)
Definition legalByRules (b : Board) (move : Move) : Prop :=
  let dx := toX move - fromX move in
  let dy := toY move - fromY move in
  ∃ piece,
    b !! (fromX move, fromY move) = Some piece
    ∧ playerId piece = Some (movePlayerId move)
    ∧ patternRule (ptype piece) dx dy
    ∧ (slides (ptype piece) →
         pathClear b (fromX move) (fromY move) (toX move) (toY move))
    ∧ (checksDestination (ptype piece) →
         captureOk b piece (toX move) (toY move)).

(** [isMoveLegal] returns on every move, its verdict is [valid] exactly for
    the moves that are [legalByRules], and an invalid verdict carries a
    reason. *)
Lemma isMoveLegal_spec (b : Board) (fuel : nat) (move : Move) :
  Number.safe (fromX move) → Number.safe (fromY move) →
  Number.safe (toX move) → Number.safe (toY move) →
  (Z.to_nat (span (fromX move) (fromY move) (toX move) (toY move)) < fuel)%nat →
  ∃ v, isMoveLegal fuel move b = Ok v
       ∧ (valid v = true ↔ legalByRules b move)
       ∧ (valid v = false → is_Some (reason v)).
Proof.
  intros HfX HfY HtX HtY Hfuel. unfold isMoveLegal, legalByRules.
  destruct (b !! (fromX move, fromY move)) as [piece|] eqn:Hpiece.
  - unfold isValidPosition.
    destruct (bool_decide (playerId piece = Some (movePlayerId move))) eqn:Hown;
      cbn [negb].
    + apply bool_decide_eq_true in Hown.
      destruct (validateMove_spec b fuel piece _ _ _ _ HfX HfY HtX HtY Hpiece Hfuel)
        as (r & Hr & Hiff).
      rewrite Hr. simpl. destruct r; simpl.
      * eexists. split; [done|]. split; [|done]. split; [|done].
        intros _. exists piece. split; [done|]. split; [done|]. by apply Hiff.
      * eexists. split; [done|]. split; [|by eauto]. split; [done|].
        intros (piece' & [= <-] & _ & Hrule). by apply Hiff in Hrule.
    + apply bool_decide_eq_false in Hown.
      eexists. split; [done|]. split; [|by eauto]. split; [done|].
      by intros (piece' & [= <-] & Hp & _).
  - eexists. split; [done|]. split; [|by eauto]. split; [done|].
    by intros (piece' & ? & _).
Qed.

End Rules.

(** * Properties of the server *)

Module Engine.
Import Server.

(** ** Example data *)

(** The points of the first revolution of the spiral for
    [minDistance = 25]: [angle] is [k * Math.PI / 8], and the rounded
    products [25 * cos] and [25 * sin] are far from a half-integer.  The
    list stops at the point the second player of the examples receives. *)
Definition firstRevolution : list (Z * Z) :=
  [ (25, 0); (23, 10); (18, 18); (10, 23); (0, 25); (-10, 23); (-18, 18);
    (-23, 10); (-25, 0); (-23, -10); (-18, -18); (-10, -23); (0, -25) ].

Definition spiral25 (minDistance : Z) (attempts : nat) : Z * Z :=
  nth attempts firstRevolution (0, -25).

(** The examples never exhaust the spiral. *)
Definition unusedFallback (minDistance : Z) (existing : list (Z * Z)) : Z * Z :=
  (0, 0).

Definition exampleHandle (st : State) (c : Command) : State * Emitted :=
  effect st (handle spiral25 unusedFallback st c).

(** Alice joins the empty game. *)
Definition oneJoined : State :=
  (exampleHandle initialState (join_game "s1" "Alice" "uuid-1" 1000)).1.

Definition alice : Player :=
  {| id := "uuid-1"; socketId := "s1"; name := "Alice"; color := "#FF0000";
     colorIndex := 0; isActive := true; joinedAt := 1000 |}.

(** Bob joins after Alice. *)
Definition twoJoined : State :=
  (exampleHandle oneJoined (join_game "s2" "Bob" "uuid-2" 2000)).1.

(** ** Stored positions *)

(** Every stored piece carries, in its [x] and [y] fields, the coordinates
    of the key it is stored under. *)
Definition keyedByPosition (b : Board) : Prop :=
  ∀ k p, b !! k = Some p → (px p, py p) = k.

Lemma keyedByPosition_empty : keyedByPosition ∅.
Proof. intros k p H. by rewrite lookup_empty in H. Qed.

Lemma keyedByPosition_insert (b : Board) (p : Piece) :
  keyedByPosition b → keyedByPosition (<[(px p, py p) := p]> b).
Proof.
  intros Hb k q. rewrite lookup_insert. case_decide as Hk.
  - intros [= <-]. done.
  - apply Hb.
Qed.

Lemma keyedByPosition_delete (b : Board) (k : Z * Z) :
  keyedByPosition b → keyedByPosition (delete k b).
Proof.
  intros Hb k' q Hq. apply Hb. by apply lookup_delete_Some in Hq as [_ ?].
Qed.

Lemma keyedByPosition_placePieces (pieces : list Piece) (b : Board) :
  keyedByPosition b → keyedByPosition (placePieces pieces b).
Proof.
  revert b. unfold placePieces.
  induction pieces as [|p pieces IH]; intros b Hb; simpl; [done|].
  apply IH. by apply keyedByPosition_insert.
Qed.

Lemma keyedByPosition_move (b : Board) (piece : Piece) (fromX fromY toX toY : Z) :
  keyedByPosition b →
  keyedByPosition (<[(toX, toY) := setXY piece toX toY]> (delete (fromX, fromY) b)).
Proof.
  intros Hb. apply (keyedByPosition_insert _ (setXY piece toX toY)).
  by apply keyedByPosition_delete.
Qed.

(** ** Section queries *)

Definition inBounds (bounds : Bounds) (x y : Z) : Prop :=
  minX bounds <= x <= maxX bounds ∧ minY bounds <= y <= maxY bounds.

(** The piece has an owner and that owner is in the registry. *)
Definition activeOwner (ps : gmap PlayerId Player) (piece : Piece) : Prop :=
  ∃ pid, playerId piece = Some pid ∧ is_Some (ps !! pid).

Lemma ownedByActive_spec (ps : gmap PlayerId Player) (piece : Piece) :
  ownedByActive ps piece = true ↔ activeOwner ps piece.
Proof.
  unfold ownedByActive, activeOwner. destruct (playerId piece) as [pid|].
  - rewrite bool_decide_eq_true. split; [by eauto|]. by intros (? & [= <-] & ?).
  - split; [done|]. by intros (? & ? & _).
Qed.

(** The pieces the two loops push when every [x++] and [y++] is exact: a
    scan of the rectangle, column by column. *)
Definition rectanglePieces (ps : gmap PlayerId Player) (b : Board)
    (bounds : Bounds) : list Piece :=
  x ← seqZ (minX bounds) (maxX bounds - minX bounds + 1);
  y ← seqZ (minY bounds) (maxY bounds - minY bounds + 1);
  pushed ps b x y.

(** The bounds on which the loop counters are exact. *)
Definition inRange (bounds : Bounds) : Prop :=
  - 2 ^ 53 <= minX bounds ∧ maxX bounds < 2 ^ 53
  ∧ - 2 ^ 53 <= minY bounds ∧ maxY bounds < 2 ^ 53.

Lemma elem_of_pushed (ps : gmap PlayerId Player) (b : Board) (x y : Z) (q : Piece) :
  q ∈ pushed ps b x y ↔
  ∃ p, b !! (x, y) = Some p ∧ activeOwner ps p ∧ q = setXY p x y.
Proof.
  unfold pushed. destruct (b !! (x, y)) as [p|] eqn:Hp.
  - destruct (ownedByActive ps p) eqn:Hact.
    + rewrite list_elem_of_singleton. split.
      * intros ->. exists p. split; [done|]. split; [by apply ownedByActive_spec|done].
      * by intros (p' & [= <-] & _ & ->).
    + split; [by intros ?%elem_of_nil|]. intros (p' & [= <-] & Ha & _).
      apply ownedByActive_spec in Ha. congruence.
  - split; [by intros ?%elem_of_nil|]. by intros (p' & ? & _).
Qed.

Lemma elem_of_rectanglePieces (ps : gmap PlayerId Player) (b : Board)
    (bounds : Bounds) (q : Piece) :
  q ∈ rectanglePieces ps b bounds ↔
  ∃ x y p, inBounds bounds x y ∧ b !! (x, y) = Some p ∧ activeOwner ps p
           ∧ q = setXY p x y.
Proof.
  unfold rectanglePieces, inBounds. rewrite list_elem_of_bind. split.
  - intros (x & Hq & Hx). apply list_elem_of_bind in Hq as (y & Hq & Hy).
    apply elem_of_seqZ in Hx, Hy.
    apply elem_of_pushed in Hq as (p & Hp & Hact & ->). exists x, y, p.
    split; [lia|]. done.
  - intros (x & y & p & Hb & Hp & Hact & ->). exists x.
    split; [|apply elem_of_seqZ; lia].
    apply list_elem_of_bind. exists y. split; [|apply elem_of_seqZ; lia].
    apply elem_of_pushed. by exists p.
Qed.

Lemma NoDup_rectanglePieces (ps : gmap PlayerId Player) (b : Board) (bounds : Bounds) :
  NoDup (rectanglePieces ps b bounds).
Proof.
  unfold rectanglePieces.
  assert (Hcell : ∀ x y q, q ∈ pushed ps b x y → px q = x ∧ py q = y).
  { intros x y q Hq. apply elem_of_pushed in Hq as (p & _ & _ & ->). done. }
  apply NoDup_bind; [| |apply NoDup_seqZ].
  - intros x1 x2 q _ _ H1 H2.
    apply list_elem_of_bind in H1 as (y1 & H1 & _).
    apply list_elem_of_bind in H2 as (y2 & H2 & _).
    apply Hcell in H1 as [<- _]. by apply Hcell in H2 as [<- _].
  - intros x _. apply NoDup_bind; [| |apply NoDup_seqZ].
    + intros y1 y2 q _ _ H1 H2.
      apply Hcell in H1 as [_ <-]. by apply Hcell in H2 as [_ <-].
    + intros y _. unfold pushed. destruct (b !! (x, y)) as [p|]; [|constructor].
      destruct (ownedByActive ps p); [apply NoDup_singleton|constructor].
Qed.

(** A loop whose counter stays below [2 ^ 53] ends, with the pieces of its
    bodies in order. *)
Lemma forUpTo_exact (body : Z → option (list Piece)) (f : Z → list Piece)
    (hi : Z) (fuel : nat) (v : Z) :
  (∀ x, body x = Some (f x)) →
  - 2 ^ 53 <= v → hi < 2 ^ 53 →
  (Z.to_nat (hi - v + 1) ≤ fuel)%nat →
  forUpTo fuel v hi body = Some (x ← seqZ v (hi - v + 1); f x).
Proof.
  intros Hbody. revert v. induction fuel as [|fuel IH]; intros v Hlo Hhi Hfuel.
  - cbn [forUpTo]. rewrite (proj2 (Z.ltb_lt hi v)) by lia.
    by rewrite seqZ_nil by lia.
  - cbn [forUpTo]. destruct (hi <? v) eqn:Hend.
    { apply Z.ltb_lt in Hend. by rewrite seqZ_nil by lia. }
    apply Z.ltb_ge in Hend.
    rewrite NumberFacts.add_exact by lia.
    rewrite (proj2 (Z.leb_gt (v + 1) v)) by lia.
    rewrite Hbody. rewrite (IH (v + 1)) by lia. cbn.
    rewrite (seqZ_cons v (hi - v + 1)) by lia. cbn.
    replace (Z.succ v) with (v + 1) by lia.
    by replace (Z.pred (hi - v + 1)) with (hi - (v + 1) + 1) by lia.
Qed.


(** More fuel than [hi - lo + 1] changes nothing: a loop that has not ended
    by then never ends. *)
Lemma forUpTo_enough (body : Z → option (list Piece)) (hi : Z) (f1 f2 : nat) (v : Z) :
  (Z.to_nat (hi - v + 1) ≤ f1)%nat → (Z.to_nat (hi - v + 1) ≤ f2)%nat →
  forUpTo f1 v hi body = forUpTo f2 v hi body.
Proof.
  revert f2 v. induction f1 as [|f1 IH]; intros f2 v H1 H2.
  - destruct f2; cbn [forUpTo]; [done|].
    by rewrite (proj2 (Z.ltb_lt hi v)) by lia.
  - destruct f2 as [|f2]; cbn [forUpTo].
    { by rewrite (proj2 (Z.ltb_lt hi v)) by lia. }
    destruct (hi <? v) eqn:Hend; [done|]. apply Z.ltb_ge in Hend.
    destruct (Number.add v 1 <=? v) eqn:Hstep; [done|]. apply Z.leb_gt in Hstep.
    by rewrite (IH f2 (Number.add v 1)) by lia.
Qed.

(** Within [inRange] the handler's loops end and push the pieces of the
    rectangle. *)
Lemma sectionPieces_exact (ps : gmap PlayerId Player) (b : Board) (bounds : Bounds) :
  inRange bounds → sectionPieces ps b bounds = Some (rectanglePieces ps b bounds).
Proof.
  intros (HxL & HxH & HyL & HyH). unfold sectionPieces, rectanglePieces.
  apply (forUpTo_exact _ (λ x, y ← seqZ (minY bounds) (maxY bounds - minY bounds + 1);
                               pushed ps b x y)); [|done..].
  intros x. by apply (forUpTo_exact _ (λ y, pushed ps b x y)).
Qed.




(** ** Moves *)

(** The source cell holds a piece of this player. *)
Definition ownsSource (st : State) (player : Player) (fromX fromY : Z) : Prop :=
  ∃ piece, board st !! (fromX, fromY) = Some piece
           ∧ playerId piece = Some (id player).

(** The handler moved the piece and broadcast [piece-moved]. *)
Definition moveApplied (st : State) (sock : SocketId) (fromX fromY toX toY : Z)
    : Prop :=
  ∃ player piece,
    playerOf st sock = Some player
    ∧ board st !! (fromX, fromY) = Some piece
    ∧ on_move_piece st sock fromX fromY toX toY
      = ({| players := players st;
            board := <[(toX, toY) := setXY piece toX toY]>
                       (delete (fromX, fromY) (board st));
            nextPlayerIndex := nextPlayerIndex st;
            socketPlayerId := socketPlayerId st |},
         [(ToAll, piece_moved (id player) fromX fromY toX toY
                    (setXY piece toX toY))]).

(** The handler left the state alone and answered [invalid-move]. *)
Definition moveRefused (st : State) (sock : SocketId) (fromX fromY toX toY : Z)
    : Prop :=
  on_move_piece st sock fromX fromY toX toY
  = (st, [(ToSocket sock, invalid_move "Not your piece")]).

Lemma on_move_piece_owned (st : State) sock fromX fromY toX toY player piece :
  playerOf st sock = Some player →
  board st !! (fromX, fromY) = Some piece →
  playerId piece = Some (id player) →
  on_move_piece st sock fromX fromY toX toY
  = ({| players := players st;
        board := <[(toX, toY) := setXY piece toX toY]>
                   (delete (fromX, fromY) (board st));
        nextPlayerIndex := nextPlayerIndex st;
        socketPlayerId := socketPlayerId st |},
     [(ToAll, piece_moved (id player) fromX fromY toX toY (setXY piece toX toY))]).
Proof.
  intros Hpl Hp Hown. unfold on_move_piece. rewrite Hpl, Hp.
  by rewrite bool_decide_eq_true_2.
Qed.

Lemma on_move_piece_not_owned (st : State) sock fromX fromY toX toY player :
  playerOf st sock = Some player →
  ¬ ownsSource st player fromX fromY →
  moveRefused st sock fromX fromY toX toY.
Proof.
  intros Hpl Hno. unfold moveRefused, on_move_piece. rewrite Hpl.
  destruct (board st !! (fromX, fromY)) as [piece|] eqn:Hp; [|done].
  case_bool_decide as Hown; [|done]. destruct Hno. by exists piece.
Qed.


Lemma ownsSource_dec (st : State) (player : Player) (fromX fromY : Z) :
  ownsSource st player fromX fromY ∨ ¬ ownsSource st player fromX fromY.
Proof.
  unfold ownsSource. destruct (board st !! (fromX, fromY)) as [piece|].
  - destruct (decide (playerId piece = Some (id player))) as [Hown|Hown].
    + left. by exists piece.
    + right. by intros (? & [= <-] & ?).
  - right. by intros (? & ? & _).
Qed.

Lemma effect_returned (st : State) (r : State * Emitted) :
  effect st (returned r) = r.
Proof. by destruct r. Qed.

Lemma effect_move_undefined (st : State) (sock : SocketId) :
  effect st (on_move_piece_undefined st sock) = (st, []).
Proof. unfold on_move_piece_undefined. by destruct (playerOf st sock). Qed.

Lemma effect_query (st : State) (sock : SocketId) (bounds : Bounds) :
  (effect st (on_get_board_section st sock bounds)).1 = st.
Proof. unfold on_get_board_section. by destruct (sectionPieces _ _ _). Qed.

(** Splits a goal about [effect st (handle st c)] by command; the commands
    that leave the state alone are closed by [done]. *)
Ltac by_command c :=
  destruct c as [?sock ?nm ?uuid ?now|?sock ?fX ?fY ?tX ?tY|?sock|?sock ?bounds
                |?sock|?sock ?now];
  cbn [handle];
  rewrite ?effect_returned, ?effect_move_undefined, ?effect_query;
  cbn [effect fst snd].

Section WithSpiral.
Variable spiralPoint : Z -> nat -> Z * Z.
Variable fallbackPosition : Z -> list (Z * Z) -> Z * Z.

Abbreviation handle' := (handle spiralPoint fallbackPosition).
Abbreviation reachable' := (reachable spiralPoint fallbackPosition).

Abbreviation on_join_game' := (on_join_game spiralPoint fallbackPosition).
Abbreviation findSpawnPosition' := (findSpawnPosition spiralPoint fallbackPosition).

Lemma on_join_game_full (st : State) sock playerName uuid now :
  (MAX_PLAYERS ≤ size (players st))%nat →
  on_join_game' st sock playerName uuid now = (st, [(ToSocket sock, game_full)]).
Proof. intros H. unfold on_join_game. by rewrite decide_True. Qed.

(** The state a join below capacity produces. *)
Lemma on_join_game_state (st : State) sock playerName uuid now :
  ¬ (MAX_PLAYERS ≤ size (players st))%nat →
  let anchor := findSpawnPosition' 25 (board st) in
  let playerColor := colorAt (nextPlayerIndex st) in
  ∃ player,
    (on_join_game' st sock playerName uuid now).1 =
      {| players := <[uuid := player]> (players st);
         board := placePieces (startingPieces anchor.1 anchor.2 playerColor uuid)
                    (board st);
         nextPlayerIndex := S (nextPlayerIndex st);
         socketPlayerId := <[sock := uuid]> (socketPlayerId st) |}
    ∧ id player = uuid.
Proof.
  intros H. unfold on_join_game. rewrite decide_False by done.
  unfold spawnPlayerPieces.
  destruct (findSpawnPosition _ _ _ _) as [x y]. eexists. split; reflexivity.
Qed.

Lemma keyedByPosition_handle (st : State) (c : Command) :
  keyedByPosition (board st) →
  keyedByPosition (board (effect st (handle' st c)).1).
Proof.
  intros Hst. by_command c; [| |done|done|done|].
  - destruct (decide (MAX_PLAYERS ≤ size (players st))%nat) as [Hfull|Hroom].
    + by rewrite on_join_game_full.
    + destruct (on_join_game_state st sock nm uuid now Hroom) as (pl & -> & _).
      by apply keyedByPosition_placePieces.
  - unfold on_move_piece. destruct (playerOf st sock); [|done].
    destruct (board st !! (fX, fY)) as [piece|]; [|done].
    case_bool_decide; [|done]. simpl. by apply keyedByPosition_move.
  - unfold on_disconnect. destruct (socketPlayerId st !! sock) as [pid|]; [|done].
    by destruct (players st !! pid).
Qed.

Lemma reachable_keyedByPosition (st : State) :
  reachable' st → keyedByPosition (board st).
Proof.
  induction 1 as [|st c st' out _ IH Hret].
  - apply keyedByPosition_empty.
  - pose proof (keyedByPosition_handle st c IH) as Hkey. by rewrite Hret in Hkey.
Qed.


(** Every run of commands from a reachable state ends in a reachable state. *)
Lemma run_reachable (st : State) (cs : list Command) :
  reachable' st → reachable' (run spiralPoint fallbackPosition st cs).
Proof.
  revert st. induction cs as [|c cs IH]; intros st Hst; [done|].
  cbn [run]. destruct (handle _ _ st c) as [st' out| |] eqn:Hret; [|done..].
  apply IH. by apply (reachable_step _ _ st c st' out).
Qed.

(** ** Occupancy *)

(** C4.  In every state reachable from the initial empty board by join,
    move, section-query and disconnect commands, no two pieces occupy
    the same coordinate: two board entries that have the same key, or
    whose pieces carry the same position, are one and the same entry. *)
Theorem one_piece_per_coordinate (st : State) (k1 k2 : Z * Z) (p1 p2 : Piece) :
  reachable' st →
  board st !! k1 = Some p1 →
  board st !! k2 = Some p2 →
  k1 = k2 ∨ (px p1, py p1) = (px p2, py p2) →
  k1 = k2 ∧ p1 = p2.
Proof.
  intros Hr H1 H2 Hsame.
  assert (Hk : k1 = k2).
  { destruct Hsame as [?|Hpos]; [done|].
    apply reachable_keyedByPosition in Hr.
    rewrite <- (Hr _ _ H1), <- (Hr _ _ H2). done. }
  split; [done|]. subst k2. congruence.
Qed.

(** C9 (as amended).  A stored piece does carry [x] and [y] fields, and
    in every reachable state they are the coordinates of the key the
    piece is stored under. *)
Theorem stored_position_is_key (st : State) (x y : Z) (p : Piece) :
  reachable' st →
  board st !! (x, y) = Some p →
  px p = x ∧ py p = y.
Proof.
  intros Hr Hp. apply reachable_keyedByPosition in Hr.
  specialize (Hr _ _ Hp). by injection Hr.
Qed.

(** ** Disconnect *)

(** C10 (as amended).  A disconnect never changes the board: every piece
    stays at its coordinate with its [playerId].  Of the registered
    players it removes the one whose id is bound to the disconnecting
    socket, and announces it to the other connections; every other
    registered player stays, also one that joined on this socket before
    the socket joined again. *)
Theorem disconnect_keeps_pieces (st : State) (sock : SocketId) (now : Z) :
  let st' := (on_disconnect st sock now).1 in
  board st' = board st
  ∧ (∀ k p, board st !! k = Some p → board st' !! k = Some p)
  ∧ ∀ pid player,
      players st !! pid = Some player →
      (socketPlayerId st !! sock = Some pid →
         players st' = delete pid (players st)
         ∧ players st' !! pid = None
         ∧ (on_disconnect st sock now).2 = [(ToOthers sock, player_left pid)])
      ∧ (socketPlayerId st !! sock ≠ Some pid → players st' !! pid = Some player).
Proof.
  cbv zeta. unfold on_disconnect.
  destruct (socketPlayerId st !! sock) as [bound|] eqn:Hs.
  - destruct (players st !! bound) as [leaving|] eqn:Hl; cbn [fst snd players board].
    + split; [done|]. split; [done|]. intros pid player Hp. split.
      * intros [= <-]. split; [done|]. split; [apply lookup_delete_eq|done].
      * intros Hne. rewrite lookup_delete_ne; [done|]. by intros ->.
    + split; [done|]. split; [done|]. intros pid player Hp. split; [|done].
      intros [= <-]. congruence.
  - cbn [fst snd]. split; [done|]. split; [done|]. intros pid player Hp.
    split; [done|]. done.
Qed.

(** ** Capacity *)

(** C7.  A join that arrives while [MAX_PLAYERS] players are registered
    is answered with [game-full] and changes nothing.  A join that
    arrives below capacity, with the fresh id [uuidv4()] returns, adds
    exactly one player to the registry and leaves the others as they
    were. *)
Theorem join_respects_capacity (st : State) (sock : SocketId)
    (playerName : string) (uuid : PlayerId) (now : Z) :
  MAX_PLAYERS = 100%nat
  ∧ ((MAX_PLAYERS ≤ size (players st))%nat →
       on_join_game' st sock playerName uuid now
       = (st, [(ToSocket sock, game_full)]))
  ∧ ((size (players st) < MAX_PLAYERS)%nat →
       players st !! uuid = None →
       let st' := (on_join_game' st sock playerName uuid now).1 in
       ∃ player,
         players st' = <[uuid := player]> (players st)
         ∧ id player = uuid
         ∧ size (players st') = S (size (players st))
         ∧ (∀ pid, pid ≠ uuid → players st' !! pid = players st !! pid)).
Proof.
  split; [done|]. split; [apply on_join_game_full|].
  intros Hroom Hfresh.
  destruct (on_join_game_state st sock playerName uuid now ltac:(lia))
    as (pl & Hst & Hid).
  cbv zeta. rewrite Hst. cbn [players]. exists pl.
  split; [done|]. split; [done|].
  split; [by apply map_size_insert_None|].
  intros pid Hne. by apply lookup_insert_ne.
Qed.

End WithSpiral.

Lemma oneJoined_reachable : reachable spiral25 unusedFallback oneJoined.
Proof.
  eapply (reachable_step _ _ initialState (join_game "s1" "Alice" "uuid-1" 1000));
    [apply reachable_init|reflexivity].
Qed.

Lemma twoJoined_reachable : reachable spiral25 unusedFallback twoJoined.
Proof.
  eapply (reachable_step _ _ oneJoined (join_game "s2" "Bob" "uuid-2" 2000));
    [apply oneJoined_reachable|reflexivity].
Qed.



Lemma one_piece_per_coordinate_witness :
  let q := mkPiece queen 0 0 "#FF0000" (Some "uuid-1"%string) in
  reachable spiral25 unusedFallback oneJoined
  ∧ board oneJoined !! (0, 0) = Some q
  ∧ ((0, 0) = ((0, 0) : Z * Z) ∧ q = q).
Proof.
  intros q.
  assert (Hq : board oneJoined !! (0, 0) = Some q) by (vm_compute; reflexivity).
  split; [exact oneJoined_reachable|]. split; [exact Hq|].
  exact (one_piece_per_coordinate spiral25 unusedFallback oneJoined (0, 0) (0, 0) q q
           oneJoined_reachable Hq Hq (or_introl eq_refl)).
Defined.

Lemma stored_position_is_key_witness :
  let k := mkPiece king 1 0 "#FF0000" (Some "uuid-1"%string) in
  reachable spiral25 unusedFallback oneJoined
  ∧ board oneJoined !! (1, 0) = Some k
  ∧ (px k = 1 ∧ py k = 0).
Proof.
  intros k.
  assert (Hk : board oneJoined !! (1, 0) = Some k) by (vm_compute; reflexivity).
  split; [exact oneJoined_reachable|]. split; [exact Hk|].
  exact (stored_position_is_key spiral25 unusedFallback oneJoined 1 0 k
           oneJoined_reachable Hk).
Defined.

(** C9, as stated, fails: the piece object has [x] and [y] fields, and the
    move handler rewrites them.  Alice's pawn on (0,1) and the object the
    handler stores on (0,2) after the move differ, in the [y] field only. *)
Lemma stored_piece_carries_position :
  let moved := (on_move_piece oneJoined "s1" 0 1 0 2).1 in
  board oneJoined !! (0, 1) = Some (mkPiece pawn 0 1 "#FF0000" (Some "uuid-1"%string))
  ∧ board moved !! (0, 2) = Some (mkPiece pawn 0 2 "#FF0000" (Some "uuid-1"%string))
  ∧ board oneJoined !! (0, 1) ≠ board moved !! (0, 2).
Proof.
  assert (H1 : board oneJoined !! (0, 1)
               = Some (mkPiece pawn 0 1 "#FF0000" (Some "uuid-1"%string)))
    by (vm_compute; reflexivity).
  assert (H2 : board (on_move_piece oneJoined "s1" 0 1 0 2).1 !! (0, 2)
               = Some (mkPiece pawn 0 2 "#FF0000" (Some "uuid-1"%string)))
    by (vm_compute; reflexivity).
  cbv zeta. split; [exact H1|]. split; [exact H2|].
  rewrite H1, H2. discriminate.
Qed.

Lemma disconnect_keeps_pieces_witness :
  let st' := (on_disconnect oneJoined "s1" 5000).1 in
  socketPlayerId oneJoined !! ("s1" : SocketId) = Some ("uuid-1" : PlayerId)
  ∧ is_Some (players oneJoined !! ("uuid-1" : PlayerId))
  ∧ players st' !! ("uuid-1" : PlayerId) = None
  ∧ board st' = board oneJoined.
Proof.
  assert (Hs : socketPlayerId oneJoined !! ("s1" : SocketId) = Some ("uuid-1" : PlayerId))
    by (vm_compute; reflexivity).
  destruct (players oneJoined !! ("uuid-1" : PlayerId)) as [pl|] eqn:Hp;
    [|vm_compute in Hp; discriminate Hp].
  pose proof (disconnect_keeps_pieces oneJoined "s1" 5000) as (Hboard & _ & Hreg).
  destruct (Hreg "uuid-1"%string pl Hp) as (Hbound & _).
  destruct (Hbound Hs) as (_ & Hgone & _).
  cbv zeta. split; [exact Hs|]. split; [by eexists|]. split; [exact Hgone|exact Hboard].
Defined.

(** C10, as stated, fails for a player whose socket has joined again.
    Alice joins on socket s1, the same socket joins a second time as
    Carol, and the socket disconnects: Carol is removed, and Alice, who had
    joined and whose connection is gone, stays registered. *)
Definition rejoinedThenLeft : State :=
  (exampleHandle
     (exampleHandle oneJoined (join_game "s1" "Carol" "uuid-3" 3000)).1
     (disconnect "s1" 4000)).1.

Lemma rejoined_player_survives_disconnect :
  (socketId <$> players oneJoined !! ("uuid-1" : PlayerId)) = Some ("s1" : SocketId)
  ∧ players rejoinedThenLeft !! ("uuid-3" : PlayerId) = None
  ∧ players rejoinedThenLeft !! ("uuid-1" : PlayerId) = Some alice.
Proof. vm_compute. done. Qed.

Lemma oneJoined_alice : playerOf oneJoined "s1" = Some alice.
Proof. vm_compute. reflexivity. Qed.

(** A registry at capacity. *)
Definition fullHouse : State :=
  {| players :=
       list_to_map
         ((λ i : nat, let s := pretty i in
                      (s, mkPlayer s s s "#FF0000" i true 0)) <$> seq 0 100);
     board := ∅; nextPlayerIndex := 100; socketPlayerId := ∅ |}.

Lemma join_respects_capacity_witness :
  ((MAX_PLAYERS ≤ size (players fullHouse))%nat
   ∧ on_join_game spiral25 unusedFallback fullHouse "s" "Zoe" "uuid-z" 1
     = (fullHouse, [(ToSocket "s", game_full)]))
  ∧ ((size (players oneJoined) < MAX_PLAYERS)%nat
     ∧ players oneJoined !! ("uuid-2" : PlayerId) = None
     ∧ size (players twoJoined) = S (size (players oneJoined))).
Proof.
  assert (Hfull : (MAX_PLAYERS ≤ size (players fullHouse))%nat)
    by (apply Nat.leb_le; vm_compute; reflexivity).
  assert (Hroom : (size (players oneJoined) < MAX_PLAYERS)%nat)
    by (apply Nat.ltb_lt; vm_compute; reflexivity).
  assert (Hfresh : players oneJoined !! ("uuid-2" : PlayerId) = None)
    by (vm_compute; reflexivity).
  split.
  - split; [exact Hfull|].
    exact (proj1 (proj2 (join_respects_capacity spiral25 unusedFallback fullHouse
                           "s" "Zoe" "uuid-z" 1)) Hfull).
  - split; [exact Hroom|]. split; [exact Hfresh|].
    destruct (proj2 (proj2 (join_respects_capacity spiral25 unusedFallback oneJoined
                              "s2" "Bob" "uuid-2" 2000)) Hroom Hfresh)
      as (pl & _ & _ & Hsize & _).
    exact Hsize.
Defined.

(** ** Rejected commands *)

(** The commands the handlers refuse: a join at capacity, a move from a
    connection without a registered player, with or without payload, and a
    move of a registered player whose source cell does not hold a piece of
    the player. *)
Definition rejected (st : State) (c : Command) : Prop :=
  match c with
  | join_game _ _ _ _ => (MAX_PLAYERS ≤ size (players st))%nat
  | move_piece sock fromX fromY _ _ =>
      match playerOf st sock with
      | Some player => ¬ ownsSource st player fromX fromY
      | None => True
      end
  | move_piece_undefined sock => playerOf st sock = None
  | get_board_section _ _ => False
  | get_board_section_undefined _ => False
  | disconnect _ _ => False
  end.



(** The clause on the process is not idle: the same event without payload,
    sent by a registered player, is no rejection, and ends the process. *)
Lemma move_without_payload_ends_process :
  ¬ rejected oneJoined (move_piece_undefined "s1")
  ∧ handle spiral25 unusedFallback oneJoined (move_piece_undefined "s1") = throws.
Proof.
  split; [cbn [rejected]; by rewrite oneJoined_alice|].
  cbn [handle]. unfold on_move_piece_undefined. by rewrite oneJoined_alice.
Qed.


(** ** What the move handler checks *)

(** C1 (as amended).  For a move command of a registered player, the server
    applies the move if and only if the source cell holds a piece whose
    [playerId] is the player's id, and otherwise answers [invalid-move] and
    leaves the state unchanged; the movement rules are no part of the test.
    The rules are what [ChessGame.isMoveLegal] decides: on a move between
    coordinates of magnitude at most [2 ^ 52], where its arithmetic is
    exact, it returns, and its verdict is valid exactly when the source
    holds a piece of the player, the pattern of the piece type holds for
    [dx] and [dy], the path is clear for rook, bishop and queen, and the
    destination is empty or of another owner for pawn, rook, bishop and
    queen; an invalid verdict carries a reason. *)
Theorem move_applied_iff_own_piece (st : State) (sock : SocketId)
    (fromX fromY toX toY : Z) (player : Player) (fuel : nat) :
  playerOf st sock = Some player →
  let move := ChessGame.mkMove fromX fromY toX toY (id player) in
  (moveApplied st sock fromX fromY toX toY ↔ ownsSource st player fromX fromY)
  ∧ (¬ ownsSource st player fromX fromY → moveRefused st sock fromX fromY toX toY)
  ∧ (Number.safe fromX → Number.safe fromY → Number.safe toX → Number.safe toY →
     (Z.to_nat (Rules.span fromX fromY toX toY) < fuel)%nat →
     ∃ v, ChessGame.isMoveLegal fuel move (board st) = Ok v
          ∧ (ChessGame.valid v = true ↔ Rules.legalByRules (board st) move)
          ∧ (ChessGame.valid v = false → is_Some (ChessGame.reason v))).
Proof.
  intros Hpl move. split; [|split].
  - split.
    + intros (player' & piece & Hpl' & Hp & Happ).
      destruct (ownsSource_dec st player fromX fromY) as [Hown|Hno]; [done|].
      apply (on_move_piece_not_owned st sock fromX fromY toX toY player Hpl) in Hno.
      unfold moveRefused in Hno. rewrite Happ in Hno. discriminate Hno.
    + intros (piece & Hp & Hown). exists player, piece.
      split; [done|]. split; [done|]. by apply on_move_piece_owned.
  - by apply on_move_piece_not_owned.
  - intros HfX HfY HtX HtY Hfuel.
    by apply (Rules.isMoveLegal_spec (board st) fuel move).
Qed.

Lemma safe_small (z : Z) : Z.abs z <= 1000 → Number.safe z.
Proof. unfold Number.safe. lia. Qed.

Lemma move_applied_iff_own_piece_witness :
  playerOf oneJoined "s1" = Some alice
  ∧ (Number.safe 0 ∧ Number.safe 1 ∧ Number.safe 5 ∧ Number.safe 7)
  ∧ (Z.to_nat (Rules.span 0 1 5 7) < 10)%nat
  ∧ (moveApplied oneJoined "s1" 0 1 5 7 ↔ ownsSource oneJoined alice 0 1)
  ∧ ∃ v, ChessGame.isMoveLegal 10 (ChessGame.mkMove 0 1 5 7 (id alice))
           (board oneJoined) = Ok v
         ∧ (ChessGame.valid v = true
            ↔ Rules.legalByRules (board oneJoined)
                (ChessGame.mkMove 0 1 5 7 (id alice))).
Proof.
  assert (Hfuel : (Z.to_nat (Rules.span 0 1 5 7) < 10)%nat) by (vm_compute; lia).
  assert (H0 : Number.safe 0) by (apply safe_small; lia).
  assert (H1 : Number.safe 1) by (apply safe_small; lia).
  assert (H5 : Number.safe 5) by (apply safe_small; lia).
  assert (H7 : Number.safe 7) by (apply safe_small; lia).
  split; [exact oneJoined_alice|]. split; [done|]. split; [exact Hfuel|].
  destruct (move_applied_iff_own_piece oneJoined "s1" 0 1 5 7 alice 10
              oneJoined_alice) as (Happ & _ & Hlegal).
  split; [exact Happ|].
  destruct (Hlegal H0 H1 H5 H7 Hfuel) as (v & Hv & Hiff & _).
  exists v. split; [exact Hv|exact Hiff].
Defined.

(** The legality the specification attributes to the move command: a piece
    of the requester on the source, the pattern of its type, and a clear
    path for the sliding types. *)
Definition claimedLegal (b : Board) (move : ChessGame.Move) : Prop :=
  let dx := ChessGame.toX move - ChessGame.fromX move in
  let dy := ChessGame.toY move - ChessGame.fromY move in
  ∃ piece,
    b !! (ChessGame.fromX move, ChessGame.fromY move) = Some piece
    ∧ playerId piece = Some (ChessGame.movePlayerId move)
    ∧ Rules.patternRule (ptype piece) dx dy
    ∧ (Rules.slides (ptype piece) →
         Rules.pathClear b (ChessGame.fromX move) (ChessGame.fromY move)
           (ChessGame.toX move) (ChessGame.toY move)).

Lemma oneJoined_moveApplied (fromX fromY toX toY : Z) (piece : Piece) :
  board oneJoined !! (fromX, fromY) = Some piece →
  playerId piece = Some "uuid-1"%string →
  moveApplied oneJoined "s1" fromX fromY toX toY.
Proof.
  intros Hp Hown. exists alice, piece. split; [exact oneJoined_alice|].
  split; [exact Hp|]. apply on_move_piece_owned; [exact oneJoined_alice|done..].
Qed.

(** C1, as stated, fails: Alice's pawn on (0,1) is moved to (5,7) by the
    server, although [|dx| + |dy|] is 11. *)
Lemma far_pawn_move_applied :
  board oneJoined !! (0, 1) = Some (mkPiece pawn 0 1 "#FF0000" (Some "uuid-1"%string))
  ∧ moveApplied oneJoined "s1" 0 1 5 7
  ∧ board (on_move_piece oneJoined "s1" 0 1 5 7).1 !! (5, 7)
    = Some (mkPiece pawn 5 7 "#FF0000" (Some "uuid-1"%string))
  ∧ ¬ claimedLegal (board oneJoined) (ChessGame.mkMove 0 1 5 7 "uuid-1").
Proof.
  assert (Hp : board oneJoined !! (0, 1)
               = Some (mkPiece pawn 0 1 "#FF0000" (Some "uuid-1"%string)))
    by (vm_compute; reflexivity).
  split; [exact Hp|]. split; [by apply (oneJoined_moveApplied _ _ _ _ _ Hp)|].
  split; [vm_compute; reflexivity|].
  intros (piece & Hp' & _ & Hpat & _).
  cbn [ChessGame.fromX ChessGame.fromY] in Hp'. rewrite Hp in Hp'.
  injection Hp' as <-. cbn in Hpat. lia.
Qed.

(** ** Path blocking *)

(** C2 (as amended).  For a rook, bishop or queen standing on the source
    cell, [ChessGame.validateMove] answers false whenever a cell strictly
    between source and destination along the line of movement is occupied,
    whoever owns the occupant, and [isMoveLegal] then reports the move
    invalid; the destination is exempt: when the pattern holds and the cells
    in between are empty, the answer is decided by the destination test
    alone.  This holds for moves between coordinates of magnitude at most
    [2 ^ 52], where the arithmetic of the validator is exact.  The server's
    move handler does not call the validator. *)
Theorem blocked_slide_is_invalid (b : Board) (fuel : nat) (m : Piece)
    (fromX fromY toX toY : Z) :
  Number.safe fromX → Number.safe fromY → Number.safe toX → Number.safe toY →
  b !! (fromX, fromY) = Some m →
  Rules.slides (ptype m) →
  (Z.to_nat (Rules.span fromX fromY toX toY) < fuel)%nat →
  (∀ k, 0 < k < Rules.span fromX fromY toX toY →
        is_Some (b !! Rules.cellAt fromX fromY toX toY k) →
        ChessGame.validateMove fuel (Some m) fromX fromY toX toY b = Ok false
        ∧ ∀ pid, playerId m = Some pid →
            ChessGame.isMoveLegal fuel (ChessGame.mkMove fromX fromY toX toY pid) b
            = Ok (ChessGame.mkVerdict false (Some "Invalid move for this piece"%string)))
  ∧ (Rules.pathClear b fromX fromY toX toY →
     Rules.patternRule (ptype m) (toX - fromX) (toY - fromY) →
     ∃ r, ChessGame.validateMove fuel (Some m) fromX fromY toX toY b = Ok r
          ∧ (r = true ↔ Rules.captureOk b m toX toY)).
Proof.
  intros HfX HfY HtX HtY Hm Hslide Hfuel.
  destruct (Rules.validateMove_spec b fuel m fromX fromY toX toY HfX HfY HtX HtY
              Hm Hfuel) as (r & Hr & Hiff).
  split.
  - intros k Hk Hocc.
    assert (r = false) as ->.
    { destruct r; [|done]. destruct (proj1 Hiff eq_refl) as (_ & Hclear & _).
      rewrite (Hclear Hslide k Hk) in Hocc. by destruct Hocc. }
    split; [done|]. intros pid Hpid. unfold ChessGame.isMoveLegal.
    cbn [ChessGame.fromX ChessGame.fromY ChessGame.toX ChessGame.toY
         ChessGame.movePlayerId].
    rewrite Hm, bool_decide_eq_true_2 by done. cbn [negb].
    unfold ChessGame.isValidPosition. cbn [negb]. by rewrite Hr.
  - intros Hclear Hpat. exists r. split; [done|]. rewrite Hiff. split.
    + intros (_ & _ & Hcap). apply Hcap. right. done.
    + intros Hcap. done.
Qed.

Lemma blocked_slide_is_invalid_witness :
  let r := mkPiece rook (-3) 0 "#FF0000" (Some "uuid-1"%string) in
  (Number.safe (-3) ∧ Number.safe 0 ∧ Number.safe 5)
  ∧ board oneJoined !! (-3, 0) = Some r
  ∧ Rules.slides (ptype r)
  ∧ (Z.to_nat (Rules.span (-3) 0 (-3) 5) < 10)%nat
  ∧ (0 < 1 < Rules.span (-3) 0 (-3) 5
     ∧ is_Some (board oneJoined !! Rules.cellAt (-3) 0 (-3) 5 1)
     ∧ ChessGame.validateMove 10 (Some r) (-3) 0 (-3) 5 (board oneJoined) = Ok false).
Proof.
  intros r.
  assert (Hr : board oneJoined !! (-3, 0) = Some r) by (vm_compute; reflexivity).
  assert (Hs : Rules.slides (ptype r)) by (left; reflexivity).
  assert (Hfuel : (Z.to_nat (Rules.span (-3) 0 (-3) 5) < 10)%nat) by (vm_compute; lia).
  assert (Hk : 0 < 1 < Rules.span (-3) 0 (-3) 5) by (vm_compute; split; reflexivity).
  assert (Hocc : is_Some (board oneJoined !! Rules.cellAt (-3) 0 (-3) 5 1))
    by (vm_compute; eexists; reflexivity).
  assert (H3 : Number.safe (-3)) by (apply safe_small; lia).
  assert (H0 : Number.safe 0) by (apply safe_small; lia).
  assert (H5 : Number.safe 5) by (apply safe_small; lia).
  split; [done|].
  split; [exact Hr|]. split; [exact Hs|]. split; [exact Hfuel|].
  split; [exact Hk|]. split; [exact Hocc|].
  exact (proj1 (proj1 (blocked_slide_is_invalid (board oneJoined) 10 r (-3) 0 (-3) 5
                         H3 H0 H3 H5 Hr Hs Hfuel) 1 Hk Hocc)).
Defined.

(** C2, as stated, fails on the server: Alice's rook on (-3,0) is moved to
    (-3,5) although her pawn stands on (-3,1), a cell strictly between
    source and destination. *)
Lemma blocked_rook_move_applied :
  board oneJoined !! (-3, 0) = Some (mkPiece rook (-3) 0 "#FF0000" (Some "uuid-1"%string))
  ∧ Rules.cellAt (-3) 0 (-3) 5 1 = (-3, 1)
  ∧ 0 < 1 < Rules.span (-3) 0 (-3) 5
  ∧ is_Some (board oneJoined !! (-3, 1))
  ∧ moveApplied oneJoined "s1" (-3) 0 (-3) 5
  ∧ board (on_move_piece oneJoined "s1" (-3) 0 (-3) 5).1 !! (-3, 5)
    = Some (mkPiece rook (-3) 5 "#FF0000" (Some "uuid-1"%string)).
Proof.
  assert (Hp : board oneJoined !! (-3, 0)
               = Some (mkPiece rook (-3) 0 "#FF0000" (Some "uuid-1"%string)))
    by (vm_compute; reflexivity).
  split; [exact Hp|]. split; [reflexivity|].
  split; [vm_compute; split; reflexivity|].
  split; [vm_compute; eexists; reflexivity|].
  split; [by apply (oneJoined_moveApplied _ _ _ _ _ Hp)|].
  vm_compute. reflexivity.
Qed.

(** ** Captures and the piece count *)

Lemma size_delete_present (b : Board) (k : Z * Z) (p : Piece) :
  b !! k = Some p → size b = S (size (delete k b)).
Proof.
  intros Hp. rewrite <- (insert_id b k p Hp) at 1.
  rewrite <- insert_delete_eq. apply map_size_insert_None, lookup_delete_eq.
Qed.

Lemma size_after_move (b : Board) (from to : Z * Z) (p p' : Piece) :
  b !! from = Some p →
  size (<[to := p']> (delete from b))
  = match b !! to with
    | Some _ => if decide (to = from) then size b else pred (size b)
    | None => size b
    end.
Proof.
  intros Hp. rewrite map_size_insert, lookup_delete, (size_delete_present b from p Hp).
  destruct (decide (from = to)) as [->|Hne].
  - rewrite Hp. by rewrite decide_True.
  - destruct (b !! to); [|done]. by rewrite decide_False.
Qed.

(** C3 (as amended).  For every move the server applies, the moved piece
    stands on the destination afterwards.  If the destination was empty the
    number of pieces is unchanged.  If the destination held another piece
    (of a different owner or not) that occupant is overwritten and the number
    of pieces decreases by exactly one, every other cell keeping its content;
    the server does not refuse a destination that holds a piece of the same
    owner.  [ChessGame.validateMove] refuses such a destination for pawn,
    rook, bishop and queen, on moves between coordinates of magnitude at
    most [2 ^ 52]. *)
Theorem applied_move_piece_count (st : State) (sock : SocketId)
    (fromX fromY toX toY : Z) (player : Player) (piece : Piece) :
  playerOf st sock = Some player →
  board st !! (fromX, fromY) = Some piece →
  playerId piece = Some (id player) →
  let b' := board (on_move_piece st sock fromX fromY toX toY).1 in
  b' !! (toX, toY) = Some (setXY piece toX toY)
  ∧ (board st !! (toX, toY) = None → size b' = size (board st))
  ∧ (∀ q, board st !! (toX, toY) = Some q → playerId q ≠ playerId piece →
          S (size b') = size (board st))
  ∧ (∀ q, board st !! (toX, toY) = Some q → (toX, toY) ≠ (fromX, fromY) →
          S (size b') = size (board st))
  ∧ (∀ k, k ≠ (toX, toY) → k ≠ (fromX, fromY) → b' !! k = board st !! k)
  ∧ (∀ fuel q,
       Number.safe fromX → Number.safe fromY → Number.safe toX → Number.safe toY →
       (Z.to_nat (Rules.span fromX fromY toX toY) < fuel)%nat →
       Rules.checksDestination (ptype piece) →
       board st !! (toX, toY) = Some q → playerId q = playerId piece →
       ChessGame.validateMove fuel (Some piece) fromX fromY toX toY (board st)
       = Ok false).
Proof.
  intros Hpl Hp Hown b'. subst b'.
  rewrite (on_move_piece_owned st sock fromX fromY toX toY player piece Hpl Hp Hown).
  cbn [fst board].
  pose proof (size_after_move (board st) (fromX, fromY) (toX, toY) piece
                (setXY piece toX toY) Hp) as Hsize.
  pose proof (size_delete_present _ _ _ Hp) as Hpos.
  split; [apply lookup_insert_eq|].
  split; [intros Hto; by rewrite Hsize, Hto|].
  split; [|split; [|split]].
  - intros q Hq Hne. rewrite Hsize, Hq.
    rewrite decide_False; [lia|]. intros Heq. rewrite Heq, Hp in Hq. congruence.
  - intros q Hq Hne. rewrite Hsize, Hq. rewrite decide_False by done. lia.
  - intros k Hk1 Hk2. by rewrite lookup_insert_ne, lookup_delete_ne.
  - intros fuel q HfX HfY HtX HtY Hfuel Hchk Hq Hsame.
    destruct (Rules.validateMove_spec (board st) fuel piece fromX fromY toX toY
                HfX HfY HtX HtY Hp Hfuel) as (r & Hr & Hiff).
    rewrite Hr. destruct r; [|done].
    destruct (proj1 Hiff eq_refl) as (_ & _ & Hcap). specialize (Hcap Hchk).
    unfold Rules.captureOk in Hcap. rewrite Hq in Hcap. done.
Qed.

(** ** The validator beyond [2 ^ 53]

    Why the statements on [ChessGame.validateMove] are restricted to safe
    coordinates: where [x + 1] is [x] the path loop no longer walks the
    cells between source and destination. *)

(** A loop whose step no longer moves it never ends on an empty cell. *)
Lemma pathLoop_stuck (b : Board) (fuel : nat) (sx sy cx cy toX toY : Z) :
  Number.add cx sx = cx → Number.add cy sy = cy →
  (cx, cy) ≠ (toX, toY) → b !! (cx, cy) = None →
  ChessGame.pathLoop fuel sx sy cx cy toX toY b = OutOfFuel.
Proof.
  intros Hx Hy Hne Hfree. induction fuel as [|fuel IH]; [done|].
  cbn [ChessGame.pathLoop]. rewrite Hx, Hy, IH, Hfree.
  rewrite decide_False by (by intros [? ?]).
  destruct (Z.eqb_spec cx toX), (Z.eqb_spec cy toY); try done. by subst.
Qed.

(** A rook on [(2 ^ 53, 0)] may not move two cells along an empty row: the
    first step of the loop, [2 ^ 53 + 1], is [2 ^ 53] again, the cell of
    the rook itself, and the loop reports the path blocked. *)
Lemma rook_refused_beyond_two_pow_53 :
  let r := mkPiece rook (2 ^ 53) 0 "#FF0000" (Some "uuid-1"%string) in
  let b : Board := {[ (2 ^ 53, 0) := r ]} in
  Rules.patternRule rook (2 ^ 53 + 2 - 2 ^ 53) (0 - 0)
  ∧ Rules.pathClear b (2 ^ 53) 0 (2 ^ 53 + 2) 0
  ∧ Rules.captureOk b r (2 ^ 53 + 2) 0
  ∧ ∀ fuel, (0 < fuel)%nat →
            ChessGame.validateMove fuel (Some r) (2 ^ 53) 0 (2 ^ 53 + 2) 0 b = Ok false.
Proof.
  intros r b. split; [cbn; lia|]. split; [|split].
  - intros k Hk. assert (k = 1) as -> by (unfold Rules.span in Hk; lia).
    vm_compute. reflexivity.
  - vm_compute. exact I.
  - intros [|fuel] Hfuel; [lia|]. vm_compute. reflexivity.
Qed.

(** A rook on [(2 ^ 53 + 2, 0)] sent onto a pawn of its owner four cells
    away is not refused: the loop reaches [2 ^ 53 + 4] and stays there, and
    the call never returns. *)
Lemma slide_never_returns_beyond_two_pow_53 :
  let r := mkPiece rook (2 ^ 53 + 2) 0 "#FF0000" (Some "uuid-1"%string) in
  let p := mkPiece pawn (2 ^ 53 + 6) 0 "#FF0000" (Some "uuid-1"%string) in
  let b : Board := {[ (2 ^ 53 + 2, 0) := r; (2 ^ 53 + 6, 0) := p ]} in
  Number.add (2 ^ 53 + 2) 1 = 2 ^ 53 + 4
  ∧ Number.add (2 ^ 53 + 4) 1 = 2 ^ 53 + 4
  ∧ ∀ fuel,
      ChessGame.validateMove fuel (Some r) (2 ^ 53 + 2) 0 (2 ^ 53 + 6) 0 b = OutOfFuel.
Proof.
  intros r p b. split; [reflexivity|]. split; [reflexivity|].
  intros fuel.
  assert (Hloop : ChessGame.pathLoop fuel 1 0 (2 ^ 53 + 4) 0 (2 ^ 53 + 6) 0 b
                  = OutOfFuel).
  { apply pathLoop_stuck; [reflexivity|reflexivity|discriminate|].
    vm_compute. reflexivity. }
  change (ChessGame.validateMove fuel (Some r) (2 ^ 53 + 2) 0 (2 ^ 53 + 6) 0 b)
    with (clear ← ChessGame.pathLoop fuel 1 0 (2 ^ 53 + 4) 0 (2 ^ 53 + 6) 0 b;
          if clear : bool
          then ChessGame.destinationFree (b !! (2 ^ 53 + 6, 0)) (b !! (2 ^ 53 + 2, 0))
          else Ok false).
  by rewrite Hloop.
Qed.

Definition bob : Player :=
  {| id := "uuid-2"; socketId := "s2"; name := "Bob"; color := "#00FF00";
     colorIndex := 1; isActive := true; joinedAt := 2000 |}.

(** Scenario D of the specification, on the two-player board: Alice's pawn
    takes Bob's pawn. *)
Lemma applied_move_piece_count_witness :
  let mine := mkPiece pawn 0 1 "#FF0000" (Some "uuid-1"%string) in
  let theirs := mkPiece pawn 0 (-24) "#00FF00" (Some "uuid-2"%string) in
  let b' := board (on_move_piece twoJoined "s1" 0 1 0 (-24)).1 in
  playerOf twoJoined "s1" = Some alice
  ∧ board twoJoined !! (0, 1) = Some mine
  ∧ playerId mine = Some (id alice)
  ∧ board twoJoined !! (0, -24) = Some theirs
  ∧ playerId theirs ≠ playerId mine
  ∧ b' !! (0, -24) = Some (setXY mine 0 (-24))
  ∧ S (size b') = size (board twoJoined).
Proof.
  intros mine theirs b'.
  assert (Hpl : playerOf twoJoined "s1" = Some alice) by (vm_compute; reflexivity).
  assert (Hp : board twoJoined !! (0, 1) = Some mine) by (vm_compute; reflexivity).
  assert (Hown : playerId mine = Some (id alice)) by reflexivity.
  assert (Hq : board twoJoined !! (0, -24) = Some theirs) by (vm_compute; reflexivity).
  assert (Hne : playerId theirs ≠ playerId mine) by discriminate.
  pose proof (applied_move_piece_count twoJoined "s1" 0 1 0 (-24) alice mine
                Hpl Hp Hown) as (Hat & _ & Hcap & _).
  split; [exact Hpl|]. split; [exact Hp|]. split; [exact Hown|].
  split; [exact Hq|]. split; [exact Hne|]. split; [exact Hat|].
  exact (Hcap theirs Hq Hne).
Defined.

(** C3, as stated, fails: the server applies the move of Alice's rook from
    (-3,0) onto her own knight on (-2,0); the knight is overwritten and
    fifteen of her sixteen pieces remain. *)
Lemma own_piece_overwritten :
  board oneJoined !! (-3, 0) = Some (mkPiece rook (-3) 0 "#FF0000" (Some "uuid-1"%string))
  ∧ board oneJoined !! (-2, 0) = Some (mkPiece knight (-2) 0 "#FF0000" (Some "uuid-1"%string))
  ∧ moveApplied oneJoined "s1" (-3) 0 (-2) 0
  ∧ board (on_move_piece oneJoined "s1" (-3) 0 (-2) 0).1 !! (-2, 0)
    = Some (mkPiece rook (-2) 0 "#FF0000" (Some "uuid-1"%string))
  ∧ size (board oneJoined) = 16%nat
  ∧ size (board (on_move_piece oneJoined "s1" (-3) 0 (-2) 0).1) = 15%nat.
Proof.
  assert (Hp : board oneJoined !! (-3, 0)
               = Some (mkPiece rook (-3) 0 "#FF0000" (Some "uuid-1"%string)))
    by (vm_compute; reflexivity).
  split; [exact Hp|]. split; [vm_compute; reflexivity|].
  split; [by apply (oneJoined_moveApplied _ _ _ _ _ Hp)|].
  split; [vm_compute; reflexivity|]. split; vm_compute; reflexivity.
Qed.

(** ** Spawn separation *)

(** The cell holds a piece that has an owner. *)
Definition occupied (b : Board) (k : Z * Z) : Prop :=
  ∃ p, b !! k = Some p ∧ is_Some (playerId p).

Lemma elem_of_existingPositions (b : Board) (k : Z * Z) :
  k ∈ existingPositions b ↔ occupied b k.
Proof.
  unfold existingPositions, occupied. rewrite list_elem_of_fmap. split.
  - intros ([k' p] & -> & Hin). apply list_elem_of_filter in Hin as [Hown Hin].
    apply elem_of_map_to_list in Hin. by exists p.
  - intros (p & Hp & Hown). exists (k, p). split; [done|].
    apply list_elem_of_filter. split; [done|]. by apply elem_of_map_to_list.
Qed.

Lemma validPosition_spec (d : Z) (existing : list (Z * Z)) (c : Z * Z) :
  validPosition d existing c = true ↔ ∀ pos, pos ∈ existing → d * d <= sqDist c pos.
Proof.
  unfold validPosition, farEnough. rewrite forallb_forall. split.
  - intros H pos Hpos. apply Z.leb_le, H. by apply list_elem_of_In.
  - intros H pos Hpos. apply Z.leb_le, H. by apply list_elem_of_In.
Qed.

Lemma validPosition_false (d : Z) (existing : list (Z * Z)) (c : Z * Z) :
  validPosition d existing c = false →
  ∃ pos, pos ∈ existing ∧ sqDist c pos < d * d.
Proof.
  unfold validPosition. induction existing as [|pos existing IH]; simpl; [done|].
  intros H. apply andb_false_iff in H as [H|H].
  - exists pos. split; [by left|]. unfold farEnough in H. lia.
  - destruct (IH H) as (pos' & ? & ?). exists pos'. split; [by right|done].
Qed.

Lemma placePieces_occupied_mono (pieces : list Piece) (b : Board) (k : Z * Z) :
  Forall (λ p, is_Some (playerId p)) pieces →
  occupied b k → occupied (placePieces pieces b) k.
Proof.
  unfold placePieces. revert b.
  induction pieces as [|p pieces IH]; intros b Hall Hk; simpl; [done|].
  apply Forall_cons in Hall as [Hp Hall]. apply IH; [done|].
  destruct Hk as (q & Hq & Hown). unfold occupied. rewrite lookup_insert.
  case_decide; by eauto.
Qed.

Lemma placePieces_occupied_new (pieces : list Piece) (b : Board) (p : Piece) :
  Forall (λ p, is_Some (playerId p)) pieces →
  p ∈ pieces → occupied (placePieces pieces b) (px p, py p).
Proof.
  revert b. induction pieces as [|p' pieces IH]; intros b Hall Hin.
  - by apply elem_of_nil in Hin.
  - apply Forall_cons in Hall as [Hp' Hall].
    apply elem_of_cons in Hin as [->|Hin].
    + apply (placePieces_occupied_mono pieces); [done|].
      exists p'. by rewrite lookup_insert_eq.
    + by apply (IH _ Hall Hin).
Qed.

Lemma startingPieces_owned (x y : Z) (c : string) (pid : PlayerId) :
  Forall (λ p, is_Some (playerId p)) (startingPieces x y c pid).
Proof. unfold startingPieces. repeat constructor; by eexists. Qed.

(** The queen of the formation stands on the anchor. *)
Lemma startingPieces_queen (x y : Z) (c : string) (pid : PlayerId) :
  mkPiece queen x y c (Some pid) ∈ startingPieces x y c pid.
Proof. unfold startingPieces. do 3 right. left. Qed.

Section Separation.
Variable spiralPoint : Z -> nat -> Z * Z.
Variable fallbackPosition : Z -> list (Z * Z) -> Z * Z.

Abbreviation candidate' := (candidate spiralPoint).
Abbreviation spiralLoop' := (spiralLoop spiralPoint).
Abbreviation findSpawn' := (findSpawnPosition spiralPoint fallbackPosition).
Abbreviation handleS := (handle spiralPoint fallbackPosition).

(** The spiral loop returns the first candidate, in the order of the
    iterations, that is valid. *)
Lemma spiralLoop_first (remaining : nat) (d : Z) (existing : list (Z * Z))
    (attempts : nat) (c : Z * Z) :
  spiralLoop' remaining d existing attempts = Some c →
  ∃ k, (k < remaining)%nat
       ∧ c = candidate' d (attempts + k)
       ∧ validPosition d existing c = true
       ∧ ∀ j, (j < k)%nat → validPosition d existing (candidate' d (attempts + j)) = false.
Proof.
  revert attempts. induction remaining as [|remaining IH]; intros attempts; simpl; [done|].
  destruct (validPosition d existing (candidate' d attempts)) eqn:Hv.
  - intros [= <-]. exists 0%nat. rewrite Nat.add_0_r.
    split; [lia|]. split; [done|]. split; [done|]. intros j Hj. lia.
  - intros Hrec. destruct (IH _ Hrec) as (k & Hk & -> & Hvalid & Hearlier).
    exists (S k). split; [lia|]. split; [f_equal; lia|]. split; [done|].
    intros j Hj. destruct j as [|j].
    + by rewrite Nat.add_0_r.
    + replace (attempts + S j)%nat with (S attempts + j)%nat by lia.
      apply Hearlier. lia.
Qed.

(** The spawn position was found by the spiral, not by the fallback scan. *)
Definition viaSpiral (b : Board) : Prop :=
  existingPositions b = []
  ∨ is_Some (spiralLoop' maxAttempts 25 (existingPositions b) 0).

(** The anchor the code chooses on board [b]: the origin on a board without
    owned pieces, and otherwise the first spiral candidate at distance at
    least 25 from every owned piece on the board. *)
Definition firstFarFromPieces (b : Board) (a : Z * Z) : Prop :=
  (existingPositions b = [] ∧ a = (0, 0))
  ∨ (existingPositions b ≠ []
     ∧ ∃ k, (k < maxAttempts)%nat
            ∧ a = candidate' 25 k
            ∧ (∀ pos, occupied b pos → 25 * 25 <= sqDist a pos)
            ∧ ∀ j, (j < k)%nat →
                   ∃ pos, occupied b pos ∧ sqDist (candidate' 25 j) pos < 25 * 25).

Lemma findSpawnPosition_first (b : Board) :
  viaSpiral b → firstFarFromPieces b (findSpawn' 25 b).
Proof.
  unfold viaSpiral, firstFarFromPieces, findSpawnPosition.
  destruct (existingPositions b) as [|pos0 rest] eqn:Hex.
  - intros _. by left.
  - intros [Hnil|[c Hc]]; [done|]. right. split; [done|].
    rewrite Hc. destruct (spiralLoop_first _ _ _ _ _ Hc) as (k & Hk & -> & Hv & Hearlier).
    exists k. split; [done|]. split; [done|]. split.
    + intros pos Hpos. apply (proj1 (validPosition_spec _ _ _) Hv).
      rewrite <- Hex. by apply elem_of_existingPositions.
    + intros j Hj. destruct (validPosition_false _ _ _ (Hearlier j Hj))
        as (pos & Hpos & Hnear).
      exists pos. split; [|done]. apply elem_of_existingPositions. by rewrite Hex.
Qed.

(** The anchor a join command computes, when the join is accepted. *)
Definition joinAnchor (st : State) (c : Command) : option (Z * Z) :=
  match c with
  | join_game _ _ _ _ =>
      if decide (MAX_PLAYERS ≤ size (players st))%nat then None
      else Some (findSpawn' 25 (board st))
  | _ => None
  end.

(** The accepted joins of a run: the board each one met and the anchor it
    computed, in order.  The run ends where [run] ends. *)
Fixpoint joinsOf (st : State) (cs : list Command) : list (Board * (Z * Z)) :=
  match cs with
  | [] => []
  | c :: cs' =>
      match handleS st c with
      | returns st' _ =>
          match joinAnchor st c with
          | Some a => (board st, a) :: joinsOf st' cs'
          | None => joinsOf st' cs'
          end
      | throws | hangs => []
      end
  end.

Definition noMove (c : Command) : Prop :=
  match c with
  | move_piece _ _ _ _ _ => False
  | _ => True
  end.

Definition far (a a' : Z * Z) : Prop := 25 * 25 <= sqDist a a'.

Lemma far_sym (a a' : Z * Z) : far a a' → far a' a.
Proof. unfold far, sqDist. lia. Qed.

(** Every earlier element is far from every later one. *)
Definition pairwiseFar (l : list (Z * Z)) : Prop :=
  ∀ (i j : nat) a a', (i < j)%nat → l !! i = Some a → l !! j = Some a' → far a a'.

Lemma pairwiseFar_snoc (l : list (Z * Z)) (a : Z * Z) :
  pairwiseFar l → (∀ x, x ∈ l → far x a) → pairwiseFar (l ++ [a]).
Proof.
  intros Hl Ha i j x y Hij Hi Hj.
  destruct (decide (j < length l)%nat) as [Hlt|Hge].
  - rewrite lookup_app_l in Hi, Hj by lia. by apply (Hl i j).
  - assert (i < length l)%nat.
    { apply lookup_lt_Some in Hj. rewrite length_app in Hj. simpl in Hj. lia. }
    rewrite lookup_app_l in Hi by lia.
    rewrite lookup_app_r in Hj by lia.
    apply list_lookup_singleton_Some in Hj as [_ <-].
    apply Ha. by apply list_elem_of_lookup_2 in Hi.
Qed.

Lemma handle_noMove_board (st : State) (c : Command) :
  noMove c → joinAnchor st c = None →
  board (effect st (handleS st c)).1 = board st.
Proof.
  by_command c; cbn [noMove joinAnchor]; intros Hnm Hja; [|done..|].
  - case_decide as Hfull; [|done]. by rewrite on_join_game_full.
  - unfold on_disconnect. destruct (socketPlayerId st !! sock) as [pid|]; [|done].
    by destruct (players st !! pid).
Qed.

Lemma handle_join_board (st : State) (c : Command) (a : Z * Z) :
  joinAnchor st c = Some a →
  (∀ k, occupied (board st) k → occupied (board (effect st (handleS st c)).1) k)
  ∧ occupied (board (effect st (handleS st c)).1) a.
Proof.
  by_command c; cbn [joinAnchor]; [|done..].
  case_decide as Hfull; [done|]. intros [= <-].
  destruct (on_join_game_state spiralPoint fallbackPosition st sock nm uuid now Hfull)
    as (pl & -> & _). cbn [board]. split.
  - intros k. apply placePieces_occupied_mono, startingPieces_owned.
  - destruct (findSpawn' 25 (board st)) as [x y] eqn:Ha. cbn [fst snd].
    apply (placePieces_occupied_new _ _
             (mkPiece queen x y (colorAt (nextPlayerIndex st)) (Some uuid))).
    + apply startingPieces_owned.
    + apply startingPieces_queen.
Qed.

Lemma joins_stay_far (cs : list Command) (st : State) (prev : list (Z * Z)) :
  Forall noMove cs →
  (∀ b a, (b, a) ∈ joinsOf st cs → viaSpiral b) →
  (∀ a, a ∈ prev → occupied (board st) a) →
  pairwiseFar prev →
  pairwiseFar (prev ++ (joinsOf st cs).*2).
Proof.
  revert st prev. induction cs as [|c cs IH]; intros st prev Hnm Hvia Hocc Hfar.
  - simpl. by rewrite app_nil_r.
  - apply Forall_cons in Hnm as [Hc Hnm]. cbn [joinsOf] in *.
    pose proof (handle_noMove_board st c Hc) as Hidle.
    pose proof (handle_join_board st c) as Hjoin.
    destruct (handleS st c) as [st' out| |]; [|simpl; by rewrite app_nil_r..].
    cbn [effect fst] in Hidle, Hjoin.
    destruct (joinAnchor st c) as [a|] eqn:Hja.
    + cbn [fmap list_fmap snd]. rewrite cons_middle, app_assoc.
      destruct (Hjoin a eq_refl) as (Hkeep & Hnew).
      apply IH; [done| | |].
      * intros b a' Hin. apply (Hvia b a'). by right.
      * intros a' Hin. apply elem_of_app in Hin as [Hin|Hin].
        -- by apply Hkeep, Hocc.
        -- apply list_elem_of_singleton in Hin. by subst a'.
      * apply pairwiseFar_snoc; [done|]. intros x Hx. apply far_sym.
        assert (Hv : viaSpiral (board st)) by (apply (Hvia _ a); by left).
        assert (Ha : a = findSpawn' 25 (board st)).
        { destruct c; cbn [joinAnchor] in Hja; try done.
          case_decide; [done|]. by injection Hja. }
        apply findSpawnPosition_first in Hv. rewrite <- Ha in Hv.
        destruct Hv as [[Hnil _]|(_ & k & _ & _ & Hall & _)].
        -- specialize (Hocc x Hx). apply elem_of_existingPositions in Hocc.
           rewrite Hnil in Hocc. by apply elem_of_nil in Hocc.
        -- by apply Hall, Hocc.
    + apply IH; [done|done| |done].
      intros a Ha. rewrite Hidle by done. by apply Hocc.
Qed.

(** C5 (as amended).  In a run of commands from the initial state without
    move commands in which no join falls back to the exhaustive scan, the
    anchors of the accepted joins are pairwise at Euclidean distance at
    least 25, the value [spawnPlayerPieces] passes for the minimum; and each
    anchor is the origin on a board without pieces and otherwise the first
    candidate, in spiral traversal order, whose distance to every piece on
    the board (not only to the earlier anchors) is at least 25.  The anchors
    are a function of the command sequence. *)
Theorem spawn_separation (cs : list Command) :
  Forall noMove cs →
  (∀ b a, (b, a) ∈ joinsOf initialState cs → viaSpiral b) →
  pairwiseFar (joinsOf initialState cs).*2
  ∧ ∀ b a, (b, a) ∈ joinsOf initialState cs → firstFarFromPieces b a.
Proof.
  intros Hnm Hvia. split.
  - apply (joins_stay_far cs initialState [] Hnm Hvia).
    + intros a Ha. by apply elem_of_nil in Ha.
    + intros i j a a' _ Hi. by rewrite lookup_nil in Hi.
  - intros b a Hin. pose proof (Hvia b a Hin) as Hv.
    apply findSpawnPosition_first in Hv.
    assert (Ha : a = findSpawn' 25 b); [|by rewrite Ha].
    clear Hv Hvia Hnm. revert Hin. generalize initialState.
    induction cs as [|c cs IH]; intros st Hin; cbn [joinsOf] in Hin.
    + by apply elem_of_nil in Hin.
    + destruct (handleS st c) as [st' out| |]; [|by apply elem_of_nil in Hin..].
      destruct (joinAnchor st c) as [a0|] eqn:Hja; [|by apply (IH _ Hin)].
      apply elem_of_cons in Hin as [[= -> ->]|Hin]; [|by apply (IH _ Hin)].
      destruct c; cbn [joinAnchor] in Hja; try done.
      case_decide; [done|]. by injection Hja.
Qed.

End Separation.

Definition twoJoins : list Command :=
  [ join_game "s1" "Alice" "uuid-1" 1000; join_game "s2" "Bob" "uuid-2" 2000 ].

Lemma twoJoins_joinsOf :
  joinsOf spiral25 unusedFallback initialState twoJoins
  = [ (board initialState, (0, 0)); (board oneJoined, (0, -25)) ].
Proof. vm_compute. reflexivity. Qed.

Lemma spawn_separation_witness :
  Forall noMove twoJoins
  ∧ (∀ b a, (b, a) ∈ joinsOf spiral25 unusedFallback initialState twoJoins →
            viaSpiral spiral25 b)
  ∧ pairwiseFar (joinsOf spiral25 unusedFallback initialState twoJoins).*2.
Proof.
  assert (Hnm : Forall noMove twoJoins) by (repeat constructor).
  assert (Hvia : ∀ b a,
            (b, a) ∈ joinsOf spiral25 unusedFallback initialState twoJoins →
            viaSpiral spiral25 b).
  { intros b a Hin. rewrite twoJoins_joinsOf in Hin.
    apply elem_of_cons in Hin as [[= -> _]|Hin]; [left; vm_compute; reflexivity|].
    apply list_elem_of_singleton in Hin as [= -> _].
    right. vm_compute. eexists. reflexivity. }
  split; [exact Hnm|]. split; [exact Hvia|].
  exact (proj1 (spawn_separation spiral25 unusedFallback twoJoins Hnm Hvia)).
Defined.

(** The rule the specification states: the anchor is the first candidate in
    spiral order whose distance to every earlier anchor is at least 25. *)
Definition claimedAnchor (spiralPoint : Z -> nat -> Z * Z)
    (earlier : list (Z * Z)) (a : Z * Z) : Prop :=
  ∃ k, a = candidate spiralPoint 25 k
       ∧ (∀ a0, a0 ∈ earlier → far a a0)
       ∧ ∀ j, (j < k)%nat →
              ∃ a0, a0 ∈ earlier ∧ ¬ far (candidate spiralPoint 25 j) a0.

(** C5, as stated, fails in its second half.  When Bob joins after Alice the
    only earlier anchor is (0,0), and the first spiral candidate, (25,0), is
    at distance 25 from it; but Alice's rook stands on (4,0), at distance 21
    from (25,0), so the code rejects that candidate, whatever the later
    points of the spiral are, and Bob's anchor is (0,-25). *)
Lemma second_anchor_not_first_far_from_anchors :
  (joinsOf spiral25 unusedFallback initialState twoJoins).*2 = [ (0, 0); (0, -25) ]
  ∧ viaSpiral spiral25 (board oneJoined)
  ∧ far (25, 0) (0, 0)
  ∧ occupied (board oneJoined) (4, 0)
  ∧ sqDist (25, 0) (4, 0) = 21 * 21
  ∧ (∀ spiralPoint,
       candidate spiralPoint 25 0 = (25, 0)
       ∧ validPosition 25 (existingPositions (board oneJoined))
           (candidate spiralPoint 25 0) = false)
  ∧ ¬ claimedAnchor spiral25 [ (0, 0) ] (0, -25).
Proof.
  split; [by rewrite twoJoins_joinsOf|].
  split; [right; vm_compute; eexists; reflexivity|].
  split; [vm_compute; discriminate|].
  split; [eexists; split; [vm_compute; reflexivity|by eexists]|].
  split; [reflexivity|].
  split; [intros sp; split; [reflexivity|vm_compute; reflexivity]|].
  intros (k & Ha & _ & Hearlier). destruct k as [|k].
  - cbn in Ha. discriminate Ha.
  - destruct (Hearlier 0%nat ltac:(lia)) as (a0 & Hin & Hnear).
    apply list_elem_of_singleton in Hin as ->. apply Hnear.
    vm_compute. discriminate.
Qed.

(** Separation is a statement about runs without moves: the search looks at
    the pieces where they stand now.  After Bob has moved his sixteen pieces
    away, Carol receives Bob's anchor. *)
Definition bobLeavesHome : list Command :=
  (λ c : Z * Z, move_piece "s2" c.1 c.2 c.1 (c.2 - 1000)) <$>
    (x ← seqZ (-3) 8; [ (x, -25); (x, -24) ]).

Definition threeJoins : list Command :=
  twoJoins ++ bobLeavesHome ++ [ join_game "s3" "Carol" "uuid-3" 3000 ].

Lemma moves_break_separation :
  (joinsOf spiral25 unusedFallback initialState threeJoins).*2
  = [ (0, 0); (0, -25); (0, -25) ]
  ∧ ¬ pairwiseFar (joinsOf spiral25 unusedFallback initialState threeJoins).*2.
Proof.
  assert (H : (joinsOf spiral25 unusedFallback initialState threeJoins).*2
              = [ (0, 0); (0, -25); (0, -25) ]) by (vm_compute; reflexivity).
  split; [exact H|]. rewrite H. intros Hfar.
  specialize (Hfar 1%nat 2%nat (0, -25) (0, -25) ltac:(lia) eq_refl eq_refl).
  vm_compute in Hfar. by apply Hfar.
Qed.

(** ** The section query without owner filter *)

(** The repository also holds a copy of the server whose board is filled at
    start-up and whose [get-board-section] handler pushes every piece of the
    rectangle, [if (piece) pieces.push({ ...piece, x, y })]. *)
Definition sectionPiecesUnfiltered (b : Board) (bounds : Bounds)
    : option (list Piece) :=
  forUpTo (Z.to_nat (maxX bounds - minX bounds + 1)) (minX bounds) (maxX bounds)
    (λ x, forUpTo (Z.to_nat (maxY bounds - minY bounds + 1)) (minY bounds)
            (maxY bounds)
            (λ y, Some match b !! (x, y) with
                       | Some piece => [setXY piece x y]
                       | None => []
                       end)).

(** The two handlers differ once an owner has left: Alice's pieces are still
    listed by the unfiltered query and no longer by the one of server.js. *)
Lemma unfiltered_query_lists_orphans :
  let st := (on_disconnect oneJoined "s1" 5000).1 in
  let around := mkBounds (-3) 4 0 1 in
  sectionPieces (players st) (board st) around = Some []
  ∧ length <$> sectionPiecesUnfiltered (board st) around = Some 16%nat.
Proof. split; vm_compute; reflexivity. Qed.

(** ** The scenarios of the specification *)

(** Scenario A: the first join is anchored on (0,0), creates sixteen pieces,
    and the king stands on (1,0). *)
Example first_join_scenario :
  findSpawnPosition spiral25 unusedFallback 25 (board initialState) = (0, 0)
  ∧ size (board oneJoined) = 16%nat
  ∧ ptype <$> board oneJoined !! (1, 0) = Some king.
Proof. repeat split; vm_compute; reflexivity. Qed.

(** Scenario C, on the validator: a rook on (0,0) may not pass a piece on
    (0,3) on its way to (0,5), whoever owns that piece. *)
Example blocked_rook_scenario :
  let b : Board :=
    {[ (0, 0) := mkPiece rook 0 0 "#FF0000" (Some "uuid-1"%string);
       (0, 3) := mkPiece pawn 0 3 "#00FF00" (Some "uuid-2"%string) ]} in
  ChessGame.isMoveLegal 10 (ChessGame.mkMove 0 0 0 5 "uuid-1") b
  = Ok (ChessGame.mkVerdict false (Some "Invalid move for this piece"%string))
  ∧ ChessGame.isMoveLegal 10 (ChessGame.mkMove 0 0 0 3 "uuid-1") b
    = Ok (ChessGame.mkVerdict true None)
  ∧ ChessGame.isMoveLegal 10 (ChessGame.mkMove 0 0 0 2 "uuid-1") b
    = Ok (ChessGame.mkVerdict true None).
Proof. repeat split; vm_compute; reflexivity. Qed.

End Engine.

(** * The rest of the rule library *)

Module Library.
Import ChessGame.

(** [generatePotentialMoves(piece, x, y)]; a move [{ x, y }] is a pair. *)
Definition generatePotentialMoves (piece : Piece) (x y : Z) : list (Z * Z) :=
  let plus := Number.add in
  let minus := Number.sub in
  match ptype piece with
  | pawn => [ (plus x 1, y); (minus x 1, y); (x, plus y 1); (x, minus y 1) ]
  | rook =>
      i ← seqZ 1 7;
      [ (plus x i, y); (minus x i, y); (x, plus y i); (x, minus y i) ]
  | knight =>
      [ (plus x 2, plus y 1); (plus x 2, minus y 1);
        (minus x 2, plus y 1); (minus x 2, minus y 1);
        (plus x 1, plus y 2); (plus x 1, minus y 2);
        (minus x 1, plus y 2); (minus x 1, minus y 2) ]
  | bishop =>
      i ← seqZ 1 7;
      [ (plus x i, plus y i); (plus x i, minus y i);
        (minus x i, plus y i); (minus x i, minus y i) ]
  | queen =>
      i ← seqZ 1 7;
      [ (plus x i, y); (minus x i, y); (x, plus y i); (x, minus y i);
        (plus x i, plus y i); (plus x i, minus y i);
        (minus x i, plus y i); (minus x i, minus y i) ]
  | king =>
      dx ← seqZ (-1) 3;
      dy ← seqZ (-1) 3;
      if negb (dx =? 0) || negb (dy =? 0) then [ (plus x dx, plus y dy) ] else []
  end.

(** The cell the loop of [validateLinearMove] looks at in its iteration
    [k], counted from 0, when it starts on [(currentX, currentY)]. *)
Definition visited (k : nat) (stepX stepY currentX currentY : Z) : Z * Z :=
  (Nat.iter k (λ v, Number.add v stepX) currentX,
   Nat.iter k (λ v, Number.add v stepY) currentY).

(** The loop of [getValidMoves]: keep the moves [validateMove] accepts. *)
Fixpoint keepValid (fuel : nat) (piece : Piece) (x y : Z) (boardState : Board)
    (moves : list (Z * Z)) : result (list (Z * Z)) :=
  match moves with
  | [] => Ok []
  | move :: rest =>
      ok ← validateMove fuel (Some piece) x y move.1 move.2 boardState;
      kept ← keepValid fuel piece x y boardState rest;
      Ok (if ok : bool then move :: kept else kept)
  end.

(** [getValidMoves(piece, x, y, boardState)] *)
Definition getValidMoves (fuel : nat) (piece : Piece) (x y : Z)
    (boardState : Board) : result (list (Z * Z)) :=
  keepValid fuel piece x y boardState (generatePotentialMoves piece x y).

(** The loop of [isSquareUnderAttack] over the entries of the board.  A
    JavaScript [Map] is walked in insertion order; the entries are taken
    here in the order of [map_to_list]. *)
Fixpoint attackLoop (fuel : nat) (x y : Z) (targetPlayerId : PlayerId)
    (boardState : Board) (entries : list ((Z * Z) * Piece)) : result bool :=
  match entries with
  | [] => Ok false
  | (key, piece) :: rest =>
      if negb (bool_decide (playerId piece = Some targetPlayerId)) then
        ok ← validateMove fuel (Some piece) key.1 key.2 x y boardState;
        if ok : bool then Ok true
        else attackLoop fuel x y targetPlayerId boardState rest
      else attackLoop fuel x y targetPlayerId boardState rest
  end.

(** [isSquareUnderAttack(x, y, targetPlayerId, boardState)] *)
Definition isSquareUnderAttack (fuel : nat) (x y : Z) (targetPlayerId : PlayerId)
    (boardState : Board) : result bool :=
  attackLoop fuel x y targetPlayerId boardState (map_to_list boardState).

(** An entry [{ piece, x, y }] of the list [findPieces] returns. *)
Record Found := mkFound { fpiece : Piece; fx : Z; fy : Z }.

(** [piece.playerId === playerId] and [!pieceType || piece.type === pieceType] *)
Definition wanted (pid : PlayerId) (pieceType : option PieceType)
    (piece : Piece) : bool :=
  bool_decide (playerId piece = Some pid)
  && match pieceType with
     | None => true
     | Some t => bool_decide (ptype piece = t)
     end.

(** [findPieces(boardState, playerId, pieceType = null)], the entries in the
    order of [map_to_list]. *)
Definition findPieces (boardState : Board) (pid : PlayerId)
    (pieceType : option PieceType) : list Found :=
  (λ kp : (Z * Z) * Piece, mkFound kp.2 kp.1.1 kp.1.2) <$>
    filter (λ kp : (Z * Z) * Piece, wanted pid pieceType kp.2)
      (map_to_list boardState).

(** [getPieceValue(piece)] *)
Definition getPieceValue (piece : Piece) : Z :=
  match ptype piece with
  | pawn => 1
  | knight => 3
  | bishop => 3
  | rook => 5
  | queen => 9
  | king => 1000
  end.

(** ** The moves [getValidMoves] lists *)

(** Decides a membership in an explicit list of cells by arithmetic. *)
Ltac pick_cell :=
  repeat rewrite elem_of_cons;
  repeat first [ left; solve [f_equal; lia] | right ].

(** Splits an aligned move into the nine sign cases of its two deltas. *)
Ltac by_direction i tx ty x y :=
  let Hc := fresh "Hc" in
  assert (Hc : (tx = x + i ∨ tx = x - i ∨ tx = x)
               ∧ (ty = y + i ∨ ty = y - i ∨ ty = y)) by lia;
  clearbody i;
  destruct Hc as [ [ -> | [ -> | -> ] ] [ -> | [ -> | -> ] ] ];
  first [ solve [pick_cell] | exfalso; lia ].

Lemma bind_ext_in {A B} (f g : A → list B) (l : list A) :
  (∀ a, a ∈ l → f a = g a) → l ≫= f = l ≫= g.
Proof.
  induction l as [|a l IH]; intros Hfg; [done|]. cbn.
  rewrite (Hfg a) by (by left). f_equal. apply IH. intros a' Ha'. apply Hfg. by right.
Qed.

(** Around a safe cell the sums and differences of [generatePotentialMoves]
    are exact. *)
Lemma generatePotentialMoves_exact (piece : Piece) (x y : Z) :
  Number.safe x → Number.safe y →
  generatePotentialMoves piece x y
  = match ptype piece with
    | pawn => [ (x + 1, y); (x - 1, y); (x, y + 1); (x, y - 1) ]
    | rook =>
        i ← seqZ 1 7;
        [ (x + i, y); (x - i, y); (x, y + i); (x, y - i) ]
    | knight =>
        [ (x + 2, y + 1); (x + 2, y - 1); (x - 2, y + 1); (x - 2, y - 1);
          (x + 1, y + 2); (x + 1, y - 2); (x - 1, y + 2); (x - 1, y - 2) ]
    | bishop =>
        i ← seqZ 1 7;
        [ (x + i, y + i); (x + i, y - i); (x - i, y + i); (x - i, y - i) ]
    | queen =>
        i ← seqZ 1 7;
        [ (x + i, y); (x - i, y); (x, y + i); (x, y - i);
          (x + i, y + i); (x + i, y - i); (x - i, y + i); (x - i, y - i) ]
    | king =>
        dx ← seqZ (-1) 3;
        dy ← seqZ (-1) 3;
        if negb (dx =? 0) || negb (dy =? 0) then [ (x + dx, y + dy) ] else []
    end.
Proof.
  intros Hx Hy. unfold generatePotentialMoves, Number.safe in *. cbv zeta.
  assert (Hplus : ∀ v i, Z.abs v <= 2 ^ 52 → Z.abs i <= 7 → Number.add v i = v + i)
    by (intros v i Hv Hi; apply NumberFacts.add_exact; lia).
  assert (Hminus : ∀ v i, Z.abs v <= 2 ^ 52 → Z.abs i <= 7 → Number.sub v i = v - i)
    by (intros v i Hv Hi; apply NumberFacts.sub_exact; lia).
  destruct (ptype piece).
  - by rewrite !Hplus, !Hminus by (done || lia).
  - apply bind_ext_in. intros i Hi%elem_of_seqZ.
    by rewrite !Hplus, !Hminus by (done || lia).
  - by rewrite !Hplus, !Hminus by (done || lia).
  - apply bind_ext_in. intros i Hi%elem_of_seqZ.
    by rewrite !Hplus, !Hminus by (done || lia).
  - apply bind_ext_in. intros i Hi%elem_of_seqZ.
    by rewrite !Hplus, !Hminus by (done || lia).
  - apply bind_ext_in. intros dx Hdx%elem_of_seqZ.
    apply bind_ext_in. intros dy Hdy%elem_of_seqZ.
    by rewrite !Hplus by (done || lia).
Qed.

(** The generated moves are the cells within seven steps that fit the
    pattern of the piece type. *)
Lemma generatePotentialMoves_spec (piece : Piece) (x y tx ty : Z) :
  Number.safe x → Number.safe y →
  (tx, ty) ∈ generatePotentialMoves piece x y ↔
  Rules.span x y tx ty <= 7 ∧ Rules.patternRule (ptype piece) (tx - x) (ty - y).
Proof.
  intros Hx Hy. rewrite generatePotentialMoves_exact by done. unfold Rules.span.
  destruct (ptype piece); cbn [Rules.patternRule].
  - (* pawn *)
    split.
    + intros H. repeat (apply elem_of_cons in H as [[= -> ->]|H]); [lia..|].
      by apply elem_of_nil in H.
    + intros [_ H].
      assert (Hc : (tx = x + 1 ∨ tx = x - 1 ∨ tx = x)
                   ∧ (ty = y + 1 ∨ ty = y - 1 ∨ ty = y)) by lia.
      destruct Hc as [ [ -> | [ -> | -> ] ] [ -> | [ -> | -> ] ] ];
        first [ solve [pick_cell] | exfalso; lia ].
  - (* rook *)
    rewrite list_elem_of_bind. split.
    + intros (i & H & Hi). apply elem_of_seqZ in Hi.
      repeat (apply elem_of_cons in H as [[= -> ->]|H]); [lia..|].
      by apply elem_of_nil in H.
    + intros [Hs H]. set (i := Z.max (Z.abs (tx - x)) (Z.abs (ty - y))) in *.
      assert (1 <= i <= 7) by lia.
      exists i. split; [|apply elem_of_seqZ; lia]. by_direction i tx ty x y.
  - (* knight *)
    split.
    + intros H. repeat (apply elem_of_cons in H as [[= -> ->]|H]); [lia..|].
      by apply elem_of_nil in H.
    + intros [_ H].
      assert (Hc : (tx = x + 2 ∨ tx = x - 2 ∨ tx = x + 1 ∨ tx = x - 1)
                   ∧ (ty = y + 2 ∨ ty = y - 2 ∨ ty = y + 1 ∨ ty = y - 1)) by lia.
      destruct Hc as [ [ -> | [ -> | [ -> | -> ] ] ] [ -> | [ -> | [ -> | -> ] ] ] ];
        first [ solve [pick_cell] | exfalso; lia ].
  - (* bishop *)
    rewrite list_elem_of_bind. split.
    + intros (i & H & Hi). apply elem_of_seqZ in Hi.
      repeat (apply elem_of_cons in H as [[= -> ->]|H]); [lia..|].
      by apply elem_of_nil in H.
    + intros [Hs H]. set (i := Z.max (Z.abs (tx - x)) (Z.abs (ty - y))) in *.
      assert (1 <= i <= 7) by lia.
      exists i. split; [|apply elem_of_seqZ; lia]. by_direction i tx ty x y.
  - (* queen *)
    rewrite list_elem_of_bind. split.
    + intros (i & H & Hi). apply elem_of_seqZ in Hi.
      repeat (apply elem_of_cons in H as [[= -> ->]|H]); [lia..|].
      by apply elem_of_nil in H.
    + intros [Hs H]. set (i := Z.max (Z.abs (tx - x)) (Z.abs (ty - y))) in *.
      assert (1 <= i <= 7) by lia.
      exists i. split; [|apply elem_of_seqZ; lia]. by_direction i tx ty x y.
  - (* king *)
    rewrite list_elem_of_bind. split.
    + intros (dx & H & Hdx). apply elem_of_seqZ in Hdx.
      apply list_elem_of_bind in H as (dy & H & Hdy). apply elem_of_seqZ in Hdy.
      destruct (negb (dx =? 0) || negb (dy =? 0)) eqn:Hnz;
        [|by apply elem_of_nil in H].
      apply list_elem_of_singleton in H as [= -> ->]. lia.
    + intros [_ H]. exists (tx - x). split; [|apply elem_of_seqZ; lia].
      apply list_elem_of_bind. exists (ty - y). split; [|apply elem_of_seqZ; lia].
      replace (negb (tx - x =? 0) || negb (ty - y =? 0)) with true by lia.
      apply list_elem_of_singleton. f_equal; lia.
Qed.

Lemma keepValid_spec (fuel : nat) (piece : Piece) (x y : Z) (b : Board)
    (moves : list (Z * Z)) :
  (∀ m, m ∈ moves → ∃ r, validateMove fuel (Some piece) x y m.1 m.2 b = Ok r) →
  ∃ kept, keepValid fuel piece x y b moves = Ok kept
          ∧ ∀ m, m ∈ kept ↔
                 m ∈ moves ∧ validateMove fuel (Some piece) x y m.1 m.2 b = Ok true.
Proof.
  induction moves as [|move rest IH]; intros Hret.
  - exists []. split; [done|]. intros m. split; [by intros ?%elem_of_nil|].
    by intros [?%elem_of_nil _].
  - destruct (Hret move ltac:(by left)) as (r & Hr).
    destruct IH as (kept & Hkept & Hiff); [intros m Hm; apply Hret; by right|].
    cbn [keepValid]. rewrite Hr. cbn [mbind result_bind].
    rewrite Hkept. cbn [mbind result_bind].
    eexists. split; [done|]. intros m. destruct r.
    + rewrite !elem_of_cons, Hiff. split.
      * intros [->|[? ?]]; [by auto|by auto].
      * intros [[->|?] ?]; by auto.
    + rewrite Hiff, elem_of_cons. split; [by intros [? ?]; auto|].
      intros [[Hm|?] Hv]; [|done]. rewrite Hm, Hr in Hv. discriminate Hv.
Qed.

Lemma getValidMoves_spec (fuel : nat) (piece : Piece) (x y : Z) (b : Board) :
  Number.safe x → Number.safe y →
  b !! (x, y) = Some piece →
  (7 < fuel)%nat →
  ∃ moves,
    getValidMoves fuel piece x y b = Ok moves
    ∧ ∀ tx ty,
        (tx, ty) ∈ moves ↔
        Rules.span x y tx ty <= 7
        ∧ Rules.patternRule (ptype piece) (tx - x) (ty - y)
        ∧ (Rules.slides (ptype piece) → Rules.pathClear b x y tx ty)
        ∧ (Rules.checksDestination (ptype piece) → Rules.captureOk b piece tx ty).
Proof.
  intros Hx Hy Hp Hfuel. unfold getValidMoves.
  assert (Hspec : ∀ tx ty, Rules.span x y tx ty <= 7 →
            ∃ r, validateMove fuel (Some piece) x y tx ty b = Ok r
                 ∧ (r = true ↔
                    Rules.patternRule (ptype piece) (tx - x) (ty - y)
                    ∧ (Rules.slides (ptype piece) → Rules.pathClear b x y tx ty)
                    ∧ (Rules.checksDestination (ptype piece) →
                       Rules.captureOk b piece tx ty))).
  { intros tx ty Hs. unfold Rules.span, Number.safe in *.
    apply Rules.validateMove_within; [unfold Rules.within; lia..|done|].
    unfold Rules.span. lia. }
  destruct (keepValid_spec fuel piece x y b (generatePotentialMoves piece x y))
    as (kept & Hkept & Hiff).
  { intros [tx ty] Hm. apply generatePotentialMoves_spec in Hm as [Hs _]; [|done..].
    destruct (Hspec tx ty Hs) as (r & Hr & _). by exists r. }
  exists kept. split; [done|]. intros tx ty. rewrite Hiff.
  rewrite generatePotentialMoves_spec by done. cbn [fst snd]. split.
  - intros [[Hs Hpat] Hv]. split; [done|].
    destruct (Hspec tx ty Hs) as (r & Hr & Hr_iff).
    rewrite Hv in Hr. injection Hr as <-. by apply Hr_iff.
  - intros (Hs & Hrule). destruct (Hspec tx ty Hs) as (r & Hr & Hr_iff).
    split; [split; [done|by destruct Hrule]|].
    rewrite Hr. f_equal. by apply Hr_iff.
Qed.

(** X1.  For the piece standing on [(x, y)], with coordinates of magnitude
    at most [2 ^ 52], [getValidMoves] returns, and the list holds exactly
    the cells at most seven steps away that the rules accept: pattern of the
    type, clear path for rook, bishop and queen, destination empty or of
    another owner for pawn, rook, bishop and queen.  A legal slide of eight
    steps or more is never listed. *)
Theorem getValidMoves_exact (fuel : nat) (piece : Piece) (x y : Z) (b : Board) :
  Number.safe x → Number.safe y →
  b !! (x, y) = Some piece →
  (7 < fuel)%nat →
  ∃ moves,
    getValidMoves fuel piece x y b = Ok moves
    ∧ ∀ tx ty,
        (tx, ty) ∈ moves ↔
        Rules.span x y tx ty <= 7
        ∧ Rules.patternRule (ptype piece) (tx - x) (ty - y)
        ∧ (Rules.slides (ptype piece) → Rules.pathClear b x y tx ty)
        ∧ (Rules.checksDestination (ptype piece) → Rules.captureOk b piece tx ty).
Proof. apply getValidMoves_spec. Qed.

Lemma getValidMoves_exact_witness :
  let q := mkPiece queen 0 0 "#FF0000" (Some "uuid-1"%string) in
  Number.safe 0
  ∧ Engine.oneJoined.(Server.board) !! (0, 0) = Some q
  ∧ (7 < 8)%nat
  ∧ ∃ moves,
      getValidMoves 8 q 0 0 (Server.board Engine.oneJoined) = Ok moves
      ∧ ∀ tx ty,
          (tx, ty) ∈ moves ↔
          Rules.span 0 0 tx ty <= 7
          ∧ Rules.patternRule (ptype q) (tx - 0) (ty - 0)
          ∧ (Rules.slides (ptype q) →
             Rules.pathClear (Server.board Engine.oneJoined) 0 0 tx ty)
          ∧ (Rules.checksDestination (ptype q) →
             Rules.captureOk (Server.board Engine.oneJoined) q tx ty).
Proof.
  intros q.
  assert (Hq : Server.board Engine.oneJoined !! (0, 0) = Some q)
    by (vm_compute; reflexivity).
  assert (Hfuel : (7 < 8)%nat) by lia.
  assert (H0 : Number.safe 0) by (apply Engine.safe_small; lia).
  split; [exact H0|]. split; [exact Hq|]. split; [exact Hfuel|].
  exact (getValidMoves_exact 8 q 0 0 (Server.board Engine.oneJoined) H0 H0 Hq Hfuel).
Defined.

(** ** Attacked cells *)

Lemma attackLoop_spec (fuel : nat) (x y : Z) (target : PlayerId) (b : Board)
    (entries : list ((Z * Z) * Piece)) :
  (∀ k p, (k, p) ∈ entries →
          ∃ r, validateMove fuel (Some p) k.1 k.2 x y b = Ok r) →
  ∃ r, attackLoop fuel x y target b entries = Ok r
       ∧ (r = true ↔
          ∃ k p, (k, p) ∈ entries ∧ playerId p ≠ Some target
                 ∧ validateMove fuel (Some p) k.1 k.2 x y b = Ok true).
Proof.
  induction entries as [|[k p] rest IH]; intros Hret.
  - exists false. split; [done|]. split; [done|].
    by intros (k & p & ?%elem_of_nil & _).
  - destruct IH as (r & Hr & Hiff); [intros k' p' Hin; apply Hret; by right|].
    cbn [attackLoop].
    destruct (bool_decide (playerId p = Some target)) eqn:Hown; cbn [negb].
    + apply bool_decide_eq_true in Hown.
      exists r. split; [done|]. rewrite Hiff. split.
      * intros (k' & p' & Hin & Hrest). exists k', p'. split; [by right|done].
      * intros (k' & p' & Hin & Hne & Hv).
        apply elem_of_cons in Hin as [[= -> ->]|Hin]; [done|].
        by exists k', p'.
    + apply bool_decide_eq_false in Hown.
      destruct (Hret k p ltac:(by left)) as (v & Hv). rewrite Hv.
      cbn [mbind result_bind]. destruct v.
      * exists true. split; [done|]. split; [|done]. intros _.
        exists k, p. split; [by left|done].
      * exists r. split; [done|]. rewrite Hiff. split.
        -- intros (k' & p' & Hin & Hrest). exists k', p'. split; [by right|done].
        -- intros (k' & p' & Hin & Hne & Hv').
           apply elem_of_cons in Hin as [[= -> ->]|Hin].
           ++ rewrite Hv in Hv'. discriminate Hv'.
           ++ by exists k', p'.
Qed.

(** X2.  On a board whose pieces stand on coordinates of magnitude at most
    [2 ^ 52], for a cell with such coordinates and with fuel for the longest
    slide towards the cell, [isSquareUnderAttack] returns, and it answers
    true exactly when some piece on the board whose [playerId] is not the
    target player's could move onto the cell by the rules of
    [validateMove]. *)
Theorem isSquareUnderAttack_exact (fuel : nat) (x y : Z) (target : PlayerId)
    (b : Board) :
  Number.safe x → Number.safe y →
  (∀ kx ky p, b !! (kx, ky) = Some p → Number.safe kx ∧ Number.safe ky) →
  (∀ kx ky p, b !! (kx, ky) = Some p →
              (Z.to_nat (Rules.span kx ky x y) < fuel)%nat) →
  ∃ r, isSquareUnderAttack fuel x y target b = Ok r
       ∧ (r = true ↔
          ∃ kx ky p,
            b !! (kx, ky) = Some p
            ∧ playerId p ≠ Some target
            ∧ Rules.patternRule (ptype p) (x - kx) (y - ky)
            ∧ (Rules.slides (ptype p) → Rules.pathClear b kx ky x y)
            ∧ (Rules.checksDestination (ptype p) → Rules.captureOk b p x y)).
Proof.
  intros Hx Hy Hsafe Hfuel. unfold isSquareUnderAttack.
  assert (Hspec : ∀ kx ky p, b !! (kx, ky) = Some p →
            ∃ r, validateMove fuel (Some p) kx ky x y b = Ok r
                 ∧ (r = true ↔
                    Rules.patternRule (ptype p) (x - kx) (y - ky)
                    ∧ (Rules.slides (ptype p) → Rules.pathClear b kx ky x y)
                    ∧ (Rules.checksDestination (ptype p) → Rules.captureOk b p x y))).
  { intros kx ky p Hp. destruct (Hsafe kx ky p Hp) as [Hkx Hky].
    apply Rules.validateMove_spec; [done..|]. by apply (Hfuel kx ky p). }
  destruct (attackLoop_spec fuel x y target b (map_to_list b)) as (r & Hr & Hiff).
  { intros [kx ky] p Hin. apply elem_of_map_to_list in Hin.
    destruct (Hspec kx ky p Hin) as (v & Hv & _). by exists v. }
  exists r. split; [done|]. rewrite Hiff. split.
  - intros ([kx ky] & p & Hin & Hne & Hv). apply elem_of_map_to_list in Hin.
    exists kx, ky, p. split; [done|]. split; [done|].
    destruct (Hspec kx ky p Hin) as (v & Hv' & Hv_iff). cbn [fst snd] in Hv.
    rewrite Hv in Hv'. injection Hv' as <-. by apply Hv_iff.
  - intros (kx & ky & p & Hp & Hne & Hrule). exists (kx, ky), p.
    split; [by apply elem_of_map_to_list|]. split; [done|].
    destruct (Hspec kx ky p Hp) as (v & Hv & Hv_iff). cbn [fst snd].
    rewrite Hv. f_equal. by apply Hv_iff.
Qed.

Lemma isSquareUnderAttack_exact_witness :
  let b : Board :=
    {[ (0, 0) := mkPiece rook 0 0 "#FF0000" (Some "uuid-1"%string);
       (0, 3) := mkPiece pawn 0 3 "#00FF00" (Some "uuid-2"%string) ]} in
  (Number.safe 0 ∧ Number.safe 3)
  ∧ (∀ kx ky p, b !! (kx, ky) = Some p → Number.safe kx ∧ Number.safe ky)
  ∧ (∀ kx ky p, b !! (kx, ky) = Some p →
                (Z.to_nat (Rules.span kx ky 0 3) < 10)%nat)
  ∧ isSquareUnderAttack 10 0 3 "uuid-2" b = Ok true.
Proof.
  intros b.
  assert (H0 : Number.safe 0) by (apply Engine.safe_small; lia).
  assert (H3 : Number.safe 3) by (apply Engine.safe_small; lia).
  assert (Hkeys : ∀ kx ky p, b !! (kx, ky) = Some p → (kx, ky) = (0, 0) ∨ (kx, ky) = (0, 3)).
  { intros kx ky p Hp. unfold b in Hp.
    apply lookup_insert_Some in Hp as [[[= <- <-] _]|[_ Hp]]; [by left|].
    apply lookup_singleton_Some in Hp as [[= <- <-] _]. by right. }
  assert (Hsafe : ∀ kx ky p, b !! (kx, ky) = Some p → Number.safe kx ∧ Number.safe ky).
  { intros kx ky p Hp. by destruct (Hkeys kx ky p Hp) as [[= -> ->]|[= -> ->]]. }
  assert (Hfuel : ∀ kx ky p, b !! (kx, ky) = Some p →
                             (Z.to_nat (Rules.span kx ky 0 3) < 10)%nat).
  { intros kx ky p Hp.
    destruct (Hkeys kx ky p Hp) as [[= -> ->]|[= -> ->]]; vm_compute; lia. }
  split; [done|]. split; [exact Hsafe|]. split; [exact Hfuel|].
  destruct (isSquareUnderAttack_exact 10 0 3 "uuid-2" b H0 H3 Hsafe Hfuel)
    as (r & Hr & Hiff).
  rewrite Hr. f_equal. apply Hiff.
  exists 0, 0, (mkPiece rook 0 0 "#FF0000" (Some "uuid-1"%string)).
  split; [vm_compute; reflexivity|]. split; [discriminate|].
  split; [cbn; lia|]. split.
  - intros _ k Hk. unfold Rules.span in Hk. cbn in Hk.
    assert (k = 1 ∨ k = 2) as [->| ->] by lia; vm_compute; reflexivity.
  - intros _. unfold Rules.captureOk.
    replace (b !! (0, 3)) with (Some (mkPiece pawn 0 3 "#00FF00" (Some "uuid-2"%string)))
      by (vm_compute; reflexivity).
    discriminate.
Defined.

(** ** Direct calls of the path check *)

Lemma visited_0 (sx sy cx cy : Z) : visited 0 sx sy cx cy = (cx, cy).
Proof. reflexivity. Qed.

Lemma visited_succ (k : nat) (sx sy cx cy : Z) :
  visited (S k) sx sy cx cy = visited k sx sy (Number.add cx sx) (Number.add cy sy).
Proof. unfold visited. by rewrite !Nat.iter_succ_r. Qed.

(** A loop that never stands on the destination does not answer true: it
    answers false at the first occupied cell it looks at, and does not end
    when there is none. *)
Lemma pathLoop_passing (b : Board) (sx sy toX toY : Z) (fuel : nat) (cx cy : Z) :
  (∀ k, visited k sx sy cx cy ≠ (toX, toY)) →
  pathLoop fuel sx sy cx cy toX toY b ≠ Ok true
  ∧ (∀ n, (∀ k, (k < n)%nat → b !! visited k sx sy cx cy = None) →
          is_Some (b !! visited n sx sy cx cy) → (n < fuel)%nat →
          pathLoop fuel sx sy cx cy toX toY b = Ok false)
  ∧ ((∀ k, b !! visited k sx sy cx cy = None) →
     pathLoop fuel sx sy cx cy toX toY b = OutOfFuel).
Proof.
  revert cx cy. induction fuel as [|fuel IH]; intros cx cy Hnever.
  - split; [done|]. split; [intros; lia|done].
  - cbn [pathLoop].
    assert (Hne : negb (cx =? toX) || negb (cy =? toY) = true).
    { specialize (Hnever 0%nat). rewrite visited_0 in Hnever.
      destruct (Z.eqb_spec cx toX), (Z.eqb_spec cy toY); try done. by subst. }
    rewrite Hne.
    destruct (IH (Number.add cx sx) (Number.add cy sy)) as (IH1 & IH2 & IH3).
    { intros k. rewrite <- visited_succ. apply Hnever. }
    split; [by case_decide|]. split.
    + intros n Hfree Hocc Hn. destruct n as [|n].
      * rewrite visited_0 in Hocc. by rewrite decide_True.
      * rewrite decide_False.
        -- apply (IH2 n); [|by rewrite <- visited_succ|lia].
           intros k Hk. rewrite <- visited_succ. apply Hfree. lia.
        -- pose proof (Hfree 0%nat ltac:(lia)) as H0. rewrite visited_0 in H0.
           rewrite H0. by intros [? ?].
    + intros Hfree. rewrite decide_False.
      * apply IH3. intros k. rewrite <- visited_succ. apply Hfree.
      * pose proof (Hfree 0%nat) as H0. rewrite visited_0 in H0.
        rewrite H0. by intros [? ?].
Qed.

(** One coordinate of the loop: it walks from the source to the
    destination in exact steps, and once past the destination it stays
    past it, also where the steps are no longer exact. *)
Lemma walk_position (from to : Z) (k : nat) :
  Number.safe from → Number.safe to → to ≠ from →
  let s := Z.sgn (to - from) in
  let c := Nat.iter k (λ v, Number.add v s) (Number.add from s) in
  (Z.of_nat k + 1 <= Z.abs (to - from) ∧ c = from + (Z.of_nat k + 1) * s)
  ∨ (Z.abs (to - from) < Z.of_nat k + 1 ∧ 0 < (c - to) * s).
Proof.
  unfold Number.safe. intros Hf Ht Hne. cbv zeta. set (s := Z.sgn (to - from)).
  assert (Hs : (s = 1 ∧ from < to) ∨ (s = -1 ∧ to < from)).
  { unfold s. destruct (Z.sgn_spec (to - from)) as [[? ->]|[[? ->]|[? ->]]]; lia. }
  clearbody s. destruct Hs as [[-> Hlt]|[-> Hlt]].
  - induction k as [|k IH]; [cbn [Nat.iter nat_rect]|rewrite Nat.iter_succ].
    { left. rewrite NumberFacts.add_exact by lia. lia. }
    set (c := Nat.iter k (λ v, Number.add v 1) (Number.add from 1)) in *.
    destruct IH as [[Hk Hc]|[Hk Hc]].
    + rewrite NumberFacts.add_exact by lia.
      destruct (decide (Z.of_nat (S k) + 1 <= Z.abs (to - from))) as [Hin|Hout];
        [left|right]; lia.
    + right. split; [lia|]. unfold Number.add.
      destruct (decide (c + 1 <= 2 ^ 53)) as [Hsmall|Hbig].
      * rewrite NumberFacts.round_exact by lia. lia.
      * pose proof (NumberFacts.round_lower (c + 1) ltac:(lia)). lia.
  - induction k as [|k IH]; [cbn [Nat.iter nat_rect]|rewrite Nat.iter_succ].
    { left. rewrite NumberFacts.add_exact by lia. lia. }
    set (c := Nat.iter k (λ v, Number.add v (-1)) (Number.add from (-1))) in *.
    destruct IH as [[Hk Hc]|[Hk Hc]].
    + rewrite NumberFacts.add_exact by lia.
      destruct (decide (Z.of_nat (S k) + 1 <= Z.abs (to - from))) as [Hin|Hout];
        [left|right]; lia.
    + right. split; [lia|]. unfold Number.add.
      destruct (decide (- 2 ^ 53 <= c + -1)) as [Hsmall|Hbig].
      * rewrite NumberFacts.round_exact by lia. lia.
      * pose proof (NumberFacts.round_upper (c + -1) ltac:(lia)). lia.
Qed.

(** Between safe cells, a vector that is neither straight nor diagonal never
    leads the loop onto the destination. *)
Lemma unaligned_never_arrives (fromX fromY toX toY : Z) (k : nat) :
  let dx := toX - fromX in
  let dy := toY - fromY in
  Number.safe fromX → Number.safe fromY → Number.safe toX → Number.safe toY →
  dx ≠ 0 → dy ≠ 0 → Z.abs dx ≠ Z.abs dy →
  visited k (Z.sgn dx) (Z.sgn dy) (Number.add fromX (Z.sgn dx))
    (Number.add fromY (Z.sgn dy)) ≠ (toX, toY).
Proof.
  intros dx dy HfX HfY HtX HtY Hx Hy Hxy [= HcX HcY].
  pose proof (walk_position fromX toX k HfX HtX ltac:(lia)) as HwX.
  pose proof (walk_position fromY toY k HfY HtY ltac:(lia)) as HwY.
  cbv zeta in HwX, HwY. fold dx in HwX. fold dy in HwY.
  rewrite HcX in HwX. rewrite HcY in HwY.
  destruct HwX as [[_ HX]|[_ HX]]; [|lia].
  destruct HwY as [[_ HY]|[_ HY]]; [|lia].
  unfold dx, dy in *.
  destruct (Z.sgn_spec (toX - fromX)) as [[? Hsx]|[[? Hsx]|[? Hsx]]];
    destruct (Z.sgn_spec (toY - fromY)) as [[? Hsy]|[[? Hsy]|[? Hsy]]];
    rewrite Hsx in HX; rewrite Hsy in HY; lia.
Qed.

(** As long as the cells stay within [2 ^ 53] the loop looks at the cells
    of the ray. *)
Lemma visited_exact (fromX fromY sx sy : Z) (k : nat) :
  -1 <= sx <= 1 → -1 <= sy <= 1 →
  Z.abs fromX <= 2 ^ 53 → Z.abs fromY <= 2 ^ 53 →
  Z.abs (fromX + (Z.of_nat k + 1) * sx) <= 2 ^ 53 →
  Z.abs (fromY + (Z.of_nat k + 1) * sy) <= 2 ^ 53 →
  visited k sx sy (Number.add fromX sx) (Number.add fromY sy)
  = (fromX + (Z.of_nat k + 1) * sx, fromY + (Z.of_nat k + 1) * sy).
Proof.
  intros Hsx Hsy HfX HfY. unfold visited.
  induction k as [|k IH]; intros HkX HkY;
    [cbn [Nat.iter nat_rect]|rewrite !Nat.iter_succ].
  - rewrite !NumberFacts.add_exact by lia. f_equal; lia.
  - assert (Z.abs (fromX + (Z.of_nat k + 1) * sx) <= 2 ^ 53) by nia.
    assert (Z.abs (fromY + (Z.of_nat k + 1) * sy) <= 2 ^ 53) by nia.
    injection (IH ltac:(done) ltac:(done)) as -> ->.
    rewrite !NumberFacts.add_exact by lia. f_equal; lia.
Qed.

(** X3.  Called directly between cells with coordinates of magnitude at most
    [2 ^ 52], with a vector that is neither straight nor diagonal,
    [validateLinearMove] never accepts the move.  When the cells its loop
    looks at hold a piece, it returns false at the first such cell, given
    fuel to reach it; when none of them holds a piece, the loop steps past
    the destination and does not end, whatever the fuel.  The cells are
    those of the ray from the source along the signs of the vector, as far
    as the ray stays within [2 ^ 53].  (The rook, bishop and queen
    validators call it on aligned vectors only.) *)
Theorem validateLinearMove_unaligned (b : Board) (fromX fromY toX toY : Z) :
  let dx := toX - fromX in
  let dy := toY - fromY in
  let cell k := visited k (Z.sgn dx) (Z.sgn dy) (Number.add fromX (Z.sgn dx))
                  (Number.add fromY (Z.sgn dy)) in
  Number.safe fromX → Number.safe fromY → Number.safe toX → Number.safe toY →
  dx ≠ 0 → dy ≠ 0 → Z.abs dx ≠ Z.abs dy →
  (∀ fuel, validateLinearMove fuel dx dy b fromX fromY toX toY ≠ Ok true)
  ∧ (∀ n fuel, (∀ k, (k < n)%nat → b !! cell k = None) →
               is_Some (b !! cell n) → (n < fuel)%nat →
               validateLinearMove fuel dx dy b fromX fromY toX toY = Ok false)
  ∧ ((∀ k, b !! cell k = None) →
     ∀ fuel, validateLinearMove fuel dx dy b fromX fromY toX toY = OutOfFuel)
  ∧ (∀ k, Z.abs (fromX + (Z.of_nat k + 1) * Z.sgn dx) <= 2 ^ 53 →
          Z.abs (fromY + (Z.of_nat k + 1) * Z.sgn dy) <= 2 ^ 53 →
          cell k = (fromX + (Z.of_nat k + 1) * Z.sgn dx,
                    fromY + (Z.of_nat k + 1) * Z.sgn dy)).
Proof.
  intros dx dy cell HfX HfY HtX HtY Hx Hy Hxy.
  assert (Hnever : ∀ k, cell k ≠ (toX, toY)).
  { intros k. by apply unaligned_never_arrives. }
  assert (Hstep : ∀ fuel,
            validateLinearMove fuel dx dy b fromX fromY toX toY
            = (clear ← pathLoop fuel (Z.sgn dx) (Z.sgn dy)
                         (Number.add fromX (Z.sgn dx)) (Number.add fromY (Z.sgn dy))
                         toX toY b;
               if clear : bool
               then destinationFree (b !! (toX, toY)) (b !! (fromX, fromY))
               else Ok false)).
  { intros fuel. unfold validateLinearMove.
    by rewrite !NumberFacts.stepOf_finite by (unfold Number.safe in *; lia). }
  split; [|split; [|split]].
  - intros fuel. rewrite Hstep.
    destruct (pathLoop_passing b _ _ toX toY fuel _ _ Hnever) as (Hno & _).
    destruct (pathLoop _ _ _ _ _ _ _ _) as [[|]| |]; cbn [mbind result_bind]; done.
  - intros n fuel Hfree Hocc Hn. rewrite Hstep.
    destruct (pathLoop_passing b _ _ toX toY fuel _ _ Hnever) as (_ & Hfalse & _).
    by rewrite (Hfalse n Hfree Hocc Hn).
  - intros Hfree fuel. rewrite Hstep.
    destruct (pathLoop_passing b _ _ toX toY fuel _ _ Hnever) as (_ & _ & Hloop).
    by rewrite (Hloop Hfree).
  - intros k HkX HkY. unfold Number.safe in *.
    apply visited_exact; [| |lia|lia|done|done].
    + destruct (Z.sgn_spec dx) as [[? ->]|[[? ->]|[? ->]]]; lia.
    + destruct (Z.sgn_spec dy) as [[? ->]|[[? ->]|[? ->]]]; lia.
Qed.

(** From (0,0) towards (2,1) the loop looks at (1,1), (2,2), (3,3), ...: it
    returns false when it meets the pawn on (3,3). *)
Lemma validateLinearMove_unaligned_witness :
  let b : Board := {[ (3, 3) := mkPiece pawn 3 3 "#00FF00" (Some "uuid-2"%string) ]} in
  let cell k := visited k (Z.sgn (2 - 0)) (Z.sgn (1 - 0))
                  (Number.add 0 (Z.sgn (2 - 0))) (Number.add 0 (Z.sgn (1 - 0))) in
  (Number.safe 0 ∧ Number.safe 1 ∧ Number.safe 2)
  ∧ (2 - 0 ≠ 0 ∧ 1 - 0 ≠ 0 ∧ Z.abs (2 - 0) ≠ Z.abs (1 - 0))
  ∧ (∀ k, (k < 2)%nat → b !! cell k = None)
  ∧ is_Some (b !! cell 2%nat)
  ∧ validateLinearMove 3 (2 - 0) (1 - 0) b 0 0 2 1 = Ok false.
Proof.
  intros b cell.
  assert (H0 : Number.safe 0) by (apply Engine.safe_small; lia).
  assert (H1 : Number.safe 1) by (apply Engine.safe_small; lia).
  assert (H2 : Number.safe 2) by (apply Engine.safe_small; lia).
  assert (Hx : 2 - 0 ≠ 0) by lia. assert (Hy : 1 - 0 ≠ 0) by lia.
  assert (Hxy : Z.abs (2 - 0) ≠ Z.abs (1 - 0)) by lia.
  assert (Hfree : ∀ k, (k < 2)%nat → b !! cell k = None).
  { intros k Hk. assert (k = 0 ∨ k = 1)%nat as [-> | ->] by lia;
      vm_compute; reflexivity. }
  assert (Hocc : is_Some (b !! cell 2%nat)) by (vm_compute; by eexists).
  split; [done|]. split; [done|]. split; [exact Hfree|]. split; [exact Hocc|].
  exact (proj1 (proj2 (validateLinearMove_unaligned b 0 0 2 1 H0 H0 H2 H1 Hx Hy Hxy))
           2%nat 3%nat Hfree Hocc ltac:(lia)).
Defined.

(** ** Finding pieces *)

Lemma NoDup_findPieces (b : Board) (pid : PlayerId) (pieceType : option PieceType) :
  NoDup (findPieces b pid pieceType).
Proof.
  unfold findPieces.
  apply NoDup_fmap_2_strong; [|apply NoDup_filter, NoDup_map_to_list].
  intros [[x1 y1] p1] [[x2 y2] p2] _ _ [= -> -> ->]. done.
Qed.

Lemma elem_of_findPieces (b : Board) (pid : PlayerId)
    (pieceType : option PieceType) (p : Piece) (x y : Z) :
  mkFound p x y ∈ findPieces b pid pieceType ↔
  b !! (x, y) = Some p
  ∧ playerId p = Some pid
  ∧ (∀ t, pieceType = Some t → ptype p = t).
Proof.
  unfold findPieces. rewrite list_elem_of_fmap. split.
  - intros ([[x' y'] p'] & [= -> -> ->] & Hin).
    apply list_elem_of_filter in Hin as [Hw Hin].
    apply elem_of_map_to_list in Hin. split; [done|].
    unfold wanted in Hw. cbn [snd] in Hw.
    apply andb_prop_elim in Hw as [Hown Hty].
    apply bool_decide_unpack in Hown. split; [done|].
    intros t ->. by apply bool_decide_unpack in Hty.
  - intros (Hp & Hown & Hty). exists ((x, y), p). split; [done|].
    apply list_elem_of_filter. split; [|by apply elem_of_map_to_list].
    unfold wanted. cbn [snd]. apply andb_prop_intro. split.
    + by apply bool_decide_pack.
    + destruct pieceType as [t|]; [|done]. apply bool_decide_pack. by apply Hty.
Qed.

(** X4.  [findPieces] lists each piece of the player once, with the
    coordinates of its cell, restricted to the asked type when one is given;
    pieces of other owners and pieces without owner are never listed. *)
Theorem findPieces_exact (b : Board) (pid : PlayerId) (pieceType : option PieceType) :
  NoDup (findPieces b pid pieceType)
  ∧ ∀ p x y,
      mkFound p x y ∈ findPieces b pid pieceType ↔
      b !! (x, y) = Some p
      ∧ playerId p = Some pid
      ∧ (∀ t, pieceType = Some t → ptype p = t).
Proof.
  split; [apply NoDup_findPieces|]. intros p x y. apply elem_of_findPieces.
Qed.

End Library.

(** * The server over whole runs *)

Module Play.
Import Server Engine.

(** ** Placing a formation *)

Definition cellOf (p : Piece) : Z * Z := (px p, py p).

Lemma placePieces_lookup_other (pieces : list Piece) (b : Board) (k : Z * Z) :
  (∀ p, p ∈ pieces → cellOf p ≠ k) → placePieces pieces b !! k = b !! k.
Proof.
  unfold placePieces. revert b.
  induction pieces as [|p pieces IH]; intros b Hk; [done|]. cbn [foldl].
  rewrite IH by (intros q Hq; apply Hk; by right).
  apply lookup_insert_ne, Hk. by left.
Qed.

Lemma placePieces_lookup_new (pieces : list Piece) (b : Board) (p : Piece) :
  NoDup (cellOf <$> pieces) → p ∈ pieces →
  placePieces pieces b !! cellOf p = Some p.
Proof.
  revert b. induction pieces as [|q pieces IH]; intros b Hnd Hin.
  - by apply elem_of_nil in Hin.
  - rewrite fmap_cons in Hnd. apply NoDup_cons in Hnd as [Hq Hnd].
    apply elem_of_cons in Hin as [->|Hin].
    + change (placePieces (q :: pieces) b)
        with (placePieces pieces (<[cellOf q := q]> b)).
      rewrite placePieces_lookup_other; [apply lookup_insert_eq|].
      intros p Hp Heq. apply Hq. rewrite <- Heq. by apply list_elem_of_fmap_2.
    + by apply (IH _ Hnd Hin).
Qed.

Lemma placePieces_lookup_Some (pieces : list Piece) (b : Board) (k : Z * Z)
    (p : Piece) :
  placePieces pieces b !! k = Some p →
  (p ∈ pieces ∧ cellOf p = k) ∨ b !! k = Some p.
Proof.
  revert b. induction pieces as [|q pieces IH]; intros b Hp; [by right|].
  change (placePieces (q :: pieces) b)
    with (placePieces pieces (<[cellOf q := q]> b)) in Hp.
  apply IH in Hp as [[Hin Hk]|Hp].
  - left. split; [by right|done].
  - apply lookup_insert_Some in Hp as [[<- <-]|[_ Hp]].
    + left. split; [by left|done].
    + by right.
Qed.

Lemma placePieces_size (pieces : list Piece) (b : Board) :
  NoDup (cellOf <$> pieces) →
  (∀ p, p ∈ pieces → b !! cellOf p = None) →
  size (placePieces pieces b) = (size b + length pieces)%nat.
Proof.
  revert b. induction pieces as [|q pieces IH]; intros b Hnd Hfree.
  - cbn. lia.
  - rewrite fmap_cons in Hnd. apply NoDup_cons in Hnd as [Hq Hnd].
    change (placePieces (q :: pieces) b)
      with (placePieces pieces (<[cellOf q := q]> b)).
    rewrite IH; [| done |].
    + rewrite map_size_insert_None by (apply Hfree; by left). cbn [length]. lia.
    + intros p Hp. rewrite lookup_insert_ne; [apply Hfree; by right|].
      intros Heq. apply Hq. rewrite Heq. by apply list_elem_of_fmap_2.
Qed.

(** The sixteen cells of a formation are pairwise distinct. *)
Lemma startingPieces_cells_NoDup (x y : Z) (c : string) (pid : PlayerId) :
  NoDup (cellOf <$> startingPieces x y c pid).
Proof.
  unfold startingPieces, cellOf. cbn [fmap list_fmap px py].
  repeat (apply NoDup_cons_2;
          [ let H := fresh in
            intros H;
            repeat (apply elem_of_cons in H as [H|H]; [injection H; lia|]);
            by apply elem_of_nil in H
          | ]).
  apply NoDup_nil_2.
Qed.

(** Every cell of a formation lies within distance [sqrt 17] of its anchor. *)
Lemma startingPieces_near (x y : Z) (c : string) (pid : PlayerId) (p : Piece) :
  p ∈ startingPieces x y c pid → sqDist (x, y) (cellOf p) <= 17.
Proof.
  unfold startingPieces. intros H.
  repeat (apply elem_of_cons in H as [->|H];
          [unfold sqDist, cellOf; cbn [fst snd px py]; lia|]).
  by apply elem_of_nil in H.
Qed.

Lemma startingPieces_owner (x y : Z) (c : string) (pid : PlayerId) (p : Piece) :
  p ∈ startingPieces x y c pid → playerId p = Some pid ∧ pcolor p = c.
Proof.
  unfold startingPieces. intros H.
  repeat (apply elem_of_cons in H as [->|H]; [done|]).
  by apply elem_of_nil in H.
Qed.

(** ** An accepted join, spelled out *)

Definition newPlayer (st : State) (sock : SocketId) (playerName : string)
    (uuid : PlayerId) (now : Z) : Player :=
  {| id := uuid; socketId := sock;
     name := if decide (playerName = EmptyString)
             then ("Player" +:+ pretty (size (players st) + 1)%nat)%string
             else playerName;
     color := colorAt (nextPlayerIndex st); colorIndex := nextPlayerIndex st;
     isActive := true; joinedAt := now |}.

Section Runs.
Variable spiralPoint : Z -> nat -> Z * Z.
Variable fallbackPosition : Z -> list (Z * Z) -> Z * Z.

Abbreviation joinP := (on_join_game spiralPoint fallbackPosition).
Abbreviation handleP := (handle spiralPoint fallbackPosition).
Abbreviation reachableP := (reachable spiralPoint fallbackPosition).
Abbreviation spawnP := (findSpawnPosition spiralPoint fallbackPosition).

(** The formation an accepted join places. *)
Definition formation (st : State) (uuid : PlayerId) : list Piece :=
  startingPieces (spawnP 25 (board st)).1 (spawnP 25 (board st)).2
    (colorAt (nextPlayerIndex st)) uuid.

Definition joinedState (st : State) (sock : SocketId) (playerName : string)
    (uuid : PlayerId) (now : Z) : State :=
  {| players := <[uuid := newPlayer st sock playerName uuid now]> (players st);
     board := placePieces (formation st uuid) (board st);
     nextPlayerIndex := S (nextPlayerIndex st);
     socketPlayerId := <[sock := uuid]> (socketPlayerId st) |}.

Lemma on_join_game_accepted (st : State) sock playerName uuid now :
  ¬ (MAX_PLAYERS ≤ size (players st))%nat →
  joinP st sock playerName uuid now
  = (joinedState st sock playerName uuid now,
     [ (ToSocket sock,
         game_joined uuid (newPlayer st sock playerName uuid now)
           (activePieces (players (joinedState st sock playerName uuid now))
              (board (joinedState st sock playerName uuid now)))
           (map_to_list (players (joinedState st sock playerName uuid now))).*2);
       (ToOthers sock, player_joined (newPlayer st sock playerName uuid now)) ]).
Proof.
  intros H. unfold on_join_game, joinedState, formation, spawnPlayerPieces.
  rewrite decide_False by done.
  destruct (findSpawnPosition _ _ _ _) as [x y]. reflexivity.
Qed.

(** ** The registry *)

(** What every reachable state satisfies. *)
Record sound (st : State) : Prop := mkSound {
  sound_size : (size (players st) ≤ MAX_PLAYERS)%nat;
  sound_entry : ∀ pid pl, players st !! pid = Some pl →
      id pl = pid ∧ isActive pl = true
      ∧ (colorIndex pl < nextPlayerIndex st)%nat
      ∧ color pl = colorAt (colorIndex pl);
  sound_index : ∀ p1 p2 pl1 pl2,
      players st !! p1 = Some pl1 → players st !! p2 = Some pl2 →
      colorIndex pl1 = colorIndex pl2 → p1 = p2;
  sound_owned : ∀ k p, board st !! k = Some p → is_Some (playerId p)
}.

Lemma sound_initial : sound initialState.
Proof.
  split; cbn.
  - rewrite map_size_empty. lia.
  - intros pid pl H. by rewrite lookup_empty in H.
  - intros p1 p2 pl1 pl2 H. by rewrite lookup_empty in H.
  - intros k p H. by rewrite lookup_empty in H.
Qed.

Lemma sound_handle (st : State) (c : Command) :
  sound st → sound (effect st (handleP st c)).1.
Proof.
  intros Hsound. pose proof Hsound as [Hsize Hentry Hindex Howned].
  by_command c; [| |done|done|done|].
  - destruct (decide (MAX_PLAYERS ≤ size (players st))%nat) as [Hfull|Hroom].
    + rewrite on_join_game_full by done. by split.
    + rewrite on_join_game_accepted by done. cbn [fst]. split; cbn [joinedState players board nextPlayerIndex].
      * rewrite map_size_insert. destruct (players st !! uuid); cbn; lia.
      * intros pid pl Hpl. apply lookup_insert_Some in Hpl as [[<- <-]|[_ Hpl]].
        -- cbn. split; [done|]. split; [done|]. split; [lia|done].
        -- destruct (Hentry pid pl Hpl) as (? & ? & ? & ?).
           split; [done|]. split; [done|]. split; [lia|done].
      * intros p1 p2 pl1 pl2 H1 H2 Hidx.
        apply lookup_insert_Some in H1 as [[<- <-]|[Hn1 H1]];
          apply lookup_insert_Some in H2 as [[<- <-]|[Hn2 H2]].
        -- done.
        -- destruct (Hentry p2 pl2 H2) as (_ & _ & Hlt & _). cbn in Hidx. lia.
        -- destruct (Hentry p1 pl1 H1) as (_ & _ & Hlt & _). cbn in Hidx. lia.
        -- by apply (Hindex p1 p2 pl1 pl2).
      * intros k p Hp. apply placePieces_lookup_Some in Hp as [[Hin _]|Hp].
        -- apply startingPieces_owner in Hin as [-> _]. by eexists.
        -- by apply (Howned k).
  - unfold on_move_piece. destruct (playerOf st sock) as [player|]; [|by split].
    destruct (board st !! (fX, fY)) as [piece|] eqn:Hpiece; [|by split].
    case_bool_decide as Hown; [|by split]. cbn [fst]. split; cbn; [done..|].
    intros k p Hp. apply lookup_insert_Some in Hp as [[_ <-]|[_ Hp]].
    + cbn. rewrite Hown. by eexists.
    + apply lookup_delete_Some in Hp as [_ Hp]. by apply (Howned k).
  - unfold on_disconnect. destruct (socketPlayerId st !! sock) as [pid|]; [|by split].
    destruct (players st !! pid) as [player|] eqn:Hplayer; [|by split].
    cbn [fst]. split; cbn.
    + rewrite map_size_delete, Hplayer. cbn. lia.
    + intros pid' pl Hpl. apply lookup_delete_Some in Hpl as [_ Hpl]. by apply Hentry.
    + intros p1 p2 pl1 pl2 H1 H2.
      apply lookup_delete_Some in H1 as [_ H1].
      apply lookup_delete_Some in H2 as [_ H2]. by apply Hindex.
    + done.
Qed.

Lemma reachable_sound (st : State) : reachableP st → sound st.
Proof.
  induction 1 as [|st c st' out _ IH Hret]; [apply sound_initial|].
  pose proof (sound_handle st c IH) as Hs. by rewrite Hret in Hs.
Qed.

(** X5.  In every reachable state the registry holds at most [MAX_PLAYERS]
    players, and each entry is stored under its own id and is marked
    active. *)
Theorem registry_within_capacity (st : State) :
  reachableP st →
  (size (players st) ≤ 100)%nat
  ∧ ∀ pid pl, players st !! pid = Some pl → id pl = pid ∧ isActive pl = true.
Proof.
  intros Hr. apply reachable_sound in Hr as [Hsize Hentry _ _].
  split; [exact Hsize|]. intros pid pl Hpl.
  destruct (Hentry pid pl Hpl) as (? & ? & _). done.
Qed.

(** ** Colours *)

Lemma PLAYER_COLORS_length : length PLAYER_COLORS = 100%nat.
Proof. reflexivity. Qed.

Lemma PLAYER_COLORS_NoDup : NoDup PLAYER_COLORS.
Proof. apply (bool_decide_unpack (NoDup PLAYER_COLORS)). vm_compute. exact I. Qed.

Lemma colorAt_eq (i j : nat) :
  colorAt i = colorAt j ↔ (i `mod` 100 = j `mod` 100)%nat.
Proof.
  unfold colorAt. rewrite PLAYER_COLORS_length.
  assert (Hi : (i `mod` 100 < length PLAYER_COLORS)%nat)
    by (rewrite PLAYER_COLORS_length; apply Nat.mod_upper_bound; lia).
  assert (Hj : (j `mod` 100 < length PLAYER_COLORS)%nat)
    by (rewrite PLAYER_COLORS_length; apply Nat.mod_upper_bound; lia).
  apply lookup_lt_is_Some in Hi as [ci Hci]. apply lookup_lt_is_Some in Hj as [cj Hcj].
  rewrite Hci, Hcj. cbn [from_option Datatypes.id]. split.
  - intros <-. by apply (NoDup_lookup _ _ _ ci PLAYER_COLORS_NoDup).
  - intros Heq. rewrite Heq in Hci. congruence.
Qed.

(** X6.  In every reachable state two different registered players have
    different colour indices, each player's colour is the palette entry of
    its index, and two registered players share a colour exactly when their
    indices differ by a multiple of 100; as long as no more than 100 joins
    have been accepted all registered players have different colours. *)
Theorem registered_colours (st : State) (p1 p2 : PlayerId) (pl1 pl2 : Player) :
  reachableP st →
  players st !! p1 = Some pl1 →
  players st !! p2 = Some pl2 →
  p1 ≠ p2 →
  colorIndex pl1 ≠ colorIndex pl2
  ∧ color pl1 = colorAt (colorIndex pl1)
  ∧ (color pl1 = color pl2 ↔
     (colorIndex pl1 `mod` 100 = colorIndex pl2 `mod` 100)%nat)
  ∧ ((nextPlayerIndex st ≤ 100)%nat → color pl1 ≠ color pl2).
Proof.
  intros Hr H1 H2 Hne. apply reachable_sound in Hr as [_ Hentry Hindex _].
  destruct (Hentry p1 pl1 H1) as (_ & _ & Hlt1 & Hc1).
  destruct (Hentry p2 pl2 H2) as (_ & _ & Hlt2 & Hc2).
  assert (Hidx : colorIndex pl1 ≠ colorIndex pl2).
  { intros Heq. by apply Hne, (Hindex p1 p2 pl1 pl2). }
  split; [done|]. split; [done|]. rewrite Hc1, Hc2, colorAt_eq. split; [done|].
  intros Hfew. rewrite !Nat.mod_small by lia. done.
Qed.

(** ** What a join adds *)

Lemma join_overwrites_nothing (st : State) (sock : SocketId) (playerName : string)
    (uuid : PlayerId) (now : Z) :
  reachableP st →
  (size (players st) < MAX_PLAYERS)%nat →
  viaSpiral spiralPoint (board st) →
  let st' := (joinP st sock playerName uuid now).1 in
  board st ⊆ board st'
  ∧ (∀ p, p ∈ formation st uuid → board st' !! cellOf p = Some p)
  ∧ size (board st') = (size (board st) + 16)%nat.
Proof.
  intros Hr Hroom Hvia st'. subst st'.
  rewrite on_join_game_accepted by lia. cbn [fst joinedState board].
  apply reachable_sound in Hr as [_ _ _ Howned].
  assert (Hfree : ∀ p, p ∈ formation st uuid → board st !! cellOf p = None).
  { intros p Hp. apply startingPieces_near in Hp.
    destruct (board st !! cellOf p) as [q|] eqn:Hq; [exfalso|done].
    assert (Hocc : occupied (board st) (cellOf p)) by (exists q; eauto).
    apply (findSpawnPosition_first spiralPoint fallbackPosition) in Hvia.
    destruct Hvia as [[Hnil _]|(_ & k & _ & _ & Hfar & _)].
    - apply elem_of_existingPositions in Hocc. rewrite Hnil in Hocc.
      by apply elem_of_nil in Hocc.
    - specialize (Hfar _ Hocc).
      destruct (spawnP 25 (board st)) as [x y]. cbn [fst snd] in Hp. lia. }
  pose proof (startingPieces_cells_NoDup (spawnP 25 (board st)).1
                (spawnP 25 (board st)).2 (colorAt (nextPlayerIndex st)) uuid) as Hnd.
  fold (formation st uuid) in Hnd.
  split; [|split].
  - apply map_subseteq_spec. intros k p Hp.
    rewrite placePieces_lookup_other; [done|].
    intros q Hq Heq. rewrite <- Heq, (Hfree q Hq) in Hp. done.
  - intros p Hp. by apply placePieces_lookup_new.
  - rewrite placePieces_size by done. done.
Qed.

(** X7.  In a reachable state, a join below capacity that finds its anchor
    by the spiral overwrites nothing: every piece on the board stays where
    it is, all sixteen pieces of the formation are on the board afterwards,
    and the number of pieces grows by exactly sixteen. *)
Theorem join_adds_sixteen (st : State) (sock : SocketId) (playerName : string)
    (uuid : PlayerId) (now : Z) :
  reachableP st →
  (size (players st) < MAX_PLAYERS)%nat →
  viaSpiral spiralPoint (board st) →
  let st' := (joinP st sock playerName uuid now).1 in
  board st ⊆ board st'
  ∧ (∀ p, p ∈ formation st uuid → board st' !! cellOf p = Some p)
  ∧ size (board st') = (size (board st) + 16)%nat.
Proof. apply join_overwrites_nothing. Qed.

End Runs.

Lemma registered_colours_witness :
  reachable spiral25 unusedFallback twoJoined
  ∧ players twoJoined !! ("uuid-1" : PlayerId) = Some alice
  ∧ players twoJoined !! ("uuid-2" : PlayerId) = Some bob
  ∧ ("uuid-1" : PlayerId) ≠ "uuid-2"
  ∧ color alice ≠ color bob.
Proof.
  assert (H1 : players twoJoined !! ("uuid-1" : PlayerId) = Some alice)
    by (vm_compute; reflexivity).
  assert (H2 : players twoJoined !! ("uuid-2" : PlayerId) = Some bob)
    by (vm_compute; reflexivity).
  assert (Hne : ("uuid-1" : PlayerId) ≠ "uuid-2") by discriminate.
  assert (Hfew : (nextPlayerIndex twoJoined ≤ 100)%nat) by (vm_compute; lia).
  split; [exact twoJoined_reachable|]. split; [exact H1|]. split; [exact H2|].
  split; [exact Hne|].
  exact (proj2 (proj2 (proj2 (registered_colours spiral25 unusedFallback twoJoined
           "uuid-1" "uuid-2" alice bob twoJoined_reachable H1 H2 Hne))) Hfew).
Defined.

Lemma registry_within_capacity_witness :
  reachable spiral25 unusedFallback twoJoined
  ∧ (size (players twoJoined) ≤ 100)%nat.
Proof.
  split; [exact twoJoined_reachable|].
  exact (proj1 (registry_within_capacity spiral25 unusedFallback twoJoined
                  twoJoined_reachable)).
Defined.

Lemma join_adds_sixteen_witness :
  reachable spiral25 unusedFallback oneJoined
  ∧ (size (players oneJoined) < MAX_PLAYERS)%nat
  ∧ viaSpiral spiral25 (board oneJoined)
  ∧ board oneJoined ⊆ board twoJoined
  ∧ size (board twoJoined) = (size (board oneJoined) + 16)%nat.
Proof.
  assert (Hroom : (size (players oneJoined) < MAX_PLAYERS)%nat)
    by (apply Nat.ltb_lt; vm_compute; reflexivity).
  assert (Hvia : viaSpiral spiral25 (board oneJoined))
    by (right; vm_compute; eexists; reflexivity).
  pose proof (join_adds_sixteen spiral25 unusedFallback oneJoined "s2" "Bob" "uuid-2"
                2000 oneJoined_reachable Hroom Hvia) as (Hsub & _ & Hsize).
  split; [exact oneJoined_reachable|]. split; [exact Hroom|]. split; [exact Hvia|].
  split; [exact Hsub|exact Hsize].
Defined.

(** ** The pieces of a new player *)

Definition toFound (p : Piece) : Library.Found :=
  Library.mkFound p (px p) (py p).

(** [!pieceType || piece.type === pieceType] *)
Definition typeAsked (pieceType : option PieceType) (p : Piece) : bool :=
  match pieceType with
  | None => true
  | Some t => bool_decide (ptype p = t)
  end.

(** The number of pieces of each type in a set. *)
Definition setSize (pieceType : option PieceType) : nat :=
  match pieceType with
  | None => 16
  | Some pawn => 8
  | Some rook | Some knight | Some bishop => 2
  | Some queen | Some king => 1
  end.

Lemma formation_count (x y : Z) (c : string) (pid : PlayerId)
    (pieceType : option PieceType) :
  length (filter (λ p, typeAsked pieceType p) (startingPieces x y c pid))
  = setSize pieceType.
Proof. destruct pieceType as [[]|]; reflexivity. Qed.

Section NewPlayer.
Variable spiralPoint : Z -> nat -> Z * Z.
Variable fallbackPosition : Z -> list (Z * Z) -> Z * Z.

(** X8.  After an accepted join under an id that owned no piece before,
    [findPieces] finds exactly one full set for the new player: sixteen
    pieces, of which eight pawns, two rooks, two knights, two bishops, one
    queen and one king, whether the anchor came from the spiral or from the
    fallback scan. *)
Theorem join_gives_full_set (st : State) (sock : SocketId) (playerName : string)
    (uuid : PlayerId) (now : Z) (pieceType : option PieceType) :
  (size (players st) < MAX_PLAYERS)%nat →
  (∀ k p, board st !! k = Some p → playerId p ≠ Some uuid) →
  let st' := (on_join_game spiralPoint fallbackPosition st sock playerName uuid now).1 in
  length (Library.findPieces (board st') uuid pieceType) = setSize pieceType.
Proof.
  intros Hroom Hfresh st'. subst st'.
  rewrite on_join_game_accepted by lia. cbn [fst joinedState board].
  set (pieces := formation spiralPoint fallbackPosition st uuid).
  assert (Hnd : NoDup (cellOf <$> pieces)) by apply startingPieces_cells_NoDup.
  rewrite <- (formation_count
                (findSpawnPosition spiralPoint fallbackPosition 25 (board st)).1
                (findSpawnPosition spiralPoint fallbackPosition 25 (board st)).2
                (colorAt (nextPlayerIndex st)) uuid pieceType).
  fold (formation spiralPoint fallbackPosition st uuid). fold pieces.
  rewrite <- (length_fmap toFound).
  apply Permutation_length, NoDup_Permutation.
  - apply Library.NoDup_findPieces.
  - apply NoDup_fmap_2_strong; [|by apply NoDup_filter, (NoDup_fmap_1 cellOf)].
    intros p q _ _ [= -> _ _]. done.
  - intros [p x y]. rewrite Library.elem_of_findPieces, list_elem_of_fmap. split.
    + intros (Hp & Hown & Hty).
      apply placePieces_lookup_Some in Hp as [[Hin Hcell]|Hold];
        [|by destruct (Hfresh _ _ Hold)].
      exists p. injection Hcell as <- <-. split; [done|].
      apply list_elem_of_filter. split; [|done].
      destruct pieceType as [t|]; [|done]. cbn. apply bool_decide_pack. by apply Hty.
    + intros (q & [= -> -> ->] & Hin). apply list_elem_of_filter in Hin as [Hty Hin].
      split; [by apply (placePieces_lookup_new pieces)|].
      split; [by apply startingPieces_owner in Hin as [? _]|].
      intros t ->. by apply bool_decide_unpack in Hty.
Qed.

End NewPlayer.

Lemma join_gives_full_set_witness :
  (size (players oneJoined) < MAX_PLAYERS)%nat
  ∧ (∀ k p, board oneJoined !! k = Some p → playerId p ≠ Some ("uuid-2" : PlayerId))
  ∧ length (Library.findPieces (board twoJoined) "uuid-2" (Some pawn)) = 8%nat.
Proof.
  assert (Hroom : (size (players oneJoined) < MAX_PLAYERS)%nat)
    by (apply Nat.ltb_lt; vm_compute; reflexivity).
  assert (Hfresh : ∀ k p, board oneJoined !! k = Some p →
                          playerId p ≠ Some ("uuid-2" : PlayerId)).
  { assert (Hall : Forall (λ kp : (Z * Z) * Piece,
                              playerId kp.2 ≠ Some ("uuid-2" : PlayerId))
                     (map_to_list (board oneJoined))).
    { apply (bool_decide_unpack _). vm_compute. exact I. }
    intros k p Hp. apply elem_of_map_to_list in Hp.
    exact (proj1 (Forall_forall _ _) Hall (k, p) Hp). }
  split; [exact Hroom|]. split; [exact Hfresh|].
  exact (join_gives_full_set spiral25 unusedFallback oneJoined "s2" "Bob" "uuid-2" 2000
           (Some pawn) Hroom Hfresh).
Defined.

(** ** Moving there and back *)

Lemma playerOf_same (st st' : State) (sock : SocketId) :
  players st' = players st → socketPlayerId st' = socketPlayerId st →
  playerOf st' sock = playerOf st sock.
Proof. unfold playerOf. by intros -> ->. Qed.

Section BackAndForth.
Variable spiralPoint : Z -> nat -> Z * Z.
Variable fallbackPosition : Z -> list (Z * Z) -> Z * Z.

(** X9.  In a reachable state, moving an own piece to an empty cell and then
    moving it back restores the whole state: the board, including the
    position stored in the piece, the registry and the sockets. *)
Theorem move_there_and_back (st : State) (sock : SocketId)
    (fromX fromY toX toY : Z) (player : Player) (piece : Piece) :
  reachable spiralPoint fallbackPosition st →
  playerOf st sock = Some player →
  board st !! (fromX, fromY) = Some piece →
  playerId piece = Some (id player) →
  board st !! (toX, toY) = None →
  (on_move_piece (on_move_piece st sock fromX fromY toX toY).1 sock
     toX toY fromX fromY).1 = st.
Proof.
  intros Hr Hpl Hp Hown Hfree.
  rewrite (on_move_piece_owned st sock fromX fromY toX toY player piece Hpl Hp Hown).
  cbn [fst].
  set (st1 := {| players := players st;
                 board := <[(toX, toY) := setXY piece toX toY]>
                            (delete (fromX, fromY) (board st));
                 nextPlayerIndex := nextPlayerIndex st;
                 socketPlayerId := socketPlayerId st |}).
  assert (Hpl1 : playerOf st1 sock = Some player)
    by (by rewrite (playerOf_same st st1)).
  assert (Hp1 : board st1 !! (toX, toY) = Some (setXY piece toX toY))
    by apply lookup_insert_eq.
  rewrite (on_move_piece_owned st1 sock toX toY fromX fromY player
             (setXY piece toX toY) Hpl1 Hp1 Hown).
  cbn [fst st1 players board nextPlayerIndex socketPlayerId].
  pose proof (reachable_keyedByPosition _ _ _ Hr _ _ Hp) as Hkey.
  injection Hkey as Hx Hy.
  assert (Hback : setXY (setXY piece toX toY) fromX fromY = piece)
    by (destruct piece; cbn in *; by subst).
  rewrite Hback.
  rewrite delete_insert_id by (rewrite lookup_delete_ne; [done|congruence]).
  rewrite insert_delete_eq, insert_id by done.
  by destruct st.
Qed.

End BackAndForth.

Lemma move_there_and_back_witness :
  let pawn01 := mkPiece pawn 0 1 "#FF0000" (Some "uuid-1"%string) in
  reachable spiral25 unusedFallback oneJoined
  ∧ playerOf oneJoined "s1" = Some alice
  ∧ board oneJoined !! (0, 1) = Some pawn01
  ∧ playerId pawn01 = Some (id alice)
  ∧ board oneJoined !! (0, 2) = None
  ∧ (on_move_piece (on_move_piece oneJoined "s1" 0 1 0 2).1 "s1" 0 2 0 1).1
    = oneJoined.
Proof.
  intros pawn01.
  assert (Hp : board oneJoined !! (0, 1) = Some pawn01) by (vm_compute; reflexivity).
  assert (Hown : playerId pawn01 = Some (id alice)) by reflexivity.
  assert (Hfree : board oneJoined !! (0, 2) = None) by (vm_compute; reflexivity).
  split; [exact oneJoined_reachable|]. split; [exact oneJoined_alice|].
  split; [exact Hp|]. split; [exact Hown|]. split; [exact Hfree|].
  exact (move_there_and_back spiral25 unusedFallback oneJoined "s1" 0 1 0 2 alice pawn01
           oneJoined_reachable oneJoined_alice Hp Hown Hfree).
Defined.

(** ** After a disconnect *)



(** ** A socket that joins twice *)

Definition joinsAs (u : PlayerId) (c : Command) : Prop :=
  match c with
  | join_game _ _ uuid _ => uuid = u
  | _ => False
  end.

(** Player [u] is registered and no socket object carries its id. *)
Definition stranded (st : State) (u : PlayerId) (pl : Player) : Prop :=
  players st !! u = Some pl ∧ ∀ s, socketPlayerId st !! s ≠ Some u.

Section Stranded.
Variable spiralPoint : Z -> nat -> Z * Z.
Variable fallbackPosition : Z -> list (Z * Z) -> Z * Z.

Lemma stranded_handle (st : State) (u : PlayerId) (pl : Player) (c : Command) :
  stranded st u pl → ¬ joinsAs u c →
  stranded (effect st (handle spiralPoint fallbackPosition st c)).1 u pl.
Proof.
  intros Hstr Hc. pose proof Hstr as [Hreg Hsock].
  by_command c; cbn [joinsAs] in *; [| |done|done|done|].
  - destruct (decide (MAX_PLAYERS ≤ size (players st))%nat) as [Hfull|Hroom].
    + by rewrite on_join_game_full.
    + rewrite on_join_game_accepted by done. cbn [fst]. split; cbn.
      * by rewrite lookup_insert_ne.
      * intros s. rewrite lookup_insert. case_decide; [congruence|apply Hsock].
  - unfold on_move_piece. destruct (playerOf st sock); [|done].
    destruct (board st !! (fX, fY)); [|done]. by case_bool_decide.
  - unfold on_disconnect. destruct (socketPlayerId st !! sock) as [pid|] eqn:Hs; [|done].
    destruct (players st !! pid); [|done]. cbn [fst]. split; cbn; [|done].
    rewrite lookup_delete_ne; [done|]. intros ->. by apply (Hsock sock).
Qed.

Lemma stranded_run (cs : list Command) (st : State) (u : PlayerId) (pl : Player) :
  stranded st u pl → Forall (λ c, ¬ joinsAs u c) cs →
  stranded (run spiralPoint fallbackPosition st cs) u pl.
Proof.
  revert st. induction cs as [|c cs IH]; intros st Hst Hcs; [done|].
  apply Forall_cons in Hcs as [Hc Hcs]. cbn [run].
  pose proof (stranded_handle st u pl c Hst Hc) as Hnext.
  destruct (handle _ _ st c) as [st' out| |]; [|done..].
  by apply IH.
Qed.

(** X11.  When one socket sends two accepted joins, the socket afterwards
    acts for the second player only, and the first player stays in the
    registry for good: whatever commands follow (moves, queries,
    disconnects, joins under other ids), the first player is never removed,
    so its place under [MAX_PLAYERS] is never freed. *)
Theorem second_join_strands_first (st : State) (sock : SocketId)
    (name1 name2 : string) (uuid1 uuid2 : PlayerId) (now1 now2 : Z)
    (cs : list Command) :
  (size (players st) + 1 < MAX_PLAYERS)%nat →
  uuid1 ≠ uuid2 →
  (∀ s, socketPlayerId st !! s ≠ Some uuid1) →
  Forall (λ c, ¬ joinsAs uuid1 c) cs →
  let st2 := run spiralPoint fallbackPosition st
               [ join_game sock name1 uuid1 now1; join_game sock name2 uuid2 now2 ] in
  (∃ second, playerOf st2 sock = Some second ∧ id second = uuid2)
  ∧ is_Some (players (run spiralPoint fallbackPosition st2 cs) !! uuid1).
Proof.
  intros Hroom Hne Hsock Hcs st2. subst st2. cbn [run handle returned].
  rewrite (on_join_game_accepted spiralPoint fallbackPosition st) by lia. cbn [fst].
  set (st1 := joinedState spiralPoint fallbackPosition st sock name1 uuid1 now1).
  assert (Hsize1 : (size (players st1) ≤ S (size (players st)))%nat).
  { unfold st1. cbn [joinedState players]. rewrite map_size_insert.
    destruct (players st !! uuid1); cbn; lia. }
  rewrite (on_join_game_accepted spiralPoint fallbackPosition st1) by lia. cbn [fst].
  set (st2 := joinedState spiralPoint fallbackPosition st1 sock name2 uuid2 now2).
  split.
  - exists (newPlayer st1 sock name2 uuid2 now2). split; [|done].
    unfold playerOf, st2. cbn [joinedState socketPlayerId players].
    rewrite lookup_insert_eq. cbn. apply lookup_insert_eq.
  - assert (Hst2 : stranded st2 uuid1 (newPlayer st sock name1 uuid1 now1)).
    { split.
      - unfold st2, st1. cbn [joinedState players].
        rewrite lookup_insert_ne by done. apply lookup_insert_eq.
      - intros s. unfold st2, st1. cbn [joinedState socketPlayerId].
        rewrite lookup_insert. case_decide; [congruence|].
        rewrite lookup_insert_ne by done. apply Hsock. }
    destruct (stranded_run cs st2 uuid1 _ Hst2 Hcs) as [Hreg _]. by eexists.
Qed.

End Stranded.

Lemma second_join_strands_first_witness :
  let later := [ disconnect "s1" 9000; move_piece "s1" 0 1 0 2 ] in
  (size (players initialState) + 1 < MAX_PLAYERS)%nat
  ∧ ("uuid-1" : PlayerId) ≠ "uuid-2"
  ∧ (∀ s, socketPlayerId initialState !! s ≠ Some ("uuid-1" : PlayerId))
  ∧ Forall (λ c, ¬ joinsAs "uuid-1" c) later
  ∧ is_Some (players
               (run spiral25 unusedFallback
                  (run spiral25 unusedFallback initialState
                     [ join_game "s1" "Alice" "uuid-1" 1000;
                       join_game "s1" "Alice" "uuid-2" 2000 ])
                  later) !! ("uuid-1" : PlayerId)).
Proof.
  intros later.
  assert (Hroom : (size (players initialState) + 1 < MAX_PLAYERS)%nat)
    by (apply Nat.ltb_lt; vm_compute; reflexivity).
  assert (Hne : ("uuid-1" : PlayerId) ≠ "uuid-2") by discriminate.
  assert (Hsock : ∀ s, socketPlayerId initialState !! s ≠ Some ("uuid-1" : PlayerId)).
  { intros s. cbn. by rewrite lookup_empty. }
  assert (Hcs : Forall (λ c, ¬ joinsAs "uuid-1" c) later)
    by (repeat constructor; intros []).
  split; [exact Hroom|]. split; [exact Hne|]. split; [exact Hsock|].
  split; [exact Hcs|].
  exact (proj2 (second_join_strands_first spiral25 unusedFallback initialState "s1"
                  "Alice" "Alice" "uuid-1" "uuid-2" 1000 2000 later
                  Hroom Hne Hsock Hcs)).
Defined.

(** ** The snapshot sent on joining *)

Lemma elem_of_activePieces (ps : gmap PlayerId Player) (b : Board) (q : Piece) :
  q ∈ activePieces ps b ↔
  ∃ x y p, b !! (x, y) = Some p ∧ activeOwner ps p ∧ q = setXY p x y.
Proof.
  unfold activePieces. rewrite list_elem_of_fmap. split.
  - intros ([[x y] p] & -> & Hin). apply list_elem_of_filter in Hin as [Hact Hin].
    apply elem_of_map_to_list in Hin. exists x, y, p.
    split; [done|]. split; [|done]. apply ownedByActive_spec.
    by apply Is_true_true.
  - intros (x & y & p & Hp & Hact & ->). exists ((x, y), p). split; [done|].
    apply list_elem_of_filter. split; [|by apply elem_of_map_to_list].
    apply Is_true_true. by apply ownedByActive_spec.
Qed.

Lemma NoDup_activePieces (ps : gmap PlayerId Player) (b : Board) :
  NoDup (activePieces ps b).
Proof.
  unfold activePieces.
  apply NoDup_fmap_2_strong; [|apply NoDup_filter, NoDup_map_to_list].
  intros [[x1 y1] p1] [[x2 y2] p2] H1 H2 Heq.
  apply list_elem_of_filter in H1 as [_ H1]. apply list_elem_of_filter in H2 as [_ H2].
  apply elem_of_map_to_list in H1, H2. cbn [fst snd] in Heq.
  assert (x1 = x2 ∧ y1 = y2) as [-> ->].
  { apply (f_equal px) in Heq as Hx. apply (f_equal py) in Heq as Hy. done. }
  rewrite H1 in H2. by injection H2 as ->.
Qed.

(** X12.  For bounds between [- 2 ^ 53] and [2 ^ 53 - 1] whose rectangle
    contains every piece, the section query answers, and its answer and the
    board snapshot in the [game-joined] answer hold the same pieces, each
    once: the pieces whose owner is registered, with the coordinates of
    their cells. *)
Theorem snapshot_agrees_with_section (ps : gmap PlayerId Player) (b : Board)
    (bounds : Bounds) :
  inRange bounds →
  (∀ x y p, b !! (x, y) = Some p → inBounds bounds x y) →
  ∃ answer, sectionPieces ps b bounds = Some answer
            ∧ activePieces ps b ≡ₚ answer.
Proof.
  intros Hrange Hin. exists (rectanglePieces ps b bounds).
  split; [by apply sectionPieces_exact|]. apply NoDup_Permutation.
  - apply NoDup_activePieces.
  - apply NoDup_rectanglePieces.
  - intros q. rewrite elem_of_activePieces, elem_of_rectanglePieces. split.
    + intros (x & y & p & Hp & Hact & ->). exists x, y, p.
      split; [by apply (Hin x y p)|done].
    + intros (x & y & p & _ & Hp & Hact & ->). by exists x, y, p.
Qed.

Lemma snapshot_agrees_with_section_witness :
  let b : Board := {[ (2, 3) := mkPiece rook 2 3 "#FF0000" (Some "uuid-1"%string) ]} in
  let around := mkBounds 0 5 0 5 in
  inRange around
  ∧ (∀ x y p, b !! (x, y) = Some p → inBounds around x y)
  ∧ ∃ answer, sectionPieces (players oneJoined) b around = Some answer
              ∧ activePieces (players oneJoined) b ≡ₚ answer.
Proof.
  intros b around.
  assert (Hrange : inRange around) by (unfold inRange; cbn; lia).
  assert (Hin : ∀ x y p, b !! (x, y) = Some p → inBounds around x y).
  { intros x y p Hp. apply lookup_singleton_Some in Hp as [[= <- <-] _].
    unfold inBounds. cbn. lia. }
  split; [exact Hrange|]. split; [exact Hin|].
  exact (snapshot_agrees_with_section (players oneJoined) b around Hrange Hin).
Defined.

(** ** When the spiral gives up *)

Section Exhaustion.
Variable spiralPoint : Z -> nat -> Z * Z.
Variable fallbackPosition : Z -> list (Z * Z) -> Z * Z.

Lemma spiralLoop_None (remaining : nat) (d : Z) (existing : list (Z * Z))
    (attempts : nat) :
  spiralLoop spiralPoint remaining d existing attempts = None ↔
  ∀ k, (k < remaining)%nat →
       validPosition d existing (candidate spiralPoint d (attempts + k)) = false.
Proof.
  revert attempts. induction remaining as [|remaining IH]; intros attempts; cbn [spiralLoop].
  - split; [intros _ k Hk; lia|done].
  - destruct (validPosition d existing (candidate spiralPoint d attempts)) eqn:Hv.
    + split; [done|]. intros Hall. specialize (Hall 0%nat ltac:(lia)).
      rewrite Nat.add_0_r in Hall. congruence.
    + rewrite IH. split.
      * intros Hall k Hk. destruct k as [|k]; [by rewrite Nat.add_0_r|].
        replace (attempts + S k)%nat with (S attempts + k)%nat by lia.
        apply Hall. lia.
      * intros Hall k Hk.
        replace (S attempts + k)%nat with (attempts + S k)%nat by lia.
        apply Hall. lia.
Qed.

(** X13.  On a board with pieces, [findSpawnPosition] reaches its fallback
    scan exactly when each of the [maxAttempts] (10000) spiral candidates is closer than 25
    to some piece; in every other case the position it returns is at
    distance at least 25 from every piece on the board. *)
Theorem fallback_only_when_exhausted (b : Board) :
  existingPositions b ≠ [] →
  (findSpawnPosition spiralPoint fallbackPosition 25 b
   = fallbackPosition 25 (existingPositions b)
   ∨ ∀ pos, occupied b pos →
            25 * 25 <= sqDist (findSpawnPosition spiralPoint fallbackPosition 25 b) pos)
  ∧ ((∃ k, (k < maxAttempts)%nat
           ∧ ∀ pos, occupied b pos → 25 * 25 <= sqDist (candidate spiralPoint 25 k) pos) →
     ∀ pos, occupied b pos →
            25 * 25 <= sqDist (findSpawnPosition spiralPoint fallbackPosition 25 b) pos)
  ∧ ((∀ k, (k < maxAttempts)%nat →
           ∃ pos, occupied b pos ∧ sqDist (candidate spiralPoint 25 k) pos < 25 * 25) →
     findSpawnPosition spiralPoint fallbackPosition 25 b
     = fallbackPosition 25 (existingPositions b)).
Proof.
  intros Hne.
  assert (Hfound : ∀ c, spiralLoop spiralPoint maxAttempts 25 (existingPositions b) 0
                        = Some c →
            findSpawnPosition spiralPoint fallbackPosition 25 b = c
            ∧ ∀ pos, occupied b pos → 25 * 25 <= sqDist c pos).
  { intros c Hc. split.
    - unfold findSpawnPosition. destruct (existingPositions b); [done|]. by rewrite Hc.
    - destruct (spiralLoop_first _ _ _ _ _ _ Hc) as (k & _ & _ & Hv & _).
      intros pos Hpos. apply (proj1 (validPosition_spec _ _ _) Hv).
      by apply elem_of_existingPositions. }
  assert (Hnone : spiralLoop spiralPoint maxAttempts 25 (existingPositions b) 0 = None →
            findSpawnPosition spiralPoint fallbackPosition 25 b
            = fallbackPosition 25 (existingPositions b)).
  { intros Hn. unfold findSpawnPosition. destruct (existingPositions b); [done|].
    by rewrite Hn. }
  destruct (spiralLoop spiralPoint maxAttempts 25 (existingPositions b) 0)
    as [c|] eqn:Hloop.
  - destruct (Hfound c eq_refl) as [-> Hfar]. split; [by right|]. split; [done|].
    intros Hall. exfalso.
    destruct (spiralLoop_first _ _ _ _ _ _ Hloop) as (k & Hk & -> & Hv & _).
    destruct (Hall k ltac:(lia)) as (pos & Hpos & Hnear).
    specialize (Hfar pos Hpos). cbn [Nat.add] in *. lia.
  - split; [left; by apply Hnone|]. split; [|intros _; by apply Hnone].
    intros (k & Hk & Hfar). exfalso.
    pose proof (proj1 (spiralLoop_None _ _ _ _) Hloop k ltac:(lia)) as Hv.
    cbn [Nat.add] in Hv. apply validPosition_false in Hv as (pos & Hpos & Hnear).
    apply elem_of_existingPositions in Hpos. specialize (Hfar pos Hpos). lia.
Qed.

End Exhaustion.

Lemma fallback_only_when_exhausted_witness :
  existingPositions (board oneJoined) ≠ []
  ∧ ∀ pos, occupied (board oneJoined) pos →
           25 * 25 <= sqDist (findSpawnPosition spiral25 unusedFallback 25
                                (board oneJoined)) pos.
Proof.
  assert (Hne : existingPositions (board oneJoined) ≠ [])
    by (vm_compute; discriminate).
  split; [exact Hne|].
  apply (proj1 (proj2 (fallback_only_when_exhausted spiral25 unusedFallback
                         (board oneJoined) Hne))).
  exists 12%nat. split; [apply Nat.ltb_lt; vm_compute; reflexivity|]. intros pos Hpos.
  apply elem_of_existingPositions in Hpos.
  assert (Hall : Forall (λ pos, 25 * 25 <= sqDist (candidate spiral25 25 12) pos)
                   (existingPositions (board oneJoined))).
  { apply (bool_decide_unpack _). vm_compute. exact I. }
  exact (proj1 (Forall_forall _ _) Hall pos Hpos).
Defined.

End Play.

(** * The client: main.js, board.js and ui.js *)

Module Client.
Import Server Engine.

(** ** The board of a client: class GameBoard *)

(** The fields of a [GameBoard] that its move logic reads and writes.
    [selectedPiece] is the object [{ piece, x, y }]; the cooldown timer is a
    flag, set here and cleared by the timer event. *)
Record GameBoard := mkGameBoard {
  pieces : Board;
  player : Player;
  selectedPiece : option (Piece * Z * Z);
  validMoves : list (Z * Z);
  isOnCooldown : bool
}.

(** [loadBoardPieces(boardData)]: clear the map, then store every piece under
    the key of its own [x] and [y]. *)
Definition loadBoardPieces (boardData : list Piece) : Board :=
  placePieces boardData ∅.

(** [new GameBoard(socket, initialBoard, player)] *)
Definition newGameBoard (initialBoard : list Piece) (pl : Player) : GameBoard :=
  {| pieces := loadBoardPieces initialBoard; player := pl;
     selectedPiece := None; validMoves := []; isOnCooldown := false |}.


(** [getPieceAt(x, y)] *)
Definition getPieceAt (gb : GameBoard) (x y : Z) : option Piece :=
  pieces gb !! (x, y).

(** [piece.playerId !== this.player.id] *)
Definition notMine (gb : GameBoard) (p : Piece) : bool :=
  negb (bool_decide (playerId p = Some (id (player gb)))).

(** The first loop of [calculateValidMoves]: the empty cells among the eight
    neighbours. *)
Definition adjacentEmpty (gb : GameBoard) (x y : Z) : list (Z * Z) :=
  dx ← seqZ (-1) 3;
  dy ← seqZ (-1) 3;
  if (dx =? 0) && (dy =? 0) then []
  else match getPieceAt gb (Number.add x dx) (Number.add y dy) with
       | None => [ (Number.add x dx, Number.add y dy) ]
       | Some _ => []
       end.

(** The inner loop of [addLinearMoves] in one direction, from step [i] on,
    with [steps] iterations left: it stops at the first piece, which it
    offers when the piece is not the player's. *)
Fixpoint linearRay (steps : nat) (gb : GameBoard) (x y dx dy i : Z) : list (Z * Z) :=
  match steps with
  | O => []
  | S steps' =>
      let cell := (Number.add x (dx * i), Number.add y (dy * i)) in
      match getPieceAt gb cell.1 cell.2 with
      | None => cell :: linearRay steps' gb x y dx dy (i + 1)
      | Some p => if notMine gb p then [cell] else []
      end
  end.

(** [addLinearMoves(x, y, directions)] *)
Definition addLinearMoves (gb : GameBoard) (x y : Z) (directions : list (Z * Z))
    : list (Z * Z) :=
  d ← directions; linearRay 7 gb x y d.1 d.2 1.

Definition knightMoves : list (Z * Z) :=
  [ (2, 1); (2, -1); (-2, 1); (-2, -1); (1, 2); (1, -2); (-1, 2); (-1, -2) ].

(** [addKnightMoves(x, y)] *)
Definition addKnightMoves (gb : GameBoard) (x y : Z) : list (Z * Z) :=
  d ← knightMoves;
  match getPieceAt gb (Number.add x d.1) (Number.add y d.2) with
  | None => [ (Number.add x d.1, Number.add y d.2) ]
  | Some p =>
      if notMine gb p then [ (Number.add x d.1, Number.add y d.2) ] else []
  end.

Definition straight : list (Z * Z) := [ (1, 0); (-1, 0); (0, 1); (0, -1) ].
Definition diagonal : list (Z * Z) := [ (1, 1); (-1, 1); (1, -1); (-1, -1) ].

(** [calculateValidMoves(piece, x, y)]: the list it leaves in
    [this.validMoves]. *)
Definition calculateValidMoves (gb : GameBoard) (piece : Piece) (x y : Z)
    : list (Z * Z) :=
  adjacentEmpty gb x y ++
  match ptype piece with
  | rook => addLinearMoves gb x y straight
  | bishop => addLinearMoves gb x y diagonal
  | queen => addLinearMoves gb x y (straight ++ diagonal)
  | knight => addKnightMoves gb x y
  | pawn | king => []
  end.

(** [selectPiece(piece, x, y)] *)
Definition selectPiece (gb : GameBoard) (piece : Piece) (x y : Z) : GameBoard :=
  {| pieces := pieces gb; player := player gb;
     selectedPiece := Some (piece, x, y);
     validMoves := calculateValidMoves gb piece x y;
     isOnCooldown := isOnCooldown gb |}.

(** [deselectPiece()] *)
Definition deselectPiece (gb : GameBoard) : GameBoard :=
  {| pieces := pieces gb; player := player gb; selectedPiece := None;
     validMoves := []; isOnCooldown := isOnCooldown gb |}.

(** The payload [{ fromX, fromY, toX, toY }] of an emitted [move-piece]. *)
Record MoveData := mkMoveData { mFromX : Z; mFromY : Z; mToX : Z; mToY : Z }.

(** [tryMovePiece(toX, toY)]: the new board object and the emitted move. *)
Definition tryMovePiece (gb : GameBoard) (toX toY : Z) : GameBoard * option MoveData :=
  match selectedPiece gb with
  | None => (gb, None)
  | Some (_, fromX, fromY) =>
      if bool_decide ((toX, toY) ∈ validMoves gb) then
        (deselectPiece gb, Some (mkMoveData fromX fromY toX toY))
      else (gb, None)
  end.



(** ** The player list of a client: class GameUI *)






(** ** The application: class Chess2App *)




(** ** The moves a client offers *)

(** The cell is empty, or holds a piece that is not the player's. *)
Definition freeOrFoe (gb : GameBoard) (c : Z * Z) : Prop :=
  match getPieceAt gb c.1 c.2 with
  | None => True
  | Some q => playerId q ≠ Some (id (player gb))
  end.

Lemma notMine_spec (gb : GameBoard) (p : Piece) :
  notMine gb p = true ↔ playerId p ≠ Some (id (player gb)).
Proof. unfold notMine. by rewrite negb_true_iff, bool_decide_eq_false. Qed.

Lemma elem_of_adjacentEmpty (gb : GameBoard) (x y tx ty : Z) :
  Number.safe x → Number.safe y →
  (tx, ty) ∈ adjacentEmpty gb x y ↔
  Rules.span x y tx ty = 1 ∧ getPieceAt gb tx ty = None.
Proof.
  unfold Number.safe. intros Hx Hy.
  unfold adjacentEmpty, Rules.span. rewrite list_elem_of_bind. split.
  - intros (dx & H & Hdx). apply elem_of_seqZ in Hdx.
    apply list_elem_of_bind in H as (dy & H & Hdy). apply elem_of_seqZ in Hdy.
    destruct ((dx =? 0) && (dy =? 0)) eqn:Hz; [by apply elem_of_nil in H|].
    rewrite !NumberFacts.add_exact in H by lia.
    destruct (getPieceAt gb (x + dx) (y + dy)) eqn:Hp; [by apply elem_of_nil in H|].
    apply list_elem_of_singleton in H as [= -> ->]. split; [lia|done].
  - intros [Hs Hp]. exists (tx - x). split; [|apply elem_of_seqZ; lia].
    apply list_elem_of_bind. exists (ty - y). split; [|apply elem_of_seqZ; lia].
    replace ((tx - x =? 0) && (ty - y =? 0)) with false by lia.
    rewrite !NumberFacts.add_exact by lia.
    replace (x + (tx - x)) with tx by lia. replace (y + (ty - y)) with ty by lia.
    rewrite Hp. by apply list_elem_of_singleton.
Qed.

Lemma elem_of_linearRay (steps : nat) (gb : GameBoard) (x y dx dy i : Z) (c : Z * Z) :
  Number.safe x → Number.safe y →
  -1 <= dx <= 1 → -1 <= dy <= 1 →
  0 <= i → i + Z.of_nat steps <= 8 →
  c ∈ linearRay steps gb x y dx dy i ↔
  ∃ j, i <= j < i + Z.of_nat steps
       ∧ c = (x + dx * j, y + dy * j)
       ∧ (∀ k, i <= k < j → getPieceAt gb (x + dx * k) (y + dy * k) = None)
       ∧ freeOrFoe gb c.
Proof.
  unfold Number.safe. intros Hx Hy Hdx Hdy.
  revert i. induction steps as [|steps IH]; intros i Hi Hsteps; cbn [linearRay].
  - split; [by intros ?%elem_of_nil|]. intros (j & Hj & _). lia.
  - cbn [fst snd]. rewrite !NumberFacts.add_exact by nia.
    destruct (getPieceAt gb (x + dx * i) (y + dy * i)) as [p|] eqn:Hp.
    + split.
      * intros Hin. destruct (notMine gb p) eqn:Hfoe; [|by apply elem_of_nil in Hin].
        apply list_elem_of_singleton in Hin as ->. exists i.
        split; [lia|]. split; [done|]. split; [intros k Hk; lia|].
        unfold freeOrFoe. cbn [fst snd]. rewrite Hp. by apply notMine_spec.
      * intros (j & Hj & -> & Hclear & Hfoe).
        destruct (decide (j = i)) as [->|Hne].
        -- unfold freeOrFoe in Hfoe. cbn [fst snd] in Hfoe. rewrite Hp in Hfoe.
           apply notMine_spec in Hfoe. rewrite Hfoe. by apply list_elem_of_singleton.
        -- rewrite (Hclear i) in Hp by lia. done.
    + rewrite elem_of_cons, IH by lia. split.
      * intros [->|(j & Hj & -> & Hclear & Hfoe)].
        -- exists i. split; [lia|]. split; [done|]. split; [intros k Hk; lia|].
           unfold freeOrFoe. cbn [fst snd]. by rewrite Hp.
        -- exists j. split; [lia|]. split; [done|]. split; [|done].
           intros k Hk. destruct (decide (k = i)) as [->|Hne]; [done|].
           apply Hclear. lia.
      * intros (j & Hj & -> & Hclear & Hfoe).
        destruct (decide (j = i)) as [->|Hne]; [by left|]. right.
        exists j. split; [lia|]. split; [done|]. split; [|done].
        intros k Hk. apply Hclear. lia.
Qed.

Lemma elem_of_addKnightMoves (gb : GameBoard) (x y tx ty : Z) :
  Number.safe x → Number.safe y →
  (tx, ty) ∈ addKnightMoves gb x y ↔
  Rules.patternRule knight (tx - x) (ty - y) ∧ freeOrFoe gb (tx, ty).
Proof.
  unfold Number.safe. intros Hx Hy.
  unfold addKnightMoves, freeOrFoe. rewrite list_elem_of_bind. cbn [fst snd]. split.
  - intros ([dx dy] & H & Hd). cbn [fst snd] in H.
    assert (Hpat : Rules.patternRule knight dx dy).
    { unfold knightMoves in Hd.
      repeat (apply elem_of_cons in Hd as [[= -> ->]|Hd]; [cbn; lia|]).
      by apply elem_of_nil in Hd. }
    rewrite !NumberFacts.add_exact in H by (cbn in Hpat; lia).
    destruct (getPieceAt gb (x + dx) (y + dy)) as [p|] eqn:Hp.
    + destruct (notMine gb p) eqn:Hfoe; [|by apply elem_of_nil in H].
      apply list_elem_of_singleton in H as [= -> ->].
      replace (x + dx - x) with dx by lia. replace (y + dy - y) with dy by lia.
      rewrite Hp. split; [done|]. by apply notMine_spec.
    + apply list_elem_of_singleton in H as [= -> ->].
      replace (x + dx - x) with dx by lia. replace (y + dy - y) with dy by lia.
      by rewrite Hp.
  - intros [Hpat Hfoe]. exists (tx - x, ty - y). cbn [fst snd].
    rewrite !NumberFacts.add_exact by (cbn in Hpat; lia).
    replace (x + (tx - x)) with tx by lia. replace (y + (ty - y)) with ty by lia.
    split.
    + destruct (getPieceAt gb tx ty) as [p|]; [|by apply list_elem_of_singleton].
      apply notMine_spec in Hfoe. rewrite Hfoe. by apply list_elem_of_singleton.
    + unfold knightMoves. cbn in Hpat. clear Hfoe. revert Hpat.
      generalize (tx - x), (ty - y). intros dx dy Hpat.
      assert (Hc : (dx = 2 ∨ dx = -2 ∨ dx = 1 ∨ dx = -1)
                   ∧ (dy = 2 ∨ dy = -2 ∨ dy = 1 ∨ dy = -1)) by lia.
      destruct Hc as [ [ -> | [ -> | [ -> | -> ] ] ] [ -> | [ -> | [ -> | -> ] ] ] ];
        first [ solve [Library.pick_cell] | exfalso; lia ].
Qed.

(** A cell reached by a ray of at most seven steps in one of the given
    directions. *)
Lemma elem_of_addLinearMoves (gb : GameBoard) (x y : Z) (directions : list (Z * Z))
    (c : Z * Z) :
  Number.safe x → Number.safe y →
  (∀ d, d ∈ directions → -1 <= d.1 <= 1 ∧ -1 <= d.2 <= 1) →
  c ∈ addLinearMoves gb x y directions ↔
  ∃ d j, d ∈ directions ∧ 1 <= j <= 7
         ∧ c = (x + d.1 * j, y + d.2 * j)
         ∧ (∀ k, 1 <= k < j → getPieceAt gb (x + d.1 * k) (y + d.2 * k) = None)
         ∧ freeOrFoe gb c.
Proof.
  intros Hx Hy Hunit. unfold addLinearMoves. rewrite list_elem_of_bind. split.
  - intros (d & Hin & Hd). destruct (Hunit d Hd) as [H1 H2].
    apply elem_of_linearRay in Hin as (j & Hj & Hc & Hclear & Hfoe); [|done..|lia|lia].
    exists d, j. split; [done|]. split; [lia|done].
  - intros (d & j & Hd & Hj & Hc & Hclear & Hfoe). exists d. split; [|done].
    destruct (Hunit d Hd) as [H1 H2].
    apply elem_of_linearRay; [done..|lia|lia|]. exists j. split; [lia|done].
Qed.

Lemma direction_unit (directions : list (Z * Z)) (d : Z * Z) :
  directions = straight ∨ directions = diagonal ∨ directions = straight ++ diagonal →
  d ∈ directions →
  Z.max (Z.abs d.1) (Z.abs d.2) = 1.
Proof.
  intros Hdirs Hd.
  assert (Hall : d ∈ straight ++ diagonal).
  { destruct Hdirs as [->|[->| ->]]; [apply elem_of_app; by left
                                     |apply elem_of_app; by right|done]. }
  unfold straight, diagonal in Hall. cbn [app] in Hall.
  repeat (apply elem_of_cons in Hall as [->|Hall]; [cbn; lia|]).
  by apply elem_of_nil in Hall.
Qed.

Lemma direction_steps (directions : list (Z * Z)) :
  directions = straight ∨ directions = diagonal ∨ directions = straight ++ diagonal →
  ∀ d, d ∈ directions → -1 <= d.1 <= 1 ∧ -1 <= d.2 <= 1.
Proof.
  intros Hdirs d Hd. pose proof (direction_unit directions d Hdirs Hd). lia.
Qed.

(** X14.  Whatever the selected piece, standing on a cell with coordinates
    of magnitude at most [2 ^ 52], every cell [calculateValidMoves] offers
    is a cell other than the one the piece stands on, at most seven steps
    away, and empty or occupied by a piece that is not the player's: the
    client never offers a move onto one of the player's own pieces. *)
Theorem offered_moves_safe (gb : GameBoard) (piece : Piece) (x y tx ty : Z) :
  Number.safe x → Number.safe y →
  (tx, ty) ∈ calculateValidMoves gb piece x y →
  (tx, ty) ≠ (x, y)
  ∧ 1 <= Rules.span x y tx ty <= 7
  ∧ freeOrFoe gb (tx, ty).
Proof.
  intros Hx Hy.
  unfold calculateValidMoves. rewrite elem_of_app. intros [Hadj|Hspecial].
  - apply elem_of_adjacentEmpty in Hadj as [Hs Hp]; [|done..].
    split; [intros [= -> ->]; unfold Rules.span in Hs; lia|]. split; [lia|].
    unfold freeOrFoe. cbn [fst snd]. by rewrite Hp.
  - assert (Hray : ∀ directions,
              directions = straight ∨ directions = diagonal
              ∨ directions = straight ++ diagonal →
              (tx, ty) ∈ addLinearMoves gb x y directions →
              (tx, ty) ≠ (x, y) ∧ 1 <= Rules.span x y tx ty <= 7
              ∧ freeOrFoe gb (tx, ty)).
    { intros directions Hdirs Hin.
      apply elem_of_addLinearMoves in Hin
        as (d & j & Hd & Hj & [= -> ->] & _ & Hfoe);
        [|done|done|by apply direction_steps].
      pose proof (direction_unit directions d Hdirs Hd) as Hunit.
      unfold Rules.span. split; [intros [= Ex Ey]; nia|]. split; [nia|done]. }
    destruct (ptype piece).
    + by apply elem_of_nil in Hspecial.
    + apply (Hray straight); auto.
    + apply elem_of_addKnightMoves in Hspecial as [Hpat Hfoe]; [|done..].
      cbn in Hpat.
      unfold Rules.span. split; [intros [= -> ->]; lia|]. split; [lia|done].
    + apply (Hray diagonal); auto.
    + apply (Hray (straight ++ diagonal)); auto.
    + by apply elem_of_nil in Hspecial.
Qed.

Lemma offered_moves_safe_witness :
  let gb := newGameBoard (activePieces (players oneJoined) (board oneJoined)) alice in
  let rook30 := mkPiece rook (-3) 0 "#FF0000" (Some "uuid-1"%string) in
  (Number.safe (-3) ∧ Number.safe 0)
  ∧ (-3, -7) ∈ calculateValidMoves gb rook30 (-3) 0
  ∧ (-3, -7) ≠ ((-3, 0) : Z * Z)
  ∧ 1 <= Rules.span (-3) 0 (-3) (-7) <= 7.
Proof.
  intros gb rook30.
  assert (H3 : Number.safe (-3)) by (apply safe_small; lia).
  assert (H0 : Number.safe 0) by (apply safe_small; lia).
  assert (Hin : (-3, -7) ∈ calculateValidMoves gb rook30 (-3) 0).
  { apply (bool_decide_unpack _). vm_compute. exact I. }
  split; [done|]. split; [exact Hin|].
  destruct (offered_moves_safe gb rook30 (-3) 0 (-3) (-7) H3 H0 Hin)
    as (Hne & Hspan & _).
  split; [exact Hne|exact Hspan].
Defined.

(** Beyond [2 ^ 53] the bound of seven steps is lost: for a bishop on
    [(2 ^ 53 + 4, 0)] of an empty mirror the seventh step of a diagonal ray,
    [(2 ^ 53 + 4) + 7], is [2 ^ 53 + 12], eight cells away. *)
Lemma bishop_offer_beyond_two_pow_53 :
  let gb := newGameBoard [] alice in
  let b := mkPiece bishop (2 ^ 53 + 4) 0 "#FF0000" (Some "uuid-1"%string) in
  Number.add (2 ^ 53 + 4) 7 = 2 ^ 53 + 12
  ∧ (2 ^ 53 + 12, 7) ∈ calculateValidMoves gb b (2 ^ 53 + 4) 0
  ∧ Rules.span (2 ^ 53 + 4) 0 (2 ^ 53 + 12) 7 = 8.
Proof.
  split; [reflexivity|]. split; [|reflexivity].
  apply (bool_decide_unpack _). vm_compute. exact I.
Qed.

(** ** A move the client sends *)

(** X16.  When the mirror of a client is part of the server's board, the
    client's player is the player registered for its socket, and the
    selection is the player's own piece as the mirror shows it, every move
    [tryMovePiece] emits starts on the selected cell, ends on an offered
    cell, and is applied by the server. *)
Theorem client_move_applied (st : State) (sock : SocketId) (gb : GameBoard)
    (piece : Piece) (x y toX toY : Z) (m : MoveData) :
  pieces gb ⊆ board st →
  playerOf st sock = Some (player gb) →
  selectedPiece gb = Some (piece, x, y) →
  pieces gb !! (x, y) = Some piece →
  playerId piece = Some (id (player gb)) →
  (tryMovePiece gb toX toY).2 = Some m →
  m = mkMoveData x y toX toY
  ∧ (toX, toY) ∈ validMoves gb
  ∧ moveApplied st sock (mFromX m) (mFromY m) (mToX m) (mToY m).
Proof.
  intros Hsub Hpl Hsel Hp Hown Hemit. unfold tryMovePiece in Hemit.
  rewrite Hsel in Hemit. case_bool_decide as Hoffered; [|done].
  cbn in Hemit. injection Hemit as <-. split; [done|]. split; [done|].
  cbn [mFromX mFromY mToX mToY]. exists (player gb), piece.
  assert (Hserver : board st !! (x, y) = Some piece)
    by (by apply (lookup_weaken (pieces gb))).
  split; [done|]. split; [done|]. by apply on_move_piece_owned.
Qed.

Definition aliceBoard : GameBoard :=
  newGameBoard (activePieces (players oneJoined) (board oneJoined)) alice.

Lemma aliceBoard_pieces : pieces aliceBoard = board oneJoined.
Proof. vm_compute. reflexivity. Qed.

Lemma client_move_applied_witness :
  let rook30 := mkPiece rook (-3) 0 "#FF0000" (Some "uuid-1"%string) in
  let gb := selectPiece aliceBoard rook30 (-3) 0 in
  pieces gb ⊆ board oneJoined
  ∧ playerOf oneJoined "s1" = Some (player gb)
  ∧ selectedPiece gb = Some (rook30, -3, 0)
  ∧ pieces gb !! (-3, 0) = Some rook30
  ∧ playerId rook30 = Some (id (player gb))
  ∧ (tryMovePiece gb (-3) (-7)).2 = Some (mkMoveData (-3) 0 (-3) (-7))
  ∧ moveApplied oneJoined "s1" (-3) 0 (-3) (-7).
Proof.
  intros rook30 gb.
  assert (Hsub : pieces gb ⊆ board oneJoined).
  { change (pieces gb) with (pieces aliceBoard). by rewrite aliceBoard_pieces. }
  assert (Hpl : playerOf oneJoined "s1" = Some (player gb)) by exact oneJoined_alice.
  assert (Hsel : selectedPiece gb = Some (rook30, -3, 0)) by reflexivity.
  assert (Hp : pieces gb !! (-3, 0) = Some rook30) by (vm_compute; reflexivity).
  assert (Hown : playerId rook30 = Some (id (player gb))) by reflexivity.
  assert (Hemit : (tryMovePiece gb (-3) (-7)).2 = Some (mkMoveData (-3) 0 (-3) (-7)))
    by (vm_compute; reflexivity).
  split; [exact Hsub|]. split; [exact Hpl|]. split; [exact Hsel|].
  split; [exact Hp|]. split; [exact Hown|]. split; [exact Hemit|].
  exact (proj2 (proj2 (client_move_applied oneJoined "s1" gb rook30 (-3) 0 (-3) (-7)
                         (mkMoveData (-3) 0 (-3) (-7)) Hsub Hpl Hsel Hp Hown Hemit))).
Defined.

(** ** The client and the rule library *)

Lemma sgn_unit_step (d j : Z) : -1 <= d <= 1 → 1 <= j → Z.sgn (d * j) = d.
Proof. intros Hd Hj. assert (d = -1 ∨ d = 0 ∨ d = 1) as [->|[->| ->]] by lia; lia. Qed.

(** X15.  For a queen of the player on a cell with coordinates of magnitude
    at most [2 ^ 52], [ChessGame.getValidMoves] returns on the mirror, and
    the cells the client offers are exactly the moves it lists. *)
Theorem queen_offers_match_rules (gb : GameBoard) (q : Piece) (x y : Z) :
  Number.safe x → Number.safe y →
  pieces gb !! (x, y) = Some q →
  ptype q = queen →
  playerId q = Some (id (player gb)) →
  ∃ moves,
    Library.getValidMoves 8 q x y (pieces gb) = Ok moves
    ∧ ∀ c, c ∈ calculateValidMoves gb q x y ↔ c ∈ moves.
Proof.
  intros Hx Hy Hq Hty Hown.
  destruct (Library.getValidMoves_spec 8 q x y (pieces gb) Hx Hy Hq ltac:(lia))
    as (moves & Hmoves & Hiff).
  exists moves. split; [done|]. intros [tx ty]. rewrite Hiff, Hty.
  unfold calculateValidMoves. rewrite Hty, elem_of_app.
  rewrite elem_of_adjacentEmpty by done.
  rewrite elem_of_addLinearMoves by (try done; apply direction_steps; auto).
  unfold Rules.span, Rules.pathClear, Rules.captureOk, Rules.cellAt, Rules.span,
    freeOrFoe, getPieceAt. cbn [Rules.patternRule fst snd]. rewrite Hown.
  split.
  - intros [[Hs Hp]|(d & j & Hd & Hj & [= -> ->] & Hclear & Hfoe)].
    + split; [lia|]. split; [lia|]. split.
      * intros _ k Hk. lia.
      * intros _. by rewrite Hp.
    + pose proof (direction_unit (straight ++ diagonal) d ltac:(auto) Hd) as Hunit.
      replace (x + d.1 * j - x) with (d.1 * j) by lia.
      replace (y + d.2 * j - y) with (d.2 * j) by lia.
      split; [nia|]. split; [nia|]. split.
      * intros _ k Hk. rewrite !sgn_unit_step by lia.
        replace (k * d.1) with (d.1 * k) by lia. replace (k * d.2) with (d.2 * k) by lia.
        apply Hclear. nia.
      * intros _. done.
  - intros (Hs & Hpat & Hclear & Hcap).
    specialize (Hclear ltac:(right; by right)).
    specialize (Hcap ltac:(right; right; by right)).
    right. exists (Z.sgn (tx - x), Z.sgn (ty - y)),
             (Z.max (Z.abs (tx - x)) (Z.abs (ty - y))).
    cbn [fst snd]. split; [|split; [lia|split; [f_equal; lia|split]]].
    + unfold straight, diagonal. cbn [app].
      assert (Hc : (Z.sgn (tx - x) = 1 ∨ Z.sgn (tx - x) = -1 ∨ Z.sgn (tx - x) = 0)
                   ∧ (Z.sgn (ty - y) = 1 ∨ Z.sgn (ty - y) = -1 ∨ Z.sgn (ty - y) = 0)
                   ∧ ¬ (Z.sgn (tx - x) = 0 ∧ Z.sgn (ty - y) = 0)) by lia.
      revert Hc. generalize (Z.sgn (tx - x)), (Z.sgn (ty - y)). intros sx sy Hc.
      destruct Hc as ( [ -> | [ -> | -> ] ] & [ -> | [ -> | -> ] ] & Hnz );
        first [ solve [Library.pick_cell] | exfalso; lia ].
    + intros k Hk.
      replace (Z.sgn (tx - x) * k) with (k * Z.sgn (tx - x)) by lia.
      replace (Z.sgn (ty - y) * k) with (k * Z.sgn (ty - y)) by lia.
      apply Hclear. lia.
    + replace (x + Z.sgn (tx - x) * Z.max (Z.abs (tx - x)) (Z.abs (ty - y))) with tx by lia.
      replace (y + Z.sgn (ty - y) * Z.max (Z.abs (tx - x)) (Z.abs (ty - y))) with ty by lia.
      done.
Qed.

Lemma queen_offers_match_rules_witness :
  let q := mkPiece queen 0 0 "#FF0000" (Some "uuid-1"%string) in
  Number.safe 0
  ∧ pieces aliceBoard !! (0, 0) = Some q
  ∧ ptype q = queen
  ∧ playerId q = Some (id (player aliceBoard))
  ∧ ∃ moves,
      Library.getValidMoves 8 q 0 0 (pieces aliceBoard) = Ok moves
      ∧ ∀ c, c ∈ calculateValidMoves aliceBoard q 0 0 ↔ c ∈ moves.
Proof.
  intros q.
  assert (Hq : pieces aliceBoard !! (0, 0) = Some q) by (vm_compute; reflexivity).
  assert (Hty : ptype q = queen) by reflexivity.
  assert (Hown : playerId q = Some (id (player aliceBoard))) by reflexivity.
  assert (H0 : Number.safe 0) by (apply safe_small; lia).
  split; [exact H0|]. split; [exact Hq|]. split; [exact Hty|]. split; [exact Hown|].
  exact (queen_offers_match_rules aliceBoard q 0 0 H0 H0 Hq Hty Hown).
Defined.

(** The neighbour on which client and rules disagree for the other types. *)
Definition oddNeighbour (t : PieceType) : Z * Z :=
  match t with
  | bishop => (1, 0)
  | _ => (1, 1)
  end.

(** X17.  For a pawn, rook, knight or bishop on a cell with coordinates of
    magnitude at most [2 ^ 52] the client offers more than the rules allow:
    whenever the neighbour cell in direction [oddNeighbour] (diagonal for
    pawn, rook and knight, straight for the bishop) is empty, the client
    offers it and [ChessGame.validateMove] rejects it. *)
Theorem client_offers_more_than_rules (gb : GameBoard) (p : Piece) (x y : Z)
    (fuel : nat) :
  Number.safe x → Number.safe y →
  ptype p ≠ queen → ptype p ≠ king →
  let c := (x + (oddNeighbour (ptype p)).1, y + (oddNeighbour (ptype p)).2) in
  getPieceAt gb c.1 c.2 = None →
  c ∈ calculateValidMoves gb p x y
  ∧ ChessGame.validateMove fuel (Some p) x y c.1 c.2 (pieces gb) = Ok false.
Proof.
  intros Hx Hy Hq Hk c Hfree. subst c. split.
  - unfold calculateValidMoves. apply elem_of_app. left.
    apply elem_of_adjacentEmpty; [done..|]. split; [|done].
    unfold Rules.span. destruct (ptype p); cbn; lia.
  - unfold ChessGame.validateMove, Number.safe in *.
    destruct (ptype p) eqn:Hty; try done; cbn [oddNeighbour fst snd];
      rewrite !NumberFacts.sub_exact by lia.
    + unfold ChessGame.validatePawnMove.
      replace (x + 1 - x) with 1 by lia. replace (y + 1 - y) with 1 by lia. done.
    + unfold ChessGame.validateRookMove.
      replace (x + 1 - x) with 1 by lia. replace (y + 1 - y) with 1 by lia. done.
    + unfold ChessGame.validateKnightMove.
      replace (x + 1 - x) with 1 by lia. replace (y + 1 - y) with 1 by lia. done.
    + unfold ChessGame.validateBishopMove.
      replace (x + 1 - x) with 1 by lia. replace (y + 0 - y) with 0 by lia. done.
Qed.

Lemma client_offers_more_than_rules_witness :
  let pawn41 := mkPiece pawn 4 1 "#FF0000" (Some "uuid-1"%string) in
  (Number.safe 4 ∧ Number.safe 1)
  ∧ ptype pawn41 ≠ queen
  ∧ ptype pawn41 ≠ king
  ∧ getPieceAt aliceBoard (4 + 1) (1 + 1) = None
  ∧ (4 + 1, 1 + 1) ∈ calculateValidMoves aliceBoard pawn41 4 1
  ∧ ChessGame.validateMove 8 (Some pawn41) 4 1 (4 + 1) (1 + 1) (pieces aliceBoard)
    = Ok false.
Proof.
  intros pawn41.
  assert (Hq : ptype pawn41 ≠ queen) by discriminate.
  assert (Hk : ptype pawn41 ≠ king) by discriminate.
  assert (Hfree : getPieceAt aliceBoard (4 + 1) (1 + 1) = None)
    by (vm_compute; reflexivity).
  assert (H4 : Number.safe 4) by (apply safe_small; lia).
  assert (H1 : Number.safe 1) by (apply safe_small; lia).
  split; [done|]. split; [exact Hq|]. split; [exact Hk|]. split; [exact Hfree|].
  exact (client_offers_more_than_rules aliceBoard pawn41 4 1 8 H4 H1 Hq Hk Hfree).
Defined.


(** ** Server and clients together *)








Section Worlds.
Variable spiralPoint : Z -> nat -> Z * Z.
Variable fallbackPosition : Z -> list (Z * Z) -> Z * Z.














(** ** The player list of every client *)







(** ** The board mirror of every client *)









End Worlds.

(** ** A small world: Alice and Bob join, Alice moves a rook *)







End Client.

